(** * pyvisa.util: block codec, ASCII parsing and architecture probing

    A shallow embedding of [pyvisa/util.py].  The functions of the module
    are translated one by one in [Module Util]; the parts of the Python
    runtime they call ([bytes] slicing and searching, [int], the [%d]
    format, [struct], [float], [re], [warnings]) are modelled in the modules
    before it, as CPython 3.11 has them. *)

From Stdlib Require Import Strings.Byte Strings.String.
From Stdlib Require Import ZArith List Lia Bool.
From Stdlib Require Import Floats.SpecFloat.
Import ListNotations.

Local Open Scope Z_scope.

(** ** Python values, exceptions and results *)

Module Py.

(** The exceptions the module can raise, by class (and by message where the
    source raises the same class twice). *)
Inductive exn : Type :=
| ValueError_no_hash        (* 'Could not find ... hash ...' *)
| ValueError_malformed      (* "Binary data itself was malformed" *)
| ValueError_int            (* int(): invalid literal *)
| ValueError_float          (* float(): could not convert *)
| UnicodeDecodeError        (* a subclass of ValueError *)
| OverflowError             (* float too large to pack with f format *)
| StructError               (* struct.error *)
| OSError_open              (* the file cannot be opened *)
| OSError_seek              (* seek to a negative position *)
| OSError_platform          (* raise OSError('') *)
| CalledProcessError        (* check_output failed *)
| Exception_not_executable  (* Exception('Not an executable') *)
| Exception_not_PE          (* Exception('Not a PE executable') *)
| UserWarning.              (* a warning that the filters turn into an error *)

Inductive result (A : Type) : Type :=
| Ok (a : A)
| Raise (e : exn).
Arguments Ok {A} a.
Arguments Raise {A} e.

Definition bind {A B} (r : result A) (k : A -> result B) : result B :=
  match r with
  | Ok a => k a
  | Raise e => Raise e
  end.

(** [try r except cls: h]: the handler runs when the exception is of the
    class [cls]. *)
Definition try_except {A} (r : result A) (cls : exn -> bool) (h : result A)
  : result A :=
  match r with
  | Ok a => Ok a
  | Raise e => if cls e then h else Raise e
  end.

Definition is_ok {A} (r : result A) : bool :=
  match r with Ok _ => true | Raise _ => false end.

(** [isinstance(e, ValueError)] *)
Definition is_ValueError (e : exn) : bool :=
  match e with
  | ValueError_no_hash | ValueError_malformed | ValueError_int
  | ValueError_float | UnicodeDecodeError => true
  | _ => false
  end.

Definition is_StructError (e : exn) : bool :=
  match e with StructError => true | _ => false end.

Definition bytes := list byte.

Definition b (s : string) : bytes := list_byte_of_string s.

Definition len {A} (l : list A) : Z := Z.of_nat (length l).

(** *** Slices *)

(** An index of a slice, brought into [0 .. len]: a negative index counts
    from the end. *)
Definition clip (n k : Z) : Z :=
  if k <? 0 then Z.max 0 (k + n) else Z.min k n.

(** [l[i:j]] *)
Definition slice {A} (l : list A) (i j : Z) : list A :=
  let i' := clip (len l) i in
  let j' := clip (len l) j in
  firstn (Z.to_nat (j' - i')) (skipn (Z.to_nat i') l).

(** [l[i:]] *)
Definition slice_from {A} (l : list A) (i : Z) : list A :=
  skipn (Z.to_nat (clip (len l) i)) l.

(** [l[:j]] *)
Definition slice_to {A} (l : list A) (j : Z) : list A :=
  firstn (Z.to_nat (clip (len l) j)) l.

(** *** [bytes.find] of a single byte: the first index, or -1 *)

Fixpoint find (c : byte) (l : bytes) : Z :=
  match l with
  | [] => -1
  | x :: t =>
      if Byte.eqb x c then 0
      else let r := find c t in if r <? 0 then -1 else r + 1
  end.

(** *** Characters *)

Definition ord (c : byte) : Z := Z.of_N (Byte.to_N c).

Definition chr (z : Z) : byte :=
  match Byte.of_N (Z.to_N (z mod 256)) with
  | Some c => c
  | None => x00
  end.

Definition is_digit (c : byte) : bool := (48 <=? ord c) && (ord c <=? 57).

(** The character of a digit. *)
Definition digit_chr (d : Z) : byte := chr (48 + d).

Definition digit_val (c : byte) : Z := ord c - 48.

(** Space, tab, newline, vertical tab, form feed and carriage return. *)
Definition is_space (c : byte) : bool :=
  (ord c =? 32) || ((9 <=? ord c) && (ord c <=? 13)).

(** *** [int(s)] on a byte string (base 10)

    Surrounding white space is dropped, one sign is allowed, and at least
    one digit must follow; single underscores may stand between digits;
    anything else raises ValueError.  (The module calls [int] on at most
    nine bytes, far below the length at which 3.11 refuses a conversion.) *)

Fixpoint lstrip (l : bytes) : bytes :=
  match l with
  | c :: t => if is_space c then lstrip t else l
  | [] => []
  end.

Definition strip (l : bytes) : bytes := rev (lstrip (rev (lstrip l))).

(** The value of what follows a digit: more digits, each with at most
    one underscore before it. *)
Fixpoint digits_val (acc : Z) (l : bytes) : option Z :=
  match l with
  | [] => Some acc
  | c :: t =>
      if is_digit c then digits_val (10 * acc + digit_val c) t
      else if Byte.eqb c "_" then
        match t with
        | d :: _ => if is_digit d then digits_val acc t else None
        | [] => None
        end
      else None
  end.

Definition nat_literal (l : bytes) : option Z :=
  match l with
  | c :: _ => if is_digit c then digits_val 0 l else None
  | [] => None
  end.

Definition int_literal (l : bytes) : option Z :=
  match strip l with
  | c :: t =>
      if Byte.eqb c "-" then option_map Z.opp (nat_literal t)
      else if Byte.eqb c "+" then nat_literal t
      else nat_literal (c :: t)
  | [] => None
  end.

Definition int (l : bytes) : result Z :=
  match int_literal l with
  | Some z => Ok z
  | None => Raise ValueError_int
  end.

(** *** ['%d' % n] *)

Fixpoint digits_of (fuel : nat) (n : Z) : bytes :=
  match fuel with
  | O => []
  | S f =>
      if n <? 10 then [chr (48 + n)]
      else digits_of f (n / 10) ++ [chr (48 + n mod 10)]
  end.

(** A non-negative [n] has at most [Z.log2 n + 1] decimal digits. *)
Definition str_nat (n : Z) : bytes := digits_of (S (Z.to_nat (Z.log2 n))) n.

Definition str (n : Z) : bytes :=
  if n <? 0 then "-"%byte :: str_nat (- n) else str_nat n.

(** [s.isdigit()]: at least one character, and all of them digits. *)
Definition isdigit (l : bytes) : bool :=
  match l with
  | [] => false
  | _ => forallb is_digit l
  end.

(** *** Text

    A [str] is a sequence of code points. *)

Definition text := list Z.

(** A literal of ASCII characters, as a [str]. *)
Definition u (s : string) : text := map ord (b s).

(** The decimal digits (general category Nd) come in runs of ten, from
    the digit zero to the digit nine.  These are the code points of the
    zeros of Unicode 14.0, the character database of CPython 3.11. *)
Definition decimal_zeros : list Z :=
  [ 0x0030; 0x0660; 0x06F0; 0x07C0; 0x0966; 0x09E6; 0x0A66; 0x0AE6;
    0x0B66; 0x0BE6; 0x0C66; 0x0CE6; 0x0D66; 0x0DE6; 0x0E50; 0x0ED0;
    0x0F20; 0x1040; 0x1090; 0x17E0; 0x1810; 0x1946; 0x19D0; 0x1A80;
    0x1A90; 0x1B50; 0x1BB0; 0x1C40; 0x1C50; 0xA620; 0xA8D0; 0xA900;
    0xA9D0; 0xA9F0; 0xAA50; 0xABF0; 0xFF10; 0x104A0; 0x10D30; 0x11066;
    0x110F0; 0x11136; 0x111D0; 0x112F0; 0x11450; 0x114D0; 0x11650;
    0x116C0; 0x11730; 0x118E0; 0x11950; 0x11C50; 0x11D50; 0x11DA0;
    0x16A60; 0x16AC0; 0x16B50; 0x1D7CE; 0x1D7D8; 0x1D7E2; 0x1D7EC;
    0x1D7F6; 0x1E140; 0x1E2F0; 0x1E950; 0x1FBF0 ].

(** The value of a decimal digit, in the table [zeros]. *)
Fixpoint decimal_in (zeros : list Z) (c : Z) : option Z :=
  match zeros with
  | [] => None
  | z :: t => if (z <=? c) && (c <=? z + 9) then Some (c - z)
              else decimal_in t c
  end.

(** [Py_UNICODE_TODECIMAL]: the value of a decimal digit, if [c] is one. *)
Definition decimal (c : Z) : option Z := decimal_in decimal_zeros c.

(** [Py_UNICODE_ISDECIMAL], which is what [\d] tests in a [str] pattern. *)
Definition is_decimal (c : Z) : bool :=
  match decimal c with Some _ => true | None => false end.

(** [Py_UNICODE_ISSPACE] *)
Definition unicode_space (c : Z) : bool :=
  existsb (Z.eqb c)
    [ 0x09; 0x0A; 0x0B; 0x0C; 0x0D; 0x1C; 0x1D; 0x1E; 0x1F; 0x20; 0x85;
      0xA0; 0x1680; 0x2000; 0x2001; 0x2002; 0x2003; 0x2004; 0x2005;
      0x2006; 0x2007; 0x2008; 0x2009; 0x200A; 0x2028; 0x2029; 0x202F;
      0x205F; 0x3000 ].

(** *** [float(s)] on a [str]

    The text is first brought to ASCII: a character below 127 stays, any
    other white space becomes a space and any other decimal digit the
    ASCII digit of its value; with any other character the conversion
    fails.  White space around the literal is dropped, and single
    underscores between digits are removed.  What is left is an infinity,
    a NaN, or a decimal literal, which is split into its sign, its decimal
    digits (integer and fractional part together) and its power of ten. *)

Definition ascii_char (c : Z) : option byte :=
  if (0 <=? c) && (c <? 127) then Some (chr c)
  else if unicode_space c then Some " "%byte
  else option_map digit_chr (decimal c).

Fixpoint to_ascii (s : text) : option bytes :=
  match s with
  | [] => Some []
  | c :: t =>
      match ascii_char c, to_ascii t with
      | Some x, Some r => Some (x :: r)
      | _, _ => None
      end
  end.

(** The underscores of a literal are removed: each must come after a
    digit and before a digit.  [prev] is the character before [l]. *)
Fixpoint ungroup (prev : option byte) (l : bytes) : option bytes :=
  let after_digit :=
    match prev with Some p => is_digit p | None => false end in
  let after_underscore :=
    match prev with Some p => Byte.eqb p "_" | None => false end in
  match l with
  | [] => if after_underscore then None else Some []
  | c :: t =>
      if Byte.eqb c "_" then
        if after_digit then ungroup (Some c) t else None
      else if after_underscore && negb (is_digit c) then None
      else option_map (cons c) (ungroup (Some c) t)
  end.

Fixpoint span_digits (l : bytes) : bytes * bytes :=
  match l with
  | c :: t =>
      if is_digit c then let '(d, r) := span_digits t in (c :: d, r)
      else ([], l)
  | [] => ([], [])
  end.

Definition digits_Z (l : bytes) : Z :=
  fold_left (fun acc c => 10 * acc + digit_val c) l 0.

Definition take_sign (l : bytes) : bool * bytes :=
  match l with
  | c :: t =>
      if Byte.eqb c "-" then (true, t)
      else if Byte.eqb c "+" then (false, t)
      else (false, l)
  | [] => (false, [])
  end.

(** An ASCII letter in lower case. *)
Definition lower (c : byte) : byte :=
  if (65 <=? ord c) && (ord c <=? 90) then chr (ord c + 32) else c.

(** What [float] reads: an infinity, a NaN, or [(-1)^s * m * 10^e]. *)
Inductive float_value : Type :=
| Infinity (s : bool)
| NaN (s : bool)
| Decimal (s : bool) (m e : Z).

(** "inf", "infinity" and "nan", in any case, with an optional sign. *)
Definition inf_or_nan (l : bytes) : option float_value :=
  let '(s, r) := take_sign l in
  let r := map lower r in
  if list_eq_dec Byte.byte_eq_dec r (b "inf") then Some (Infinity s)
  else if list_eq_dec Byte.byte_eq_dec r (b "infinity") then Some (Infinity s)
  else if list_eq_dec Byte.byte_eq_dec r (b "nan") then Some (NaN s)
  else None.

Definition decimal_literal (l : bytes) : option float_value :=
  let '(s, l1) := take_sign l in
  let '(ip, l2) := span_digits l1 in
  let '(fp, l3) :=
    match l2 with
    | c :: t => if Byte.eqb c "." then span_digits t else ([], l2)
    | [] => ([], [])
    end in
  match ip ++ fp with
  | [] => None
  | ds =>
      match l3 with
      | [] => Some (Decimal s (digits_Z ds) (- len fp))
      | c :: t =>
          if Byte.eqb c "e" || Byte.eqb c "E" then
            let '(es, l4) := take_sign t in
            match span_digits l4 with
            | ((_ :: _) as ed, []) =>
                Some (Decimal s (digits_Z ds)
                        ((if es then - digits_Z ed else digits_Z ed) - len fp))
            | _ => None
            end
          else None
      end
  end.

Definition float_literal (s : text) : option float_value :=
  match to_ascii s with
  | None => None
  | Some a =>
      match ungroup None (strip a) with
      | None => None
      | Some l =>
          match inf_or_nan l with
          | Some v => Some v
          | None => decimal_literal l
          end
      end
  end.

(** *** [bytes.decode('ascii')]: fails on a byte above 127 *)

Definition decode_ascii (l : bytes) : result bytes :=
  if forallb (fun c => ord c <? 128) l then Ok l else Raise UnicodeDecodeError.

(** *** [s.startswith(p)] and [p in s] *)

Fixpoint startswith (s p : bytes) : bool :=
  match p, s with
  | [], _ => true
  | c :: p', d :: s' => Byte.eqb c d && startswith s' p'
  | _ :: _, [] => false
  end.

Fixpoint contains (p s : bytes) : bool :=
  startswith s p ||
  match s with
  | [] => false
  | _ :: t => contains p t
  end.

Definition bytes_eqb (x y : bytes) : bool :=
  if list_eq_dec Byte.byte_eq_dec x y then true else false.

(** *** A binary file opened for reading: its content and the position *)

Record file : Type := { content : bytes; pos : Z }.

Definition read (n : Z) (fp : file) : bytes * file :=
  let data := slice (content fp) (pos fp) (pos fp + n) in
  (data, {| content := content fp; pos := pos fp + len data |}).

Definition seek (offset : Z) (fp : file) : result file :=
  if offset <? 0 then Raise OSError_seek
  else Ok {| content := content fp; pos := offset |}.

End Py.

Notation "x <- r ;; k" := (Py.bind r (fun x => k))
  (at level 61, r at next level, right associativity).

(** ** IEEE 754 values, as [struct] and [float] see them *)

Module IEEE.
Import Py.

(** A Python float is a binary64 value; it is modelled by its 64-bit
    pattern (sign, 11 exponent bits, 52 fraction bits). *)
Definition float := Z.

Definition is_float (x : float) : Prop := 0 <= x < 2 ^ 64.

(** Pattern of [mw] fraction bits and [ew] exponent bits to the value it
    denotes, in the format of precision [mw + 1]. *)
Definition sf_of_bits (mw ew : Z) (x : Z) : spec_float :=
  let s := Z.testbit x (mw + ew) in
  let E := (x / 2 ^ mw) mod 2 ^ ew in
  let m := x mod 2 ^ mw in
  let emin := 3 - 2 ^ (ew - 1) - (mw + 1) in
  if E =? 0 then
    match m with
    | Zpos p => S754_finite s p emin
    | _ => S754_zero s
    end
  else if E =? 2 ^ ew - 1 then
    (if m =? 0 then S754_infinity s else S754_nan)
  else
    match m + 2 ^ mw with
    | Zpos p => S754_finite s p (E + emin - 1)
    | _ => S754_nan
    end.

Definition sign_bit (mw ew : Z) (s : bool) : Z :=
  if s then 2 ^ (mw + ew) else 0.

(** A value of the format to its pattern; NaN gives the quiet NaN. *)
Definition bits_of_sf (mw ew : Z) (f : spec_float) : Z :=
  let emin := 3 - 2 ^ (ew - 1) - (mw + 1) in
  match f with
  | S754_zero s => sign_bit mw ew s
  | S754_infinity s => sign_bit mw ew s + (2 ^ ew - 1) * 2 ^ mw
  | S754_nan => (2 ^ ew - 1) * 2 ^ mw + 2 ^ (mw - 1)
  | S754_finite s m e =>
      if Zpos m <? 2 ^ mw then sign_bit mw ew s + Zpos m
      else sign_bit mw ew s + (e - emin + 1) * 2 ^ mw + (Zpos m - 2 ^ mw)
  end.

Definition signed (s : bool) (m : positive) : Z :=
  if s then Zneg m else Zpos m.

(** The C conversion [(float)x] followed by the check of [PyFloat_Pack4]:
    a finite double that rounds to an infinity raises OverflowError.  The
    result is the 32-bit pattern of the nearest single (ties to even); a
    NaN keeps its sign and the high bits of its payload. *)
Definition to_single (x : float) : result Z :=
  match sf_of_bits 52 11 x with
  | S754_nan =>
      Ok ((sign_bit 23 8 (Z.testbit x 63) + 255 * 2 ^ 23 + 2 ^ 22
           + (x mod 2 ^ 51) / 2 ^ 29) mod 2 ^ 32)
  | S754_finite s m e =>
      match binary_normalize 24 128 (signed s m) e s with
      | S754_infinity _ => Raise OverflowError
      | r => Ok (bits_of_sf 23 8 r mod 2 ^ 32)
      end
  | f => Ok (bits_of_sf 23 8 f mod 2 ^ 32)
  end.

(** The C conversion [(double)y] of a single, which is exact; a NaN keeps
    its sign and its payload and comes out quiet. *)
Definition of_single (y : Z) : float :=
  match sf_of_bits 23 8 y with
  | S754_nan =>
      sign_bit 52 11 (Z.testbit y 31) + 2047 * 2 ^ 52 + 2 ^ 51
      + (y mod 2 ^ 22) * 2 ^ 29
  | S754_finite s m e =>
      bits_of_sf 52 11 (binary_normalize 53 1024 (signed s m) e s)
  | f => bits_of_sf 52 11 f
  end.

(** What a double becomes when it is stored as a single and read back. *)
Definition single_round (x : float) : result float :=
  y <- to_single x ;; Ok (of_single y).

(** The double nearest to [(-1)^s * m * 10^e] (ties to even), as the
    conversion of a decimal literal computes it; too large a value gives an
    infinity. *)
Definition of_decimal (s : bool) (m : Z) (e : Z) : float :=
  match m with
  | Zpos p =>
      if 0 <=? e then
        bits_of_sf 52 11 (binary_normalize 53 1024 (signed s p * 10 ^ e) 0 s)
      else
        let '(q, e', l) := SFdiv_core_binary 53 1024 (Zpos p) 0 (10 ^ (- e)) 0 in
        bits_of_sf 52 11 (binary_round_aux 53 1024 s q e' l)
  | _ => bits_of_sf 52 11 (S754_zero s)
  end.

(** [float(s)] *)
Definition float_ (s : text) : result float :=
  match float_literal s with
  | Some (Infinity sg) => Ok (bits_of_sf 52 11 (S754_infinity sg))
  | Some (NaN sg) => Ok (sign_bit 52 11 sg + bits_of_sf 52 11 S754_nan)
  | Some (Decimal sg m e) => Ok (of_decimal sg m e)
  | None => Raise ValueError_float
  end.

End IEEE.

(** ** The [re] module: a backtracking matcher *)

Module Re.
Import Py.

Inductive regex : Type :=
| Eps
| Set_ (cs : text)             (* [...] *)
| Digit                        (* \d *)
| Seq (r1 r2 : regex)
| Alt (r1 r2 : regex)          (* r1|r2 *)
| Opt (r : regex)              (* r? *)
| Star (r : regex).            (* r* *)

(** r+ *)
Definition Plus (r : regex) : regex := Seq r (Star r).

Definition mem (c : Z) (cs : text) : bool := existsb (Z.eqb c) cs.

Definition match_char (p : Z -> bool) (s : text)
  : list (text * text) :=
  match s with
  | c :: t => if p c then [([c], t)] else []
  | [] => []
  end.

Definition then_ (ms : list (text * text))
    (k : text -> list (text * text)) : list (text * text) :=
  flat_map (fun '(m1, s1) => map (fun '(m2, s2) => (m1 ++ m2, s2)) (k s1)) ms.

(** The greedy star: one more iteration first (it must consume
    something), then none. *)
Fixpoint star (one : text -> list (text * text)) (fuel : nat) (s : text)
  : list (text * text) :=
  match fuel with
  | O => [([], s)]
  | S f =>
      then_ (filter (fun '(_, s1) => (length s1 <? length s)%nat) (one s))
            (star one f)
      ++ [([], s)]
  end.

(** All the ways [r] matches a prefix of [s], as (matched text, rest), in
    the order a backtracking matcher tries them; the first is the match. *)
Fixpoint matches_at (r : regex) (s : text) : list (text * text) :=
  match r with
  | Eps => [([], s)]
  | Set_ cs => match_char (fun c => mem c cs) s
  | Digit => match_char is_decimal s
  | Seq r1 r2 => then_ (matches_at r1 s) (matches_at r2)
  | Alt r1 r2 => matches_at r1 s ++ matches_at r2 s
  | Opt r1 => matches_at r1 s ++ [([], s)]
  | Star r1 => star (matches_at r1) (length s) s
  end.

(** [r.match(s)]: the text matched at the start of [s], if any. *)
Definition match_ (r : regex) (s : text) : option text :=
  match matches_at r s with
  | (m, _) :: _ => Some m
  | [] => None
  end.

(** [r.findall(s)] for a pattern without groups: the matches from left to
    right, each search starting where the last match ended ([skip] counts
    the characters still covered by the last match). *)
Fixpoint scan (r : regex) (skip : nat) (s : text) : list text :=
  match s with
  | [] =>
      match skip, match_ r [] with
      | O, Some m => [m]
      | _, _ => []
      end
  | _ :: t =>
      match skip with
      | S k => scan r k t
      | O =>
          match match_ r s with
          | Some m => m :: scan r (length m - 1) t
          | None => scan r 0 t
          end
      end
  end.

Definition findall (r : regex) (s : text) : list text := scan r 0 s.

(** The language of a pattern.  An iteration of a star consumes at least
    one character. *)
Inductive Matches : regex -> text -> Prop :=
| M_Eps : Matches Eps []
| M_Set cs c : mem c cs = true -> Matches (Set_ cs) [c]
| M_Digit c : is_decimal c = true -> Matches Digit [c]
| M_Seq r1 r2 m1 m2 :
    Matches r1 m1 -> Matches r2 m2 -> Matches (Seq r1 r2) (m1 ++ m2)
| M_AltL r1 r2 m : Matches r1 m -> Matches (Alt r1 r2) m
| M_AltR r1 r2 m : Matches r2 m -> Matches (Alt r1 r2) m
| M_OptNone r : Matches (Opt r) []
| M_OptSome r m : Matches r m -> Matches (Opt r) m
| M_StarNil r : Matches (Star r) []
| M_StarCons r m1 m2 :
    m1 <> [] -> Matches r m1 -> Matches (Star r) m2 ->
    Matches (Star r) (m1 ++ m2).

(** [Tokens r s toks]: [toks] are the matches of [r] in [s] from left to
    right.  A character is skipped only where no match starts, and a
    token is the text the matcher returns where it starts. *)
Inductive Tokens (r : regex) : text -> list text -> Prop :=
| tk_end : Tokens r [] []
| tk_skip c s toks :
    (forall m rest, c :: s = m ++ rest -> ~ Matches r m) ->
    Tokens r s toks -> Tokens r (c :: s) toks
| tk_tok m rest toks :
    m <> [] -> Matches r m -> match_ r (m ++ rest) = Some m ->
    Tokens r rest toks -> Tokens r (m ++ rest) (m :: toks).

(** [accepts r c]: some character class of [r] holds [c]. *)
Fixpoint accepts (r : regex) (c : Z) : bool :=
  match r with
  | Eps => false
  | Set_ cs => mem c cs
  | Digit => is_decimal c
  | Seq r1 r2 | Alt r1 r2 => accepts r1 c || accepts r2 c
  | Opt r1 | Star r1 => accepts r1 c
  end.

(** A way to match, with [tail] put behind the text that is left. *)
Definition shift (tail : text) (p : text * text) : text * text :=
  (fst p, snd p ++ tail).

End Re.

(** ** The [struct] module, for the formats the codec builds *)

Module Struct.
Import Py IEEE.

(** The element format: ['f'] (single) or ['d'] (double). *)
Inductive datatype : Type := fmt_f | fmt_d.

Definition calcsize (dt : datatype) : Z :=
  match dt with fmt_f => 4 | fmt_d => 8 end.

Definition size_nat (dt : datatype) : nat :=
  match dt with fmt_f => 4%nat | fmt_d => 8%nat end.

(** [n] bytes of [x], least significant first. *)
Fixpoint to_le (n : nat) (x : Z) : bytes :=
  match n with
  | O => []
  | S k => chr (x mod 256) :: to_le k (x / 256)
  end.

Fixpoint of_le (l : bytes) : Z :=
  match l with
  | [] => 0
  | c :: t => ord c + 256 * of_le t
  end.

(** ['>'] stores the most significant byte first, ['<'] the least. *)
Definition endian (is_big_endian : bool) (l : bytes) : bytes :=
  if is_big_endian then rev l else l.

Definition pack1 (big : bool) (dt : datatype) (x : float) : result bytes :=
  match dt with
  | fmt_d => Ok (endian big (to_le 8 x))
  | fmt_f => y <- to_single x ;; Ok (endian big (to_le 4 y))
  end.

Definition unpack1 (big : bool) (dt : datatype) (l : bytes) : float :=
  match dt with
  | fmt_d => of_le (endian big l)
  | fmt_f => of_single (of_le (endian big l))
  end.

Fixpoint pack_all (big : bool) (dt : datatype) (v : list float)
  : result bytes :=
  match v with
  | [] => Ok []
  | x :: t =>
      bx <- pack1 big dt x ;;
      bt <- pack_all big dt t ;;
      Ok (bx ++ bt)
  end.

(** [struct.pack(endianess + str(count) + datatype, *v)] *)
Definition pack (big : bool) (count : Z) (dt : datatype) (v : list float)
  : result bytes :=
  if count =? len v then pack_all big dt v else Raise StructError.

(** The first [n] elements of [sz] bytes each. *)
Fixpoint chunks (n sz : nat) (l : bytes) : list bytes :=
  match n with
  | O => []
  | S k => firstn sz l :: chunks k sz (skipn sz l)
  end.

Definition unpack_all (big : bool) (count : Z) (dt : datatype) (l : bytes)
  : list float :=
  map (unpack1 big dt) (chunks (Z.to_nat count) (size_nat dt) l).

(** [struct.unpack_from(endianess + str(count) + datatype, buf, offset)]:
    a negative count is a bad format, and the buffer must hold the whole
    struct from [offset] on ([offset] is never negative here). *)
Definition unpack_from (big : bool) (count : Z) (dt : datatype)
    (buf : bytes) (offset : Z) : result (list float) :=
  if count <? 0 then Raise StructError
  else if len buf - offset <? count * calcsize dt then Raise StructError
  else Ok (unpack_all big count dt (skipn (Z.to_nat offset) buf)).

(** [struct.unpack(endianess + str(count) + datatype, buf)]: the buffer
    must have exactly the size of the struct. *)
Definition unpack (big : bool) (count : Z) (dt : datatype) (buf : bytes)
  : result (list float) :=
  if count <? 0 then Raise StructError
  else if len buf =? count * calcsize dt then Ok (unpack_all big count dt buf)
  else Raise StructError.

(** The two fixed formats of the header prober have no byte-order
    character, so they are read in native mode: with the byte order of the
    machine and with the size of a C [long] (4 bytes on Windows and on
    32-bit platforms, 8 bytes on 64-bit Linux and macOS), to which the
    [long] is also aligned.  So ['2s58sl'] has 64 bytes where a [long] has
    4, and 72 bytes (4 of padding before the [long]) where it has 8;
    ['2s2sH'] has 6 bytes everywhere. *)

Inductive c_long : Type := long4 | long8.

Definition sizeof_long (l : c_long) : Z :=
  match l with long4 => 4 | long8 => 8 end.

Record native : Type := {
  long : c_long;
  byteorder_big : bool
}.

Definition of_native (n : native) (l : bytes) : Z :=
  of_le (endian (byteorder_big n) l).

Definition signed32 (z : Z) : Z := if z <? 2 ^ 31 then z else z - 2 ^ 32.

Definition signed64 (z : Z) : Z := if z <? 2 ^ 63 then z else z - 2 ^ 64.

Definition unpack_2s58sl (n : native) (buf : bytes)
  : result (bytes * bytes * Z) :=
  let size := sizeof_long (long n) in
  let at_long := 60 + (- 60) mod size in
  if len buf =? at_long + size then
    let v := of_native n (slice buf at_long (at_long + size)) in
    Ok (slice buf 0 2, slice buf 2 60,
        match long n with long4 => signed32 v | long8 => signed64 v end)
  else Raise StructError.

Definition unpack_2s2sH (n : native) (buf : bytes)
  : result (bytes * bytes * Z) :=
  if len buf =? 6 then
    Ok (slice buf 0 2, slice buf 2 4, of_native n (slice buf 4 6))
  else Raise StructError.

(** What is read back for a value stored in the format [dt]: the value
    itself for a double, the nearest single for a single. *)
Definition stored (dt : datatype) (x x' : float) : Prop :=
  match dt with
  | fmt_d => x' = x
  | fmt_f => single_round x = Ok x'
  end.

End Struct.

(** ** pyvisa.util *)

Module Util.
Import Py IEEE Struct Re.

(** [parse_binary] up to the point where [data] and [data_length] are
    known (lines 175-197 of the source). *)
Definition parse_binary_payload (bytes_data : bytes) : result (bytes * Z) :=
  let data := bytes_data in
  let hash_sign_position := find "#" bytes_data in
  if hash_sign_position =? -1 then Raise ValueError_no_hash
  else
    let data :=
      if 0 <? hash_sign_position then slice_from data hash_sign_position
      else data in
    data_1 <- decode_ascii (slice data 1 2) ;;
    if isdigit data_1
       && match int data_1 with Ok n => 0 <? n | Raise _ => false end
    then
      number_of_digits <- int data_1 ;;
      data_length <- int (slice data 2 (2 + number_of_digits)) ;;
      Ok (slice data (2 + number_of_digits)
                     (2 + number_of_digits + data_length),
          data_length)
    else
      let data := slice_from data 2 in
      last <- decode_ascii (slice_from data (-1)) ;;
      let data :=
        if list_eq_dec Byte.byte_eq_dec last [x0a] then slice_to data (-1)
        else data in
      Ok (data, len data).

Definition parse_binary (bytes_data : bytes) (is_big_endian is_single : bool)
  : result (list float) :=
  p <- parse_binary_payload bytes_data ;;
  let '(data, data_length) := p in
  try_except
    (if is_single then unpack is_big_endian (data_length / 4) fmt_f data
     else unpack is_big_endian (data_length / 8) fmt_d data)
    is_StructError
    (Raise ValueError_malformed).

(** The element format [parse_binary] unpacks for its flag [is_single]. *)
Definition legacy_datatype (is_single : bool) : datatype :=
  if is_single then fmt_f else fmt_d.

Definition from_ieee_block (block : bytes) (datatype : datatype)
    (is_big_endian : bool) : result (list float) :=
  let begin := find "#" block in
  if begin <? 0 then Raise ValueError_no_hash
  else
    header_length <-
      try_except (int (slice block (begin + 1) (begin + 2)))
                 is_ValueError (Ok 0) ;;
    let offset := begin + 2 + header_length in
    od <-
      (if 0 <? header_length then
         data_length <- int (slice block (begin + 2)
                                         (begin + 2 + header_length)) ;;
         Ok (offset, data_length)
       else
         let offset := begin + 2 in
         let data_length := len block - offset - 1 in
         let element_length := calcsize datatype in
         let data_length := Z.quot data_length element_length in
         Ok (offset, data_length)) ;;
    let '(offset, data_length) := od in
    try_except
      (unpack_from is_big_endian data_length datatype block offset)
      is_StructError
      (Raise ValueError_malformed).

Definition to_ieee_block (data : list float) (datatype : datatype)
    (is_big_endian : bool) : result bytes :=
  let data_length := len data in
  let header := str data_length in
  payload <- pack is_big_endian data_length datatype data ;;
  Ok ("#"%byte :: str (len header) ++ str data_length ++ payload).

(** [_ascii_re]: an optional sign; then digits with an optional point and
    optional digits after it, or optional digits, a point and digits; then
    an optional exponent ([e] or [E], an optional sign, digits). *)
Definition _ascii_re : regex :=
  Seq (Opt (Set_ (u "-+")))
 (Seq (Alt (Seq (Plus Digit) (Opt (Seq (Set_ (u ".")) (Star Digit))))
           (Seq (Star Digit) (Seq (Set_ (u ".")) (Plus Digit))))
      (Opt (Seq (Set_ (u "eE")) (Seq (Opt (Set_ (u "-+"))) (Plus Digit))))).

(** [container(float(raw_value) for raw_value in ...)], with a list as
    the container. *)
Fixpoint floats (raw_values : list text) : result (list float) :=
  match raw_values with
  | [] => Ok []
  | raw_value :: t =>
      x <- float_ raw_value ;;
      xs <- floats t ;;
      Ok (x :: xs)
  end.

Definition parse_ascii (ascii_data : text) : result (list float) :=
  floats (findall _ascii_re ascii_data).

(** What the prober sees of the machine it runs on: [sys.platform], the
    native mode of [struct], the files that can be opened, and the output
    of [file <filename>]. *)
Record world : Type := {
  platform : bytes;
  native_mode : native;
  io_open : bytes -> result bytes;
  check_output_file : bytes -> result bytes
}.

Definition machine_types : list (Z * bytes) :=
  [ (0, b "UNKNOWN");
    (0x014c, b "I386");
    (0x0162, b "R3000");
    (0x0166, b "R4000");
    (0x0168, b "R10000");
    (0x0169, b "WCEMIPSV2");
    (0x0184, b "ALPHA");
    (0x01a2, b "SH3");
    (0x01a3, b "SH3DSP");
    (0x01a4, b "SH3E");
    (0x01a6, b "SH4");
    (0x01a8, b "SH5");
    (0x01c0, b "ARM");
    (0x01c2, b "THUMB");
    (0x01c4, b "ARMNT");
    (0x01d3, b "AM33");
    (0x01f0, b "POWERPC");
    (0x01f1, b "POWERPCFP");
    (0x0200, b "IA64");
    (0x0266, b "MIPS16");
    (0x0284, b "ALPHA64");
    (0x0366, b "MIPSFPU");
    (0x0466, b "MIPSFPU16");
    (0x0520, b "TRICORE");
    (0x0cef, b "CEF");
    (0x0ebc, b "EBC");
    (0x8664, b "AMD64");
    (0x9041, b "M32R");
    (0xc0ee, b "CEE") ].

(** [d.get(key, default)] *)
Fixpoint get (d : list (Z * bytes)) (key : Z) (default : bytes) : bytes :=
  match d with
  | [] => default
  | (k, v) :: t => if k =? key then v else get t key default
  end.

(** [get_shared_library_arch], on the content of the opened file. *)
Definition pe_machine_type (n : native) (fp : file) : result bytes :=
  let '(dos_headers, fp) := read 64 fp in
  let '(_, fp) := read 4 fp in
  h <- unpack_2s58sl n dos_headers ;;
  let '(magic, skip, offset) := h in
  if negb (bytes_eqb magic (b "MZ")) then Raise Exception_not_executable
  else
    fp <- seek offset fp ;;
    let '(pe_header, fp) := read 6 fp in
    h <- unpack_2s2sH n pe_header ;;
    let '(sig, skip, machine) := h in
    if negb (bytes_eqb sig (b "PE")) then Raise Exception_not_PE
    else Ok (get machine_types machine (b "UNKNOWN")).

Definition get_shared_library_arch (w : world) (filename : bytes)
  : result bytes :=
  data <- io_open w filename ;;
  pe_machine_type (native_mode w) {| content := data; pos := 0 |}.

Definition get_arch (w : world) (filename : bytes) : result (list Z) :=
  let this_platform := platform w in
  if startswith this_platform (b "win") then
    machine_type <- get_shared_library_arch w filename ;;
    if bytes_eqb machine_type (b "I386") then Ok [32]
    else if bytes_eqb machine_type (b "IA64")
            || bytes_eqb machine_type (b "AMD64") then Ok [64]
    else Ok []
  else if negb (existsb (bytes_eqb this_platform)
                  [b "linux2"; b "linux3"; b "linux"; b "darwin"])
  then Raise OSError_platform
  else
    out <- check_output_file w filename ;;
    out <- decode_ascii out ;;
    let ret := [] in
    let ret :=
      if startswith this_platform (b "linux") then
        let ret := if contains (b "32-bit") out then ret ++ [32] else ret in
        if contains (b "64-bit") out then ret ++ [64] else ret
      else if bytes_eqb this_platform (b "darwin") then
        let ret :=
          if contains (b "(for architecture i386)") out then ret ++ [32]
          else ret in
        if contains (b "(for architecture x86_64)") out then ret ++ [64]
        else ret
      else ret in
    Ok ret.

(** The word sizes the Windows branch of [get_arch] gives, by machine-type
    code rather than by name (used to state what the branch computes). *)
Definition arch_of_machine (machine : Z) : list Z :=
  if machine =? 0x014c then [32]
  else if (machine =? 0x0200) || (machine =? 0x8664) then [64]
  else [].

(** A [LibraryPath] object: the path, how it was found, and the cached
    architecture ([None] until [arch] is first read). *)
Record LibraryPath : Type := {
  path : bytes;
  found_by : bytes;
  _arch : option (list Z)
}.

(** [LibraryPath(path, found_by)] *)
Definition new_LibraryPath (path found_by : bytes) : LibraryPath :=
  {| path := path; found_by := found_by; _arch := None |}.

(** The property [arch]: the value read and the object after the read.
    The second component counts the calls of [get_arch] the read made, so
    that a recomputation can be told from a cached read. *)
Definition arch (w : world) (self : LibraryPath)
  : result (list Z * LibraryPath) * nat :=
  match _arch self with
  | None =>
      (a <- try_except (get_arch w (path self)) (fun _ => true) (Ok []) ;;
       Ok (a, {| path := path self; found_by := found_by self;
                 _arch := Some a |}),
       1%nat)
  | Some a => (Ok (a, self), 0%nat)
  end.

(** The other properties of [LibraryPath] read [arch] (the first read
    fills the cache, the second finds it): ['n/a'] for an empty tuple. *)
Definition is_32bit (w : world) (self : LibraryPath)
  : result ((bytes + bool) * LibraryPath) :=
  x <- fst (arch w self) ;;
  let '(a, self) := x in
  if match a with [] => true | _ => false end then Ok (inl (b "n/a"), self)
  else
    y <- fst (arch w self) ;;
    let '(a, self) := y in
    Ok (inr (existsb (Z.eqb 32) a), self).

Definition is_64bit (w : world) (self : LibraryPath)
  : result ((bytes + bool) * LibraryPath) :=
  x <- fst (arch w self) ;;
  let '(a, self) := x in
  if match a with [] => true | _ => false end then Ok (inl (b "n/a"), self)
  else
    y <- fst (arch w self) ;;
    let '(a, self) := y in
    Ok (inr (existsb (Z.eqb 64) a), self).

(** [sep.join(parts)] *)
Fixpoint join (sep : bytes) (parts : list bytes) : bytes :=
  match parts with
  | [] => []
  | [x] => x
  | x :: t => x ++ sep ++ join sep t
  end.

Definition bitness (w : world) (self : LibraryPath)
  : result (bytes * LibraryPath) :=
  x <- fst (arch w self) ;;
  let '(a, self) := x in
  if match a with [] => true | _ => false end then Ok (b "n/a", self)
  else
    y <- fst (arch w self) ;;
    let '(a, self) := y in
    Ok (join (b ", ") (map str a), self).

(** *** Keyword arguments

    A dictionary of keyword arguments: the items in the order of
    insertion, each key once. *)
Definition dict (V : Type) : Type := list (bytes * V).

(** [key in keys] *)
Definition contains_key (keys : list bytes) (key : bytes) : bool :=
  existsb (bytes_eqb key) keys.

(** [d.get(key)] *)
Fixpoint getitem {V} (d : dict V) (key : bytes) : option V :=
  match d with
  | [] => None
  | (k, v) :: t => if bytes_eqb k key then Some v else getitem t key
  end.

(** [d[key] = value]: a present key keeps its place. *)
Fixpoint setitem {V} (d : dict V) (key : bytes) (value : V) : dict V :=
  match d with
  | [] => [(key, value)]
  | (k, v) :: t =>
      if bytes_eqb k key then (k, value) :: t
      else (k, v) :: setitem t key value
  end.

(** ['Keyword argument "%s" unknown' % key] *)
Definition unknown_keyword (key : bytes) : bytes :=
  b "Keyword argument " ++ [x22] ++ key ++ [x22] ++ b " unknown".

(** The loop of [filter_kwargs] over the items that are left. *)
Fixpoint filter_kwargs_loop {V} (items : dict V) (selected_keys : list bytes)
    (result : dict V) : dict V :=
  match items with
  | [] => result
  | (key, value) :: t =>
      filter_kwargs_loop t selected_keys
        (if contains_key selected_keys key then setitem result key value
         else result)
  end.

Definition filter_kwargs {V} (keyw : dict V) (selected_keys : list bytes)
  : dict V :=
  filter_kwargs_loop keyw selected_keys [].

(** *** Functions that warn

    [warnings.warn(message, stacklevel=n)] acts on the state of the
    [warnings] module (the filters, the registries of what was shown, the
    output): it returns with a new state, or it raises, when a filter
    turns the warning into an error.  The two functions that warn take it
    as the parameter [warnings_warn], with the type [S] of the state. *)

Section Warnings.
Context {S V : Type}.
Variable warnings_warn : bytes -> Z -> S -> result S.

(** [warn_for_invalid_kwargs]: the state after the loop, or the exception
    of the call that raised (the loop ends there). *)
Fixpoint warn_for_invalid_kwargs (keyw : dict V) (allowed_keys : list bytes)
    (st : S) : result S :=
  match keyw with
  | [] => Ok st
  | (key, _) :: t =>
      st <- (if negb (contains_key allowed_keys key)
             then warnings_warn (unknown_keyword key) 3 st
             else Ok st) ;;
      warn_for_invalid_kwargs t allowed_keys st
  end.

(** The loop of [split_kwargs]: the two dictionaries and the state. *)
Fixpoint split_kwargs_loop (items : dict V)
    (self_keys parent_keys : list bytes) (warn : bool)
    (self_kwargs parent_kwargs : dict V) (st : S)
  : result (dict V * dict V * S) :=
  match items with
  | [] => Ok (self_kwargs, parent_kwargs, st)
  | (key, value) :: t =>
      st <- (if warn && negb (contains_key self_keys key
                              || contains_key parent_keys key)
             then warnings_warn (unknown_keyword key) 3 st
             else Ok st) ;;
      let self_kwargs :=
        if contains_key self_keys key then setitem self_kwargs key value
        else self_kwargs in
      let parent_kwargs :=
        if contains_key parent_keys key then setitem parent_kwargs key value
        else parent_kwargs in
      split_kwargs_loop t self_keys parent_keys warn
        self_kwargs parent_kwargs st
  end.

Definition split_kwargs (keyw : dict V)
    (self_keys parent_keys : list bytes) (warn : bool) (st : S)
  : result (dict V * dict V * S) :=
  split_kwargs_loop keyw self_keys parent_keys warn [] [] st.

(** The calls [warnings.warn(message, stacklevel=3)] for the messages of
    a list, one after the other, until a call raises. *)
Fixpoint warn_each (messages : list bytes) (st : S) : result S :=
  match messages with
  | [] => Ok st
  | message :: t =>
      st <- warnings_warn message 3 st ;;
      warn_each t st
  end.

End Warnings.

(** Two instances of [warnings.warn], with the list of the warnings shown
    as the state: under the filter 'always' every warning is shown, under
    the filter 'error' every warning is raised. *)
Definition warn_always (message : bytes) (stacklevel : Z)
    (shown : list bytes) : result (list bytes) :=
  Ok (shown ++ [message]).

Definition warn_error (message : bytes) (stacklevel : Z)
    (shown : list bytes) : result (list bytes) :=
  Raise UserWarning.

End Util.

(** * Properties *)

Import Py IEEE Struct Re Util.

(** ** Lists, lengths and slices *)

Section ListFacts.
Context {A : Type}.
Implicit Types l pre post : list A.

Lemma len_nonneg l : 0 <= len l.
Proof. unfold len; lia. Qed.

Lemma len_app l1 l2 : len (l1 ++ l2) = len l1 + len l2.
Proof. unfold len; rewrite length_app; lia. Qed.

Lemma len_cons (x : A) l : len (x :: l) = 1 + len l.
Proof. unfold len; simpl length; lia. Qed.

Lemma len_nil : len (@nil A) = 0.
Proof. reflexivity. Qed.

Lemma len_firstn (n : nat) l : len (firstn n l) = Z.min (Z.of_nat n) (len l).
Proof. unfold len; rewrite length_firstn; lia. Qed.

Lemma len_skipn (n : nat) l :
  len (skipn n l) = Z.max 0 (len l - Z.of_nat n).
Proof. unfold len; rewrite length_skipn; lia. Qed.

Lemma skipn_app_len pre l (k : Z) :
  0 <= k -> skipn (Z.to_nat (len pre + k)) (pre ++ l) = skipn (Z.to_nat k) l.
Proof.
  intros Hk. unfold len.
  replace (Z.to_nat (Z.of_nat (length pre) + k))
    with (length pre + Z.to_nat k)%nat by lia.
  rewrite skipn_app, skipn_all2 by lia.
  replace (length pre + Z.to_nat k - length pre)%nat with (Z.to_nat k) by lia.
  reflexivity.
Qed.

Lemma clip_nonneg n k : 0 <= k -> clip n k = Z.min k n.
Proof. unfold clip; intros; destruct (Z.ltb_spec k 0); lia. Qed.

(** A slice with non-negative bounds, in terms of [firstn] and [skipn]. *)
Lemma slice_nonneg l i j :
  0 <= i -> 0 <= j ->
  slice l i j = firstn (Z.to_nat (j - i)) (skipn (Z.to_nat i) l).
Proof.
  intros Hi Hj. unfold slice. rewrite !clip_nonneg by assumption.
  pose proof (len_nonneg l) as Hl. unfold len in *.
  destruct (Z.le_gt_cases i (Z.of_nat (length l))) as [Hil | Hil].
  - rewrite (Z.min_l i) by lia.
    destruct (Z.le_gt_cases j (Z.of_nat (length l))) as [Hjl | Hjl].
    + rewrite (Z.min_l j) by lia. reflexivity.
    + rewrite (Z.min_r j) by lia.
      rewrite !firstn_all2; [reflexivity | |]; rewrite length_skipn; lia.
  - rewrite (Z.min_r i) by lia.
    rewrite !skipn_all2 by lia. now rewrite !firstn_nil.
Qed.

(** Slicing behind a prefix is slicing the rest. *)
Lemma slice_app_shift pre l i j :
  0 <= i -> 0 <= j ->
  slice (pre ++ l) (len pre + i) (len pre + j) = slice l i j.
Proof.
  intros Hi Hj. pose proof (len_nonneg pre).
  rewrite !slice_nonneg by lia.
  rewrite skipn_app_len by lia.
  f_equal. lia.
Qed.

Lemma slice_from_nonneg l i :
  0 <= i -> slice_from l i = skipn (Z.to_nat i) l.
Proof.
  intros Hi. unfold slice_from. rewrite clip_nonneg by assumption.
  pose proof (len_nonneg l) as Hl. unfold len in *.
  destruct (Z.le_gt_cases i (Z.of_nat (length l))).
  - now rewrite Z.min_l by lia.
  - rewrite Z.min_r by lia. now rewrite !skipn_all2 by lia.
Qed.

(** [l[-1:]] is the last element, if there is one. *)
Lemma slice_from_last l (x : A) : slice_from (l ++ [x]) (-1) = [x].
Proof.
  unfold slice_from, clip. change (-1 <? 0) with true. cbv iota.
  rewrite len_app, len_cons, len_nil. pose proof (len_nonneg l).
  replace (Z.max 0 (-1 + (len l + (1 + 0)))) with (len l + 0) by lia.
  now rewrite skipn_app_len by lia.
Qed.

(** [l[:-1]] drops the last element. *)
Lemma slice_to_last l (x : A) : slice_to (l ++ [x]) (-1) = l.
Proof.
  unfold slice_to, clip. change (-1 <? 0) with true. cbv iota.
  rewrite len_app, len_cons, len_nil. pose proof (len_nonneg l).
  replace (Z.max 0 (-1 + (len l + (1 + 0)))) with (len l) by lia.
  unfold len. rewrite Nat2Z.id, firstn_app, firstn_all, Nat.sub_diag.
  simpl. apply app_nil_r.
Qed.

Lemma slice_from_nil i : slice_from (@nil A) i = [].
Proof. unfold slice_from. now rewrite skipn_nil. Qed.

End ListFacts.

Import Py IEEE Struct Re Util.

(** ** Characters and decimal numerals *)

Lemma ord_range c : 0 <= ord c < 256.
Proof.
  unfold ord. pose proof (Byte.to_N_bounded c). lia.
Qed.

Lemma ord_chr z : ord (chr z) = z mod 256.
Proof.
  unfold ord, chr.
  pose proof (Z.mod_pos_bound z 256 ltac:(lia)) as Hm.
  destruct (Byte.of_N (Z.to_N (z mod 256))) as [c|] eqn:E.
  - apply Byte.to_of_N in E. rewrite E. lia.
  - apply Byte.of_N_None_iff in E. lia.
Qed.

Lemma chr_ord c : chr (ord c) = c.
Proof.
  unfold chr, ord. pose proof (Byte.to_N_bounded c).
  rewrite Z.mod_small by lia. rewrite N2Z.id, Byte.of_to_N. reflexivity.
Qed.

Lemma ord_inj c d : ord c = ord d -> c = d.
Proof. intros H. rewrite <- (chr_ord c), <- (chr_ord d). now rewrite H. Qed.

Lemma byte_eqb_eq c d : Byte.eqb c d = true <-> c = d.
Proof.
  split.
  - apply Byte.byte_dec_bl.
  - apply Byte.byte_dec_lb.
Qed.

Lemma byte_eqb_neq c d : Byte.eqb c d = false <-> c <> d.
Proof.
  rewrite <- byte_eqb_eq. destruct (Byte.eqb c d); intuition congruence.
Qed.

Lemma is_digit_chr d : 0 <= d < 10 -> is_digit (digit_chr d) = true.
Proof.
  intros H. unfold is_digit, digit_chr. rewrite ord_chr, Z.mod_small by lia.
  apply andb_true_iff; split; lia.
Qed.

Lemma digit_val_chr d : 0 <= d < 10 -> digit_val (digit_chr d) = d.
Proof.
  intros H. unfold digit_val, digit_chr. rewrite ord_chr, Z.mod_small by lia.
  lia.
Qed.

Lemma is_digit_not_space c : is_digit c = true -> is_space c = false.
Proof.
  unfold is_digit, is_space. intros H. apply andb_true_iff in H.
  destruct H. apply orb_false_iff; split; [lia|].
  apply andb_false_iff; right; lia.
Qed.

Lemma is_digit_inv c :
  is_digit c = true -> exists d, 0 <= d < 10 /\ c = digit_chr d.
Proof.
  unfold is_digit. intros H. apply andb_true_iff in H. destruct H.
  exists (ord c - 48). split; [lia|].
  unfold digit_chr. replace (48 + (ord c - 48)) with (ord c) by lia.
  now rewrite chr_ord.
Qed.

Lemma digits_val_snoc acc l c :
  forallb is_digit l = true -> is_digit c = true ->
  digits_val acc (l ++ [c]) =
  match digits_val acc l with
  | Some a => Some (10 * a + digit_val c)
  | None => None
  end.
Proof.
  intros Hl Hc. revert acc.
  induction l as [|x l IH]; intros acc; cbn [app digits_val].
  - now rewrite Hc.
  - cbn [forallb] in Hl. apply andb_true_iff in Hl. destruct Hl as [Hx Hl].
    rewrite Hx. now apply IH.
Qed.

Lemma digits_of_S f n :
  digits_of (S f) n =
  if n <? 10 then [digit_chr n]
  else digits_of f (n / 10) ++ [digit_chr (n mod 10)].
Proof. reflexivity. Qed.

(** The numeral of a non-negative number: its digits, its value, and its
    length [d], for which [10^(d-1) <= n < 10^d] (when [n] is not 0). *)
Lemma digits_of_spec fuel n :
  0 <= n < 2 * 2 ^ Z.of_nat fuel ->
  let ds := digits_of (S fuel) n in
  forallb is_digit ds = true /\
  digits_val 0 ds = Some n /\
  1 <= len ds /\
  n < 10 ^ len ds /\
  10 ^ (len ds - 1) <= Z.max 1 n.
Proof.
  revert n. induction fuel as [|f IH]; intros n Hn ds; subst ds.
  - change (2 * 2 ^ Z.of_nat 0) with 2 in Hn.
    assert (Hlt : (n <? 10) = true) by lia.
    rewrite digits_of_S, Hlt. cbn [forallb digits_val].
    rewrite is_digit_chr, digit_val_chr by lia.
    unfold len; simpl length. change (Z.of_nat 1) with 1.
    repeat split; try reflexivity; try lia; try (f_equal; lia).
  - rewrite digits_of_S. destruct (Z.ltb_spec n 10) as [Hlt | Hge].
    + cbn [forallb digits_val].
      rewrite is_digit_chr, digit_val_chr by lia.
      unfold len; simpl length. change (Z.of_nat 1) with 1.
      repeat split; try reflexivity; try lia; try (f_equal; lia).
    + assert (Hq : 0 <= n / 10 < 2 * 2 ^ Z.of_nat f).
      { split; [apply Z.div_pos; lia|].
        apply Z.div_lt_upper_bound; [lia|].
        rewrite Nat2Z.inj_succ, Z.pow_succ_r in Hn by lia. lia. }
      specialize (IH (n / 10) Hq). cbn zeta in IH.
      destruct IH as (Hd & Hv & Hl & Hub & Hlb).
      pose proof (Z.mod_pos_bound n 10 ltac:(lia)) as Hm.
      pose proof (Z.div_mod n 10 ltac:(lia)) as Hdm.
      rewrite forallb_app, Hd, digits_val_snoc, Hv
        by (assumption || (apply is_digit_chr; lia)).
      cbn [forallb].
      rewrite is_digit_chr, digit_val_chr by lia.
      rewrite len_app, len_cons, len_nil.
      set (d := len (digits_of (S f) (n / 10))) in *.
      replace (d + (1 + 0)) with (Z.succ d) by lia.
      replace (Z.succ d - 1) with (Z.succ (d - 1)) by lia.
      rewrite !Z.pow_succ_r by lia.
      repeat split; try reflexivity; try lia; try (f_equal; lia).
Qed.

Lemma str_nat_fuel n : 0 <= n -> n < 2 * 2 ^ Z.of_nat (Z.to_nat (Z.log2 n)).
Proof.
  intros Hn. pose proof (Z.log2_nonneg n).
  rewrite Z2Nat.id by lia.
  destruct (Z.eq_dec n 0) as [-> | Hnz]; [reflexivity|].
  pose proof (Z.log2_spec n ltac:(lia)) as Hs.
  rewrite Z.pow_succ_r in Hs by lia. lia.
Qed.

Lemma str_nat_spec n :
  0 <= n ->
  forallb is_digit (str_nat n) = true /\
  digits_val 0 (str_nat n) = Some n /\
  1 <= len (str_nat n) /\
  n < 10 ^ len (str_nat n) /\
  10 ^ (len (str_nat n) - 1) <= Z.max 1 n.
Proof.
  intros Hn. unfold str_nat. apply digits_of_spec.
  split; [assumption | now apply str_nat_fuel].
Qed.

(** [int] reads a numeral back. *)

Lemma lstrip_digit c l : is_digit c = true -> lstrip (c :: l) = c :: l.
Proof. intros H. simpl. now rewrite (is_digit_not_space c H). Qed.

Lemma forallb_last {A} (p : A -> bool) (l : list A) (x : A) :
  forallb p (l ++ [x]) = true -> p x = true.
Proof.
  rewrite forallb_app. simpl. intros H.
  apply andb_true_iff in H. destruct H as [_ H].
  now apply andb_true_iff in H.
Qed.

Lemma strip_digits l : forallb is_digit l = true -> strip l = l.
Proof.
  intros H. unfold strip. destruct l as [|c l]; [reflexivity|].
  assert (Hc : is_digit c = true) by (simpl in H; now apply andb_true_iff in H).
  rewrite (lstrip_digit c l Hc).
  destruct (exists_last (l := c :: l) ltac:(discriminate)) as (l' & x & E).
  rewrite E in *. rewrite rev_app_distr. simpl rev at 2. simpl app.
  rewrite lstrip_digit by (eapply forallb_last; eassumption).
  change (x :: rev l') with (rev [x] ++ rev l').
  now rewrite <- rev_app_distr, rev_involutive.
Qed.

Lemma digit_not_sign c :
  is_digit c = true -> Byte.eqb c "-" = false /\ Byte.eqb c "+" = false.
Proof.
  intros H. unfold is_digit in H. apply andb_true_iff in H.
  split; apply byte_eqb_neq; intros ->; vm_compute in H; destruct H; discriminate.
Qed.

Lemma int_digits l n :
  forallb is_digit l = true -> 1 <= len l -> digits_val 0 l = Some n ->
  int l = Ok n.
Proof.
  intros Hd Hl Hv. unfold int, int_literal. rewrite strip_digits by assumption.
  destruct l as [|c t]; [unfold len in Hl; simpl in Hl; lia|].
  assert (Hc : is_digit c = true) by (simpl in Hd; now apply andb_true_iff in Hd).
  destruct (digit_not_sign c Hc) as [-> ->].
  unfold nat_literal. now rewrite Hc, Hv.
Qed.

Lemma int_str_nat n : 0 <= n -> int (str_nat n) = Ok n.
Proof.
  intros Hn. destruct (str_nat_spec n Hn) as (Hd & Hv & Hl & _).
  now apply int_digits.
Qed.

Lemma str_nonneg n : 0 <= n -> str n = str_nat n.
Proof. intros H. unfold str. destruct (Z.ltb_spec n 0); [lia | reflexivity]. Qed.

Lemma str_digit n : 0 <= n < 10 -> str n = [digit_chr n].
Proof.
  intros H. rewrite str_nonneg by lia. unfold str_nat.
  rewrite digits_of_S. destruct (Z.ltb_spec n 10); [reflexivity | lia].
Qed.

(** A number below [10^k] has at most [k] digits, and one from [10^k] on
    has more than [k]. *)
Lemma len_str_upper n k : 0 <= n < 10 ^ k -> 1 <= k -> len (str n) <= k.
Proof.
  intros Hn Hk. rewrite str_nonneg by lia.
  destruct (str_nat_spec n ltac:(lia)) as (_ & _ & Hl & _ & Hlb).
  destruct (Z.le_gt_cases (len (str_nat n)) k) as [|Hgt]; [assumption|].
  exfalso.
  assert (10 ^ k <= 10 ^ (len (str_nat n) - 1)) by (apply Z.pow_le_mono_r; lia).
  assert (10 ^ 1 <= 10 ^ k) by (apply Z.pow_le_mono_r; lia).
  lia.
Qed.

Lemma len_str_lower n k : 10 ^ k <= n -> 0 <= k -> k < len (str n).
Proof.
  intros Hn Hk.
  assert (0 < 10 ^ k) by (apply Z.pow_pos_nonneg; lia).
  rewrite str_nonneg by lia.
  destruct (str_nat_spec n ltac:(lia)) as (_ & _ & Hl & Hub & _).
  destruct (Z.lt_ge_cases k (len (str_nat n))) as [|Hge]; [assumption|].
  exfalso.
  assert (10 ^ len (str_nat n) <= 10 ^ k) by (apply Z.pow_le_mono_r; lia).
  lia.
Qed.

(** ** Packing and unpacking *)

Lemma length_to_le n x : length (to_le n x) = n.
Proof. revert x. induction n; intros; simpl; [reflexivity | now rewrite IHn]. Qed.

Lemma of_le_to_le n x : of_le (to_le n x) = x mod 256 ^ Z.of_nat n.
Proof.
  revert x. induction n as [|n IH]; intros x.
  - simpl. now rewrite Z.mod_1_r.
  - cbn [to_le of_le]. rewrite ord_chr, IH.
    rewrite Nat2Z.inj_succ, Z.pow_succ_r by lia.
    assert (0 < 256 ^ Z.of_nat n) by (apply Z.pow_pos_nonneg; lia).
    rewrite (Z.rem_mul_r x 256 (256 ^ Z.of_nat n)) by lia.
    rewrite Z.mod_mod by lia. reflexivity.
Qed.

Lemma endian_involutive big l : endian big (endian big l) = l.
Proof. destruct big; simpl; [apply rev_involutive | reflexivity]. Qed.

Lemma length_endian big l : length (endian big l) = length l.
Proof. destruct big; simpl; [apply length_rev | reflexivity]. Qed.

Lemma Ok_inj {A} (a a' : A) : Ok a = Ok a' -> a = a'.
Proof. now intros [=]. Qed.

Lemma to_single_range x y : to_single x = Ok y -> 0 <= y < 2 ^ 32.
Proof.
  unfold to_single. intros H.
  assert (Hm : forall z, 0 <= z mod 2 ^ 32 < 2 ^ 32)
    by (intros; apply Z.mod_pos_bound; reflexivity).
  destruct (sf_of_bits 52 11 x) as [s | s | | s m e].
  - apply Ok_inj in H. rewrite <- H. apply Hm.
  - apply Ok_inj in H. rewrite <- H. apply Hm.
  - apply Ok_inj in H. rewrite <- H. apply Hm.
  - destruct (binary_normalize 24 128 (signed s m) e s);
      [ | discriminate | | ]; apply Ok_inj in H; rewrite <- H; apply Hm.
Qed.

Lemma pack1_length big dt x bx :
  pack1 big dt x = Ok bx -> length bx = size_nat dt.
Proof.
  destruct dt; unfold pack1, size_nat.
  - destruct (to_single x); cbn [bind]; [|discriminate].
    intros H. apply Ok_inj in H. rewrite <- H.
    now rewrite length_endian, length_to_le.
  - intros H. apply Ok_inj in H. rewrite <- H.
    now rewrite length_endian, length_to_le.
Qed.

Lemma len_size_nat dt : Z.of_nat (size_nat dt) = calcsize dt.
Proof. now destruct dt. Qed.

Lemma unpack1_pack1 big dt x bx :
  is_float x -> pack1 big dt x = Ok bx -> stored dt x (unpack1 big dt bx).
Proof.
  intros Hx. destruct dt; unfold pack1, unpack1, stored.
  - unfold single_round.
    destruct (to_single x) as [y|] eqn:E; cbn [bind]; [|discriminate].
    intros H. apply Ok_inj in H. rewrite <- H.
    rewrite endian_involutive, of_le_to_le.
    apply to_single_range in E.
    now rewrite Z.mod_small by (change (256 ^ Z.of_nat 4) with (2 ^ 32); lia).
  - intros H. apply Ok_inj in H. rewrite <- H.
    rewrite endian_involutive, of_le_to_le.
    apply Z.mod_small. exact Hx.
Qed.

Lemma pack_all_length big dt v p :
  pack_all big dt v = Ok p -> len p = len v * calcsize dt.
Proof.
  revert p. induction v as [|x v IH]; intros p; cbn [pack_all].
  - intros H. apply Ok_inj in H. rewrite <- H. reflexivity.
  - destruct (pack1 big dt x) as [bx|] eqn:E1; cbn [bind]; [|discriminate].
    destruct (pack_all big dt v) as [bt|] eqn:E2; cbn [bind]; [|discriminate].
    intros H. apply Ok_inj in H. rewrite <- H.
    rewrite len_app, len_cons, (IH bt eq_refl).
    apply pack1_length in E1. unfold len at 1. rewrite E1, len_size_nat. lia.
Qed.

Lemma pack_all_unpack big dt v p tail :
  Forall is_float v -> pack_all big dt v = Ok p ->
  Forall2 (stored dt) v
    (map (unpack1 big dt) (chunks (length v) (size_nat dt) (p ++ tail))).
Proof.
  intros Hv. revert p.
  induction Hv as [|x v Hx Hv IH]; intros p; cbn [pack_all].
  - intros _. constructor.
  - destruct (pack1 big dt x) as [bx|] eqn:E1; cbn [bind]; [|discriminate].
    destruct (pack_all big dt v) as [bt|] eqn:E2; cbn [bind]; [|discriminate].
    intros H. apply Ok_inj in H. rewrite <- H.
    pose proof (pack1_length _ _ _ _ E1) as Hl.
    rewrite <- app_assoc. cbn [length chunks map].
    rewrite firstn_app, <- Hl, firstn_all, Nat.sub_diag, firstn_O, app_nil_r.
    rewrite skipn_app, skipn_all, Nat.sub_diag, skipn_O. cbn [app].
    constructor.
    + now apply unpack1_pack1.
    + rewrite Hl. now apply IH.
Qed.

Lemma length_chunks n sz l : length (chunks n sz l) = n.
Proof. revert l. induction n; intros; simpl; [reflexivity | now rewrite IHn]. Qed.

(** The elements read depend only on the bytes they cover. *)
Lemma chunks_app n sz l tail :
  (n * sz <= length l)%nat -> chunks n sz (l ++ tail) = chunks n sz l.
Proof.
  revert l. induction n as [|n IH]; intros l H; simpl; [reflexivity|].
  rewrite firstn_app, skipn_app.
  replace (sz - length l)%nat with 0%nat by lia.
  rewrite firstn_O, skipn_O, app_nil_r. f_equal.
  apply IH. rewrite length_skipn. simpl in H. lia.
Qed.

(** ** Finding the marker *)

Lemma find_range c l : find c l = -1 \/ 0 <= find c l.
Proof.
  induction l as [|x l IH]; simpl; [now left|].
  destruct (Byte.eqb x c); [right; lia|].
  destruct (Z.ltb_spec (find c l) 0); [now left | right; lia].
Qed.

Lemma find_absent c l : ~ In c l -> find c l = -1.
Proof.
  induction l as [|x l IH]; simpl; intros H; [reflexivity|].
  destruct (Byte.eqb x c) eqn:E.
  - apply byte_eqb_eq in E. tauto.
  - rewrite IH by tauto. reflexivity.
Qed.

Lemma find_first c pre post : ~ In c pre -> find c (pre ++ c :: post) = len pre.
Proof.
  induction pre as [|x pre IH]; simpl; intros H.
  - assert (E : Byte.eqb c c = true) by now apply byte_eqb_eq.
    now rewrite E.
  - destruct (Byte.eqb x c) eqn:E.
    + apply byte_eqb_eq in E. tauto.
    + rewrite IH by tauto. pose proof (len_nonneg pre).
      destruct (Z.ltb_spec (len pre) 0); [lia|]. rewrite len_cons. lia.
Qed.

(** Either the byte does not occur, or the list splits at its first
    occurrence. *)
Lemma find_split (c : byte) (l : bytes) :
  ~ In c l \/ exists pre post, l = pre ++ c :: post /\ ~ In c pre.
Proof.
  induction l as [|x l IH]; [left; tauto|].
  destruct (Byte.byte_eq_dec x c) as [-> | Hne].
  - right. exists [], l. split; [reflexivity | tauto].
  - destruct IH as [IH | (pre & post & -> & Hpre)].
    + left. simpl. intuition congruence.
    + right. exists (x :: pre), post. split; [reflexivity|].
      simpl. intuition congruence.
Qed.

Lemma int_single c :
  int [c] = if is_digit c then Ok (digit_val c) else Raise ValueError_int.
Proof.
  destruct (is_digit c) eqn:Hd.
  - apply int_digits.
    + cbn [forallb]. now rewrite Hd.
    + reflexivity.
    + cbn [digits_val]. rewrite Hd. f_equal.
  - unfold int, int_literal, strip. cbn [lstrip].
    destruct (is_space c) eqn:Hs; cbn [rev app lstrip].
    + reflexivity.
    + rewrite Hs. cbn [rev app].
      destruct (Byte.eqb c "-"); [reflexivity|].
      destruct (Byte.eqb c "+"); [reflexivity|].
      unfold nat_literal. cbn [digits_val]. now rewrite Hd.
Qed.

Lemma int_nil : int [] = Raise ValueError_int.
Proof. reflexivity. Qed.

Lemma unpack_from_shift big count dt pre l k :
  0 <= k ->
  unpack_from big count dt (pre ++ l) (len pre + k)
  = unpack_from big count dt l k.
Proof.
  intros Hk. unfold unpack_from.
  rewrite skipn_app_len by assumption. rewrite len_app.
  replace (len pre + len l - (len pre + k)) with (len l - k) by lia.
  reflexivity.
Qed.

Lemma find_head c rest : find c (c :: rest) = 0.
Proof.
  simpl. assert (E : Byte.eqb c c = true) by now apply byte_eqb_eq.
  now rewrite E.
Qed.

(** Bytes before the first marker do not matter to the primary decode. *)
Lemma from_ieee_block_shift pre rest dt e :
  ~ In "#"%byte pre ->
  from_ieee_block (pre ++ "#"%byte :: rest) dt e
  = from_ieee_block ("#"%byte :: rest) dt e.
Proof.
  intros Hpre. unfold from_ieee_block.
  rewrite (find_first _ pre rest Hpre), find_head.
  pose proof (len_nonneg pre) as Hp.
  destruct (Z.ltb_spec (len pre) 0); [lia|].
  change (0 <? 0) with false. cbv iota. change (0 + 1) with 1.
  change (0 + 2) with 2.
  set (block := "#"%byte :: rest).
  rewrite !(slice_app_shift pre block) by lia.
  destruct (try_except (int (slice block 1 2)) is_ValueError (Ok 0))
    as [hl|] eqn:Eh; [|reflexivity].
  cbn [bind].
  destruct (Z.ltb_spec 0 hl).
  - replace (len pre + 2 + hl) with (len pre + (2 + hl)) by lia.
    rewrite (slice_app_shift pre block) by lia.
    destruct (int (slice block 2 (2 + hl))); [|reflexivity].
    cbn [bind]. rewrite unpack_from_shift by lia. reflexivity.
  - cbn [bind]. rewrite unpack_from_shift by lia.
    rewrite len_app.
    replace (len pre + len block - (len pre + 2) - 1) with (len block - 2 - 1) by lia.
    reflexivity.
Qed.

Lemma slice_1_2 {A} (x c : A) body : slice (x :: c :: body) 1 2 = [c].
Proof. rewrite slice_nonneg by lia. reflexivity. Qed.

Lemma slice_2_to {A} (x c : A) body L :
  0 <= L -> slice (x :: c :: body) 2 (2 + L) = firstn (Z.to_nat L) body.
Proof.
  intros H. rewrite slice_nonneg by lia.
  replace (2 + L - 2) with L by lia. reflexivity.
Qed.

Lemma unpack_from_2 big count dt (x c : byte) body k :
  0 <= k ->
  unpack_from big count dt (x :: c :: body) (2 + k)
  = unpack_from big count dt body k.
Proof.
  intros Hk.
  change (x :: c :: body) with ([x; c] ++ body).
  change 2 with (len [x; c]). now apply unpack_from_shift.
Qed.

(** The primary decode of a block whose header digit is [0] or is not a
    digit: the elements that fit before the last byte. *)
Lemma from_ieee_block_indefinite c body dt e :
  is_digit c = false \/ c = "0"%byte ->
  from_ieee_block ("#"%byte :: c :: body) dt e
  = Ok (unpack_all e (Z.quot (len body - 1) (calcsize dt)) dt body).
Proof.
  intros Hc. unfold from_ieee_block. rewrite find_head.
  cbn [Z.ltb Z.compare Z.add]. rewrite slice_1_2, int_single.
  assert (Hh : try_except
                 (if is_digit c then Ok (digit_val c) else Raise ValueError_int)
                 is_ValueError (Ok 0) = Ok 0).
  { destruct Hc as [-> | ->]; reflexivity. }
  rewrite Hh. cbn [bind Z.ltb Z.compare Z.add].
  rewrite !len_cons.
  replace (1 + (1 + len body) - 2 - 1) with (len body - 1) by lia.
  set (n := Z.quot (len body - 1) (calcsize dt)).
  change 2 with (2 + 0). rewrite unpack_from_2 by lia.
  pose proof (len_nonneg body) as Hb.
  assert (Hs : 0 < calcsize dt) by (destruct dt; simpl; lia).
  assert (Hn : 0 <= n /\ n * calcsize dt <= len body).
  { subst n. destruct (Z.eq_dec (len body) 0) as [E | E].
    - rewrite E. change (0 - 1) with (-1).
      replace (Z.quot (-1) (calcsize dt)) with 0 by (now destruct dt). lia.
    - split; [apply Z.quot_pos; lia|].
      pose proof (Z.mul_quot_le (len body - 1) (calcsize dt) ltac:(lia) ltac:(lia)).
      lia. }
  unfold unpack_from.
  destruct (Z.ltb_spec n 0); [lia|].
  destruct (Z.ltb_spec (len body - 0) (n * calcsize dt)); [lia|].
  reflexivity.
Qed.

Lemma from_ieee_block_bare dt e :
  from_ieee_block ["#"%byte] dt e = Raise ValueError_malformed.
Proof. destruct dt; reflexivity. Qed.

Lemma from_ieee_block_no_hash block dt e :
  ~ In "#"%byte block -> from_ieee_block block dt e = Raise ValueError_no_hash.
Proof.
  intros H. unfold from_ieee_block. now rewrite find_absent.
Qed.

(** The primary decode of a block whose header digit is [L >= 1]: the
    [L] bytes after it give the number [N] of elements, read from the
    bytes that follow. *)
Lemma from_ieee_block_definite L body dt e :
  1 <= L <= 9 ->
  from_ieee_block ("#"%byte :: digit_chr L :: body) dt e
  = match int (firstn (Z.to_nat L) body) with
    | Raise _ => Raise ValueError_int
    | Ok N =>
        if (0 <=? N) && (N * calcsize dt <=? len body - L)
        then Ok (unpack_all e N dt (skipn (Z.to_nat L) body))
        else Raise ValueError_malformed
    end.
Proof.
  intros HL. unfold from_ieee_block. rewrite find_head.
  change (0 <? 0) with false. cbv iota. change (0 + 1) with 1.
  change (0 + 2) with 2.
  rewrite slice_1_2, int_single.
  rewrite is_digit_chr, digit_val_chr by lia. cbn [try_except bind].
  destruct (Z.ltb_spec 0 L); [|lia].
  rewrite slice_2_to by lia.
  unfold int. destruct (int_literal (firstn (Z.to_nat L) body)) as [N|];
    [|reflexivity].
  cbn [bind]. rewrite unpack_from_2 by lia. unfold unpack_from.
  destruct (Z.ltb_spec N 0); destruct (Z.leb_spec 0 N); try lia;
    cbn [andb try_except is_StructError]; [reflexivity|].
  destruct (Z.ltb_spec (len body - L) (N * calcsize dt));
    destruct (Z.leb_spec (N * calcsize dt) (len body - L)); try lia;
    reflexivity.
Qed.

(** ** Encoding *)

Lemma pack_ok big dt v : pack big (len v) dt v = pack_all big dt v.
Proof. unfold pack. now rewrite Z.eqb_refl. Qed.

(** What [to_ieee_block] returns: the marker, the number of digits of the
    element count, the element count, and the packed elements. *)
Lemma to_ieee_block_inv v dt e blk :
  to_ieee_block v dt e = Ok blk <->
  exists payload,
    pack_all e dt v = Ok payload /\
    blk = "#"%byte :: str (len (str (len v))) ++ str (len v) ++ payload.
Proof.
  unfold to_ieee_block. rewrite pack_ok.
  destruct (pack_all e dt v) as [p|err]; cbn [bind]; split.
  - intros H. apply Ok_inj in H. now exists p.
  - intros (p' & Hp & ->). apply Ok_inj in Hp. now rewrite Hp.
  - discriminate.
  - intros (p' & Hp & _). discriminate.
Qed.

(** C3, as stated, fails: three singles are packed in 12 bytes, a count
    of two digits, but the header spells the element count 3 in one. *)
Lemma C3_counterexample :
  exists blk payload,
    to_ieee_block [0; 0; 0] fmt_f false = Ok blk /\
    pack false (len [0; 0; 0]) fmt_f [0; 0; 0] = Ok payload /\
    len blk = 15 /\
    1 + 1 + len (str (len payload)) + len payload = 16.
Proof.
  eexists. eexists. repeat split; vm_compute; reflexivity.
Qed.

(** C3 (amended).  The block [encode] returns has 1 byte for the marker,
    the digits of the number of digits of the element count, the digits of
    the element count, and the payload of [element count * element size]
    bytes; below [10^9] elements the second field is one byte. *)
Theorem C3_encode_length v dt e blk :
  to_ieee_block v dt e = Ok blk ->
  exists payload,
    pack e (len v) dt v = Ok payload /\
    len payload = len v * calcsize dt /\
    len blk = 1 + len (str (len (str (len v)))) + len (str (len v))
              + len payload /\
    (len v < 10 ^ 9 ->
     len blk = 1 + 1 + len (str (len v)) + len payload).
Proof.
  intros H. apply to_ieee_block_inv in H. destruct H as (p & Hp & ->).
  exists p. rewrite pack_ok. split; [assumption|].
  split; [now apply pack_all_length in Hp|].
  rewrite len_cons, !len_app. split; [lia|].
  intros Hlt. pose proof (len_nonneg v) as Hv.
  pose proof (len_str_upper (len v) 9 ltac:(lia) ltac:(lia)) as Hu.
  destruct (str_nat_spec (len v) Hv) as (_ & _ & Hl & _).
  rewrite <- str_nonneg in Hl by lia.
  rewrite (str_digit (len (str (len v)))) by lia.
  change (len [digit_chr (len (str (len v)))]) with 1. lia.
Qed.

Lemma C3_encode_length_witness :
  exists payload,
    pack true (len [0; 0; 0]) fmt_d [0; 0; 0] = Ok payload /\
    len payload = 24 /\
    len ("#"%byte :: b "13" ++ payload) = 27.
Proof.
  destruct (C3_encode_length [0; 0; 0] fmt_d true
              ("#"%byte :: b "13" ++ repeat x00 24) eq_refl)
    as (p & Hp & Hl & Hb & _).
  exists p. split; [exact Hp|]. split; [exact Hl|].
  vm_compute in Hp. injection Hp as <-. reflexivity.
Defined.

Lemma len_repeat {A} (x : A) n : len (repeat x n) = Z.of_nat n.
Proof. unfold len. now rewrite repeat_length. Qed.

(** Packing fails only on a single that overflows. *)
Lemma pack_all_raise e dt v err :
  pack_all e dt v = Raise err -> err = OverflowError /\ dt = fmt_f.
Proof.
  induction v as [|x v IH]; cbn [pack_all]; [discriminate|].
  destruct (pack1 e dt x) as [bx|err1] eqn:E1; cbn [bind].
  - destruct (pack_all e dt v) as [bt|err2]; cbn [bind]; [discriminate|].
    intros [= <-]. now apply IH.
  - intros [= <-]. destruct dt; unfold pack1 in E1; [|discriminate].
    split; [|reflexivity].
    unfold to_single in E1.
    destruct (sf_of_bits 52 11 x) as [s | s | | s m ex];
      cbn [bind] in E1; try discriminate.
    destruct (binary_normalize 24 128 (signed s m) ex s);
      cbn [bind] in E1; try discriminate.
    now injection E1 as <-.
Qed.

Lemma pack_all_d_ok e v : exists p, pack_all e fmt_d v = Ok p.
Proof.
  destruct (pack_all e fmt_d v) as [p|err] eqn:E; [now exists p|].
  apply pack_all_raise in E. destruct E; discriminate.
Qed.

(** A sequence of [10^9] elements is encoded with a two-digit
    header-length field. *)
Lemma encode_billion v dt e p :
  len v = 1000000000 -> pack_all e dt v = Ok p ->
  to_ieee_block v dt e = Ok (b "#101000000000" ++ p).
Proof.
  intros Hl Hp. apply to_ieee_block_inv. exists p. split; [assumption|].
  rewrite Hl. reflexivity.
Qed.

Lemma encode_billion_zeros :
  exists payload,
    to_ieee_block (repeat 0 (Z.to_nat 1000000000)) fmt_d false
    = Ok (b "#101000000000" ++ payload).
Proof.
  destruct (pack_all_d_ok false (repeat 0 (Z.to_nat 1000000000))) as (p & Hp).
  exists p. apply encode_billion; [|assumption].
  rewrite len_repeat. apply Z2Nat.id. discriminate.
Qed.

(** C4, as stated, fails: a sequence of [10^9] doubles is encoded, with
    the header "#10" followed by the count. *)
Lemma C4_counterexample :
  exists payload,
    to_ieee_block (repeat 0 (Z.to_nat 1000000000)) fmt_d false
    = Ok (b "#101000000000" ++ payload).
Proof. exact encode_billion_zeros. Qed.

(** C4 (amended).  [encode] has no size check: it returns a block
    whenever every element can be packed, whatever the length, and fails
    only with the OverflowError of a single that is too large; from
    [10^9] elements on the header-length field takes two digits or more. *)
Theorem C4_encode_no_size_check v dt e :
  match pack_all e dt v with
  | Ok payload =>
      to_ieee_block v dt e
      = Ok ("#"%byte :: str (len (str (len v))) ++ str (len v) ++ payload)
      /\ (10 ^ 9 <= len v -> 2 <= len (str (len (str (len v)))))
  | Raise err =>
      to_ieee_block v dt e = Raise err /\ err = OverflowError /\ dt = fmt_f
  end.
Proof.
  destruct (pack_all e dt v) as [p|err] eqn:E.
  - split.
    + apply to_ieee_block_inv. now exists p.
    + intros Hn.
      pose proof (len_str_lower (len v) 9 Hn ltac:(lia)) as H1.
      pose proof (len_str_lower (len (str (len v))) 1 ltac:(lia) ltac:(lia)).
      lia.
  - split; [|now apply pack_all_raise in E].
    unfold to_ieee_block. rewrite pack_ok, E. reflexivity.
Qed.

Lemma C4_encode_no_size_check_witness :
  to_ieee_block [0] fmt_d true = Ok (b "#11" ++ repeat x00 8) /\
  to_ieee_block [0x7FE0000000000000] fmt_f true = Raise OverflowError.
Proof.
  split.
  - pose proof (C4_encode_no_size_check [0] fmt_d true) as H.
    cbn [pack_all pack1 bind] in H. destruct H as [H _]. rewrite H.
    vm_compute. reflexivity.
  - pose proof (C4_encode_no_size_check [0x7FE0000000000000] fmt_f true) as H.
    destruct (pack_all true fmt_f [0x7FE0000000000000]) as [p|err] eqn:E.
    + vm_compute in E. discriminate.
    + destruct H as (H & -> & _). exact H.
Defined.

(** ** The round trip *)

Lemma firstn_len_app {A} (l1 l2 : list A) :
  firstn (Z.to_nat (len l1)) (l1 ++ l2) = l1.
Proof.
  unfold len. rewrite Nat2Z.id, firstn_app, firstn_all, Nat.sub_diag.
  cbn [firstn]. apply app_nil_r.
Qed.

Lemma skipn_len_app {A} (l1 l2 : list A) :
  skipn (Z.to_nat (len l1)) (l1 ++ l2) = l2.
Proof.
  unfold len. rewrite Nat2Z.id, skipn_app, skipn_all, Nat.sub_diag.
  reflexivity.
Qed.

(** Decoding what [encode] returned for fewer than [10^9] elements gives
    back as many elements, each as its format stores it. *)
Lemma decode_encode v dt e p :
  Forall is_float v -> len v < 10 ^ 9 -> pack_all e dt v = Ok p ->
  exists v',
    from_ieee_block
      ("#"%byte :: str (len (str (len v))) ++ str (len v) ++ p) dt e
    = Ok v' /\ Forall2 (stored dt) v v'.
Proof.
  intros Hf Hlt Hp. pose proof (len_nonneg v) as Hv.
  set (n := len v) in *. set (L := len (str n)).
  assert (HL : 1 <= L <= 9).
  { subst L. split.
    - rewrite str_nonneg by lia. now destruct (str_nat_spec n Hv) as (_ & _ & ? & _).
    - apply len_str_upper; lia. }
  rewrite (str_digit L) by lia. cbn [app].
  rewrite from_ieee_block_definite by assumption.
  subst L. rewrite firstn_len_app, skipn_len_app.
  rewrite str_nonneg, int_str_nat by lia.
  rewrite len_app, (pack_all_length _ _ _ _ Hp). fold n.
  destruct (Z.leb_spec 0 n); [|lia].
  destruct (Z.leb_spec (n * calcsize dt)
              (len (str_nat n) + n * calcsize dt - len (str_nat n))); [|lia].
  cbn [andb]. eexists. split; [reflexivity|].
  unfold unpack_all. subst n. unfold len. rewrite Nat2Z.id.
  rewrite <- (app_nil_r p). now apply pack_all_unpack.
Qed.

(** C1, as stated, fails: [10^9] doubles are encoded with the header
    "#10" and the count; the decoder reads a header length of 1 and a
    count of 0, and returns no element. *)
Lemma C1_counterexample :
  exists blk,
    to_ieee_block (repeat 0 (Z.to_nat 1000000000)) fmt_d false = Ok blk /\
    from_ieee_block blk fmt_d false = Ok [] /\
    repeat 0 (Z.to_nat 1000000000) <> [].
Proof.
  destruct encode_billion_zeros as (p & Hp).
  exists (b "#101000000000" ++ p). split; [assumption|]. split.
  - change (b "#101000000000" ++ p)
      with ("#"%byte :: digit_chr 1 :: "0"%byte :: b "1000000000" ++ p).
    rewrite from_ieee_block_definite by lia.
    change (firstn (Z.to_nat 1) ("0"%byte :: b "1000000000" ++ p))
      with ["0"%byte].
    rewrite int_single. change (is_digit "0") with true. cbv iota.
    change (digit_val "0") with 0.
    rewrite len_cons. pose proof (len_nonneg (b "1000000000" ++ p)).
    destruct (Z.leb_spec (0 * calcsize fmt_d)
                (1 + len (b "1000000000" ++ p) - 1)); [|lia].
    reflexivity.
  - intros E. apply (f_equal (@len Z)) in E.
    rewrite len_repeat, Z2Nat.id in E; discriminate.
Qed.

(** C1 (amended).  For every sequence [v] of fewer than [10^9] values and
    every element format and byte order for which [encode] returns a
    block, decoding the block with the same format and byte order returns
    a sequence of the same length: equal to [v] for doubles, and each
    value rounded to the nearest single for singles. *)
Theorem C1_round_trip v dt e blk :
  Forall is_float v -> len v < 10 ^ 9 ->
  to_ieee_block v dt e = Ok blk ->
  exists v', from_ieee_block blk dt e = Ok v' /\ Forall2 (stored dt) v v'.
Proof.
  intros Hf Hlt H. apply to_ieee_block_inv in H.
  destruct H as (p & Hp & ->). now apply decode_encode.
Qed.

Lemma C1_round_trip_witness :
  exists v',
    from_ieee_block
      (b "#12" ++ [x3f; xc0; x00; x00; xc0; x00; x00; x00]) fmt_f true
    = Ok v' /\
    Forall2 (stored fmt_f) [0x3FF8000000000000; 0xC000000000000000] v'.
Proof.
  apply (C1_round_trip [0x3FF8000000000000; 0xC000000000000000] fmt_f true).
  - repeat constructor; discriminate.
  - reflexivity.
  - vm_compute. reflexivity.
Defined.

(** ** The indefinite-length form *)

Lemma Forall2_stored_d v v' : Forall2 (stored fmt_d) v v' -> v' = v.
Proof. induction 1 as [|x x' v v' Hx _ IH]; [reflexivity|]. cbn in Hx. congruence. Qed.

Lemma chunks_firstn n m sz l :
  chunks n sz l = firstn n (chunks (n + m) sz l).
Proof.
  revert l. induction n as [|n IH]; intros l; [reflexivity|].
  cbn [chunks Nat.add firstn]. f_equal. apply IH.
Qed.

(** Doubles packed one after the other are read back as they were, also
    when other bytes follow. *)
Lemma pack_all_unpack_d e v p tail :
  Forall is_float v -> pack_all e fmt_d v = Ok p ->
  map (unpack1 e fmt_d) (chunks (length v) (size_nat fmt_d) (p ++ tail)) = v.
Proof.
  intros Hf Hp. apply Forall2_stored_d. now apply pack_all_unpack.
Qed.

(** C2, as stated, fails: "#0" followed by one packed double (1.5, least
    significant byte first) and nothing else decodes to no value. *)
Lemma C2_counterexample :
  pack false 1 fmt_d [0x3FF8000000000000]
  = Ok [x00; x00; x00; x00; x00; x00; xf8; x3f] /\
  from_ieee_block (b "#0" ++ [x00; x00; x00; x00; x00; x00; xf8; x3f])
    fmt_d false
  = Ok [].
Proof. split; vm_compute; reflexivity. Qed.

(** C2 (amended).  Decoding "#0" followed by exactly [k] packed doubles
    yields the first [k - 1] of them (none when [k = 0]); with one more
    byte after them it yields all [k].  In the indefinite-length form the
    element count is [(buffer_length - offset - 1) / element_size],
    truncated toward zero, where [offset] is 2. *)
Theorem C2_indefinite_decode v e payload c :
  Forall is_float v -> pack_all e fmt_d v = Ok payload ->
  from_ieee_block (b "#0" ++ payload) fmt_d e = Ok (removelast v) /\
  from_ieee_block (b "#0" ++ payload ++ [c]) fmt_d e = Ok v /\
  forall body dt,
    from_ieee_block (b "#0" ++ body) dt e
    = Ok (unpack_all e (Z.quot (len (b "#0" ++ body) - 2 - 1) (calcsize dt))
            dt body).
Proof.
  intros Hf Hp. pose proof (pack_all_length _ _ _ _ Hp) as Hl.
  change (calcsize fmt_d) with 8 in Hl. pose proof (len_nonneg v) as Hv.
  repeat split.
  - change (b "#0" ++ payload) with ("#"%byte :: "0"%byte :: payload).
    rewrite from_ieee_block_indefinite by now right. f_equal.
    rewrite Hl. change (calcsize fmt_d) with 8. unfold unpack_all.
    destruct v as [|x v']; [reflexivity|].
    rewrite len_cons in *. pose proof (len_nonneg v') as Hv'.
    replace (Z.quot ((1 + len v') * 8 - 1) 8) with (len v').
    2:{ rewrite Z.quot_div_nonneg by lia.
        apply Z.div_unique with (r := 7); lia. }
    unfold len at 1. rewrite Nat2Z.id.
    rewrite (chunks_firstn (length v') 1). rewrite <- firstn_map.
    replace (length v' + 1)%nat with (length (x :: v')) by (cbn [length]; lia).
    rewrite <- (app_nil_r payload), pack_all_unpack_d by assumption.
    rewrite removelast_firstn_len. reflexivity.
  - change (b "#0" ++ payload ++ [c])
      with ("#"%byte :: "0"%byte :: payload ++ [c]).
    rewrite from_ieee_block_indefinite by now right. f_equal.
    rewrite len_app, Hl. change (len [c]) with 1. change (calcsize fmt_d) with 8.
    replace (Z.quot (len v * 8 + 1 - 1) 8) with (len v).
    2:{ rewrite Z.quot_div_nonneg by lia.
        apply Z.div_unique with (r := 0); lia. }
    unfold unpack_all, len. rewrite Nat2Z.id. now apply pack_all_unpack_d.
  - intros body dt.
    change (b "#0" ++ body) with ("#"%byte :: "0"%byte :: body).
    rewrite from_ieee_block_indefinite by now right.
    rewrite !len_cons.
    replace (1 + (1 + len body) - 2 - 1) with (len body - 1) by lia.
    reflexivity.
Qed.

Lemma C2_indefinite_decode_witness :
  from_ieee_block (b "#0" ++ [x40; x00; x00; x00; x00; x00; x00; x00])
    fmt_d true = Ok [] /\
  from_ieee_block (b "#0" ++ [x40; x00; x00; x00; x00; x00; x00; x00] ++ [x0a])
    fmt_d true = Ok [0x4000000000000000].
Proof.
  destruct (C2_indefinite_decode [0x4000000000000000] true
              [x40; x00; x00; x00; x00; x00; x00; x00] x0a) as (H1 & H2 & _).
  - repeat constructor; discriminate.
  - vm_compute. reflexivity.
  - split; [exact H1 | exact H2].
Defined.

(** ** A header digit that is no digit *)

(** C9.  In the primary decode, when the byte after the first "#" is not
    a decimal digit the decode does not fail: the header length is taken
    as 0 and the block is read as an indefinite-length block that starts
    after that byte, exactly as if the byte were "0". *)
Theorem C9_non_digit_header pre c rest dt e :
  ~ In "#"%byte pre -> is_digit c = false ->
  from_ieee_block (pre ++ "#"%byte :: c :: rest) dt e
  = Ok (unpack_all e (Z.quot (len rest - 1) (calcsize dt)) dt rest) /\
  from_ieee_block (pre ++ "#"%byte :: c :: rest) dt e
  = from_ieee_block (pre ++ "#"%byte :: "0"%byte :: rest) dt e.
Proof.
  intros Hpre Hc. rewrite !from_ieee_block_shift by assumption.
  rewrite !from_ieee_block_indefinite by tauto. split; reflexivity.
Qed.

Lemma C9_non_digit_header_witness :
  from_ieee_block (b "ab#x" ++ [x3f; xc0; x00; x00; x0a]) fmt_f true
  = Ok [0x3FF8000000000000].
Proof.
  destruct (C9_non_digit_header (b "ab") "x" [x3f; xc0; x00; x00; x0a]
              fmt_f true) as [H _].
  - cbn. intros [H | [H | []]]; discriminate.
  - reflexivity.
  - exact H.
Defined.

(** ** The legacy decode *)

Lemma decode_ascii_single c :
  decode_ascii [c] = if ord c <? 128 then Ok [c] else Raise UnicodeDecodeError.
Proof. unfold decode_ascii. cbn [forallb]. now rewrite andb_true_r. Qed.

(** Bytes before the first marker do not matter to the legacy decode. *)
Lemma parse_binary_payload_shift pre rest :
  ~ In "#"%byte pre ->
  parse_binary_payload (pre ++ "#"%byte :: rest)
  = parse_binary_payload ("#"%byte :: rest).
Proof.
  intros Hpre. unfold parse_binary_payload.
  rewrite (find_first _ pre rest Hpre), find_head.
  pose proof (len_nonneg pre) as Hp.
  destruct (Z.eqb_spec (len pre) (-1)); [lia|].
  change (0 =? -1) with false. change (0 <? 0) with false. cbv iota.
  destruct (Z.ltb_spec 0 (len pre)) as [Hpos | Hz].
  - rewrite slice_from_nonneg by lia.
    replace (len pre) with (len pre + 0) by lia.
    now rewrite skipn_app_len by lia.
  - assert (E : pre = []) by (destruct pre; [reflexivity | rewrite len_cons in Hz; pose proof (len_nonneg pre); lia]).
    now rewrite E.
Qed.

Lemma slice_2_from {A} (x c : A) body i j :
  0 <= i -> 0 <= j ->
  slice (x :: c :: body) (2 + i) (2 + j) = slice body i j.
Proof.
  intros Hi Hj. change (x :: c :: body) with ([x; c] ++ body).
  change 2 with (len [x; c]). now apply slice_app_shift.
Qed.

(** The legacy payload of a block whose header digit is [L >= 1]. *)
Lemma parse_binary_payload_definite L body :
  1 <= L <= 9 ->
  parse_binary_payload ("#"%byte :: digit_chr L :: body)
  = (N <- int (firstn (Z.to_nat L) body) ;;
     Ok (slice ("#"%byte :: digit_chr L :: body) (2 + L) (2 + L + N), N)).
Proof.
  intros HL. unfold parse_binary_payload. rewrite find_head.
  change (0 =? -1) with false. change (0 <? 0) with false. cbv iota.
  rewrite slice_1_2, decode_ascii_single.
  assert (Hd : is_digit (digit_chr L) = true) by (apply is_digit_chr; lia).
  assert (Ho : (ord (digit_chr L) <? 128) = true).
  { unfold digit_chr. rewrite ord_chr, Z.mod_small by lia. lia. }
  rewrite Ho. cbn [bind isdigit forallb]. rewrite Hd, int_single, Hd.
  rewrite digit_val_chr by lia. cbn [andb bind].
  destruct (Z.ltb_spec 0 L); [|lia].
  now rewrite slice_2_to by lia.
Qed.

Lemma len_slice_definite L N body :
  0 <= L -> 0 <= N ->
  slice ("#"%byte :: digit_chr L :: body) (2 + L) (2 + L + N)
  = firstn (Z.to_nat N) (skipn (Z.to_nat L) body).
Proof.
  intros HL HN. replace (2 + L + N) with (2 + (L + N)) by lia.
  rewrite slice_2_from, slice_nonneg by lia. f_equal. lia.
Qed.

(** The legacy decode of a block whose header digit is [L >= 1]: the [L]
    bytes after it give the number [N] of bytes; the payload is what is
    there of the next [N] bytes, and it must hold exactly [N / size]
    elements. *)
Lemma parse_binary_definite L body e (is_single : bool) :
  1 <= L <= 9 ->
  let dt := if is_single then fmt_f else fmt_d in
  parse_binary ("#"%byte :: digit_chr L :: body) e is_single
  = match int (firstn (Z.to_nat L) body) with
    | Raise _ => Raise ValueError_int
    | Ok N =>
        let data := firstn (Z.to_nat N) (skipn (Z.to_nat L) body) in
        if (0 <=? N) && (len data =? (N / calcsize dt) * calcsize dt)
        then Ok (unpack_all e (N / calcsize dt) dt data)
        else Raise ValueError_malformed
    end.
Proof.
  intros HL dt. unfold parse_binary.
  rewrite parse_binary_payload_definite by assumption.
  unfold int. destruct (int_literal (firstn (Z.to_nat L) body)) as [N|];
    [|reflexivity].
  cbn [bind].
  assert (Hs : 0 < calcsize dt) by (subst dt; destruct is_single; reflexivity).
  assert (Hu :
    (if is_single
     then unpack e (N / 4) fmt_f
            (slice ("#"%byte :: digit_chr L :: body) (2 + L) (2 + L + N))
     else unpack e (N / 8) fmt_d
            (slice ("#"%byte :: digit_chr L :: body) (2 + L) (2 + L + N)))
    = unpack e (N / calcsize dt) dt
        (slice ("#"%byte :: digit_chr L :: body) (2 + L) (2 + L + N)))
    by (subst dt; now destruct is_single).
  rewrite Hu. unfold unpack.
  destruct (Z.leb_spec 0 N) as [HN | HN]; cbn [andb].
  - rewrite len_slice_definite by lia.
    assert (0 <= N / calcsize dt) by (apply Z.div_pos; lia).
    destruct (Z.ltb_spec (N / calcsize dt) 0); [lia|].
    destruct (len (firstn (Z.to_nat N) (skipn (Z.to_nat L) body))
              =? N / calcsize dt * calcsize dt); reflexivity.
  - assert (N / calcsize dt < 0) by (apply Z.div_lt_upper_bound; lia).
    destruct (Z.ltb_spec (N / calcsize dt) 0); [reflexivity | lia].
Qed.

Lemma parse_binary_shift pre rest e is_single :
  ~ In "#"%byte pre ->
  parse_binary (pre ++ "#"%byte :: rest) e is_single
  = parse_binary ("#"%byte :: rest) e is_single.
Proof.
  intros H. unfold parse_binary. now rewrite parse_binary_payload_shift.
Qed.

Lemma parse_binary_no_hash block e is_single :
  ~ In "#"%byte block -> parse_binary block e is_single = Raise ValueError_no_hash.
Proof.
  intros H. unfold parse_binary, parse_binary_payload.
  now rewrite find_absent.
Qed.

(** C5, as stated, fails: in the primary decode the declared length 3 is
    not a multiple of the element size 4, and the block decodes, to three
    singles. *)
Lemma C5_counterexample :
  3 mod calcsize fmt_f <> 0 /\
  from_ieee_block (b "#13" ++ repeat x00 12) fmt_f false = Ok [0; 0; 0].
Proof. split; [discriminate | vm_compute; reflexivity]. Qed.

(** C5 (amended).  Both decoders fail with a ValueError when the buffer
    holds no "#".  For a block whose first "#" is followed by a digit [L]
    from 1 to 9, both fail with a ValueError when the next [L] bytes are
    not an integer literal, and as malformed when the integer [N] read is
    negative; otherwise:
    - the primary decode takes [N] as a number of elements, and fails
      exactly when the buffer is shorter than the header and
      [N * element_size] bytes after it (never because [N] is no multiple
      of the element size);
    - the legacy decode takes [N] as a number of bytes: when [N] is a
      multiple of the element size it fails exactly when fewer than [N]
      bytes follow the header, and when [N] is no multiple of the element
      size and at least [N] bytes follow the header it fails.
    (Nothing is said of the legacy decode when [N] is no multiple of the
    element size and fewer than [N] bytes follow the header.) *)
Theorem C5_definite_decode pre L body dt e (is_single : bool) :
  ~ In "#"%byte pre -> 1 <= L <= 9 ->
  let block := pre ++ "#"%byte :: digit_chr L :: body in
  let ldt := legacy_datatype is_single in
  (forall blk, ~ In "#"%byte blk ->
     from_ieee_block blk dt e = Raise ValueError_no_hash /\
     parse_binary blk e is_single = Raise ValueError_no_hash) /\
  match int (firstn (Z.to_nat L) body) with
  | Raise _ =>
      from_ieee_block block dt e = Raise ValueError_int /\
      parse_binary block e is_single = Raise ValueError_int
  | Ok N =>
      from_ieee_block block dt e
      = (if (0 <=? N) && (N * calcsize dt <=? len body - L)
         then Ok (unpack_all e N dt (skipn (Z.to_nat L) body))
         else Raise ValueError_malformed) /\
      (N < 0 ->
       parse_binary block e is_single = Raise ValueError_malformed) /\
      (0 <= N -> N mod calcsize ldt = 0 \/ N <= Z.max 0 (len body - L) ->
       parse_binary block e is_single
       = (if (N mod calcsize ldt =? 0) && (N <=? Z.max 0 (len body - L))
          then Ok (unpack_all e (N / calcsize ldt) ldt
                     (firstn (Z.to_nat N) (skipn (Z.to_nat L) body)))
          else Raise ValueError_malformed))
  end.
Proof.
  intros Hpre HL block ldt. split.
  - intros blk Hb. split;
      [now apply from_ieee_block_no_hash | now apply parse_binary_no_hash].
  - subst block.
    rewrite from_ieee_block_shift, parse_binary_shift by assumption.
    rewrite from_ieee_block_definite, parse_binary_definite by assumption.
    fold (legacy_datatype is_single). fold ldt.
    destruct (int (firstn (Z.to_nat L) body)) as [N|]; [|split; reflexivity].
    split; [reflexivity|]. cbv zeta.
    assert (Hs : 0 < calcsize ldt) by (subst ldt; destruct is_single; reflexivity).
    split.
    + intros HN. destruct (Z.leb_spec 0 N); [lia | reflexivity].
    + intros HN Hcase. destruct (Z.leb_spec 0 N); [|lia]. cbn [andb].
      rewrite len_firstn, len_skipn, !Z2Nat.id by lia.
      pose proof (Z.div_mod N (calcsize ldt) ltac:(lia)) as Hdm.
      pose proof (Z.mod_pos_bound N (calcsize ldt) Hs) as Hmb.
      rewrite (Z.mul_comm (N / calcsize ldt)).
      destruct (Z.eqb_spec (N mod calcsize ldt) 0) as [Hm | Hm];
        destruct (Z.leb_spec N (Z.max 0 (len body - L))) as [Hr | Hr];
        cbn [andb];
        destruct (Z.eqb_spec (Z.min N (Z.max 0 (len body - L)))
                    (calcsize ldt * (N / calcsize ldt)));
        try reflexivity; lia.
Qed.

Lemma C5_definite_decode_witness :
  from_ieee_block (b "x#14" ++ repeat x00 4) fmt_f true
  = Raise ValueError_malformed /\
  parse_binary (b "x#14" ++ repeat x00 4) true true = Ok [0] /\
  parse_binary (b "x#18" ++ repeat x00 4) true false
  = Raise ValueError_malformed /\
  parse_binary (b "x#13" ++ repeat x00 4) true true
  = Raise ValueError_malformed /\
  from_ieee_block (b "x#31_0" ++ repeat x00 40) fmt_f true
  = Ok (repeat 0 10).
Proof.
  assert (Hx : ~ In "#"%byte (b "x")) by (cbn; intros [H | []]; discriminate).
  pose proof (C5_definite_decode (b "x") 1 (b "4" ++ repeat x00 4)
                fmt_f true true Hx ltac:(lia)) as H1.
  pose proof (C5_definite_decode (b "x") 1 (b "8" ++ repeat x00 4)
                fmt_f true false Hx ltac:(lia)) as H2.
  pose proof (C5_definite_decode (b "x") 1 (b "3" ++ repeat x00 4)
                fmt_f true true Hx ltac:(lia)) as H3.
  pose proof (C5_definite_decode (b "x") 3 (b "1_0" ++ repeat x00 40)
                fmt_f true true Hx ltac:(lia)) as H4.
  destruct H1 as [_ H1]. destruct H2 as [_ H2]. destruct H3 as [_ H3].
  destruct H4 as [_ H4].
  change (int (firstn (Z.to_nat 1) (b "4" ++ repeat x00 4))) with (Ok 4) in H1.
  change (int (firstn (Z.to_nat 1) (b "8" ++ repeat x00 4))) with (Ok 8) in H2.
  change (int (firstn (Z.to_nat 1) (b "3" ++ repeat x00 4))) with (Ok 3) in H3.
  change (int (firstn (Z.to_nat 3) (b "1_0" ++ repeat x00 40)))
    with (Ok 10) in H4.
  cbv iota beta in H1, H2, H3, H4.
  destruct H1 as (H1a & _ & H1b). destruct H2 as (_ & _ & H2).
  destruct H3 as (_ & _ & H3). destruct H4 as (H4 & _).
  specialize (H1b ltac:(lia) (or_introl eq_refl)).
  specialize (H2 ltac:(lia) (or_introl eq_refl)).
  assert (H3r : 3 <= Z.max 0 (len (b "3" ++ repeat x00 4) - 1))
    by (vm_compute; discriminate).
  specialize (H3 ltac:(lia) (or_intror H3r)).
  split; [etransitivity; [exact H1a | vm_compute; reflexivity]|].
  split; [etransitivity; [exact H1b | vm_compute; reflexivity]|].
  split; [etransitivity; [exact H2 | vm_compute; reflexivity]|].
  split; [etransitivity; [exact H3 | vm_compute; reflexivity]|].
  etransitivity; [exact H4 | vm_compute; reflexivity].
Defined.

(** The test [data_1.isdigit() and int(data_1) > 0] on one character. *)
Lemma header_digit_test c :
  isdigit [c] && match int [c] with Ok n => 0 <? n | Raise _ => false end
  = is_digit c && (0 <? digit_val c).
Proof.
  cbn [isdigit forallb]. rewrite int_single, andb_true_r.
  now destruct (is_digit c).
Qed.

(** The legacy payload of a block whose header byte [c] is no positive
    digit and whose data ends with the byte [x]. *)
Lemma parse_binary_payload_indefinite c body x :
  ord c < 128 -> is_digit c && (0 <? digit_val c) = false ->
  parse_binary_payload ("#"%byte :: c :: body ++ [x])
  = if ord x <? 128 then
      if Byte.eqb x x0a then Ok (body, len body)
      else Ok (body ++ [x], len (body ++ [x]))
    else Raise UnicodeDecodeError.
Proof.
  intros Hc Hd. unfold parse_binary_payload. rewrite find_head.
  change (0 =? -1) with false. change (0 <? 0) with false. cbv iota.
  rewrite slice_1_2, decode_ascii_single.
  destruct (Z.ltb_spec (ord c) 128); [|lia]. cbn [bind].
  rewrite header_digit_test, Hd.
  rewrite (slice_from_nonneg _ 2) by lia.
  change (skipn (Z.to_nat 2) ("#"%byte :: c :: body ++ [x]))
    with (body ++ [x]).
  rewrite slice_from_last, decode_ascii_single.
  destruct (ord x <? 128); [|reflexivity]. cbn [bind].
  destruct (list_eq_dec Byte.byte_eq_dec [x] [x0a]) as [E | E].
  - injection E as ->. rewrite slice_to_last. reflexivity.
  - destruct (Byte.eqb x x0a) eqn:Ex; [|reflexivity].
    apply byte_eqb_eq in Ex. congruence.
Qed.

Lemma parse_binary_payload_empty c :
  ord c < 128 -> is_digit c && (0 <? digit_val c) = false ->
  parse_binary_payload ["#"%byte; c] = Ok ([], 0).
Proof.
  intros Hc Hd. unfold parse_binary_payload. rewrite find_head.
  change (0 =? -1) with false. change (0 <? 0) with false. cbv iota.
  rewrite slice_1_2, decode_ascii_single.
  destruct (Z.ltb_spec (ord c) 128); [|lia]. cbn [bind].
  rewrite header_digit_test, Hd. reflexivity.
Qed.

(** The unpacking step of [parse_binary] on a payload. *)
Lemma parse_binary_unpack e (is_single : bool) data :
  let dt := legacy_datatype is_single in
  try_except
    (if is_single then unpack e (len data / 4) fmt_f data
     else unpack e (len data / 8) fmt_d data)
    is_StructError (Raise ValueError_malformed)
  = if len data mod calcsize dt =? 0
    then Ok (unpack_all e (len data / calcsize dt) dt data)
    else Raise ValueError_malformed.
Proof.
  intros dt.
  assert (Hs : 0 < calcsize dt) by (subst dt; destruct is_single; reflexivity).
  assert (Hu :
    (if is_single then unpack e (len data / 4) fmt_f data
     else unpack e (len data / 8) fmt_d data)
    = unpack e (len data / calcsize dt) dt data)
    by (subst dt; now destruct is_single).
  rewrite Hu. unfold unpack. pose proof (len_nonneg data) as Hd.
  pose proof (Z.div_pos (len data) (calcsize dt) Hd Hs).
  destruct (Z.ltb_spec (len data / calcsize dt) 0); [lia|].
  pose proof (Z.div_mod (len data) (calcsize dt) ltac:(lia)) as Hdm.
  destruct (Z.eqb_spec (len data) (len data / calcsize dt * calcsize dt));
    destruct (Z.eqb_spec (len data mod calcsize dt) 0);
    try reflexivity; lia.
Qed.

(** The legacy decode of a block whose header byte [c] is no positive
    digit and whose data ends with the byte [x]. *)
Lemma parse_binary_indefinite c body x e (is_single : bool) :
  ord c < 128 -> is_digit c && (0 <? digit_val c) = false ->
  let dt := legacy_datatype is_single in
  parse_binary ("#"%byte :: c :: body ++ [x]) e is_single
  = if ord x <? 128 then
      let data := if Byte.eqb x x0a then body else body ++ [x] in
      if len data mod calcsize dt =? 0
      then Ok (unpack_all e (len data / calcsize dt) dt data)
      else Raise ValueError_malformed
    else Raise UnicodeDecodeError.
Proof.
  intros Hc Hd dt. unfold parse_binary.
  rewrite parse_binary_payload_indefinite by assumption.
  destruct (ord x <? 128); [|reflexivity].
  destruct (Byte.eqb x x0a); cbn [bind]; apply parse_binary_unpack.
Qed.



(** ** The header prober *)

Lemma slice_slice {A} (l : list A) a b' i j :
  0 <= a -> 0 <= i -> 0 <= j -> a + j <= b' ->
  slice (slice l a b') i j = slice l (a + i) (a + j).
Proof.
  intros Ha Hi Hj Hb. rewrite !slice_nonneg by lia.
  rewrite skipn_firstn_comm, firstn_firstn, skipn_skipn.
  replace (Z.to_nat i + Z.to_nat a)%nat with (Z.to_nat (a + i)) by lia.
  f_equal. lia.
Qed.

Lemma len_slice {A} (l : list A) i j :
  0 <= i -> i <= j -> j <= len l -> len (slice l i j) = j - i.
Proof.
  intros Hi Hij Hj. rewrite slice_nonneg by lia.
  rewrite len_firstn, len_skipn. lia.
Qed.

Lemma bytes_eqb_eq x y : bytes_eqb x y = true <-> x = y.
Proof.
  unfold bytes_eqb. destruct (list_eq_dec Byte.byte_eq_dec x y);
    split; intros; congruence.
Qed.

Lemma bytes_eqb_neq x y : bytes_eqb x y = false <-> x <> y.
Proof.
  unfold bytes_eqb. destruct (list_eq_dec Byte.byte_eq_dec x y);
    split; intros; congruence.
Qed.

Lemma machine_types_arch machine :
  (let machine_type := get machine_types machine (b "UNKNOWN") in
   if bytes_eqb machine_type (b "I386") then [32]
   else if bytes_eqb machine_type (b "IA64")
           || bytes_eqb machine_type (b "AMD64") then [64]
   else [])
  = arch_of_machine machine.
Proof.
  unfold arch_of_machine, machine_types, get.
  repeat match goal with
  | |- context [?k =? machine] =>
      destruct (Z.eqb_spec k machine) as [<- | ?]; [reflexivity|]
  end.
  repeat match goal with
  | |- context [machine =? ?k] =>
      destruct (Z.eqb_spec machine k); [congruence|]
  end.
  reflexivity.
Qed.

(** The prober on a file that holds the 64 bytes of the first header,
    where a [long] has 4 bytes. *)
Lemma pe_machine_type_spec n data :
  long n = long4 -> 64 <= len data ->
  let offset := signed32 (of_native n (slice data 60 64)) in
  pe_machine_type n {| content := data; pos := 0 |}
  = if negb (bytes_eqb (slice data 0 2) (b "MZ"))
    then Raise Exception_not_executable
    else if offset <? 0 then Raise OSError_seek
    else
      let pe_header := slice data offset (offset + 6) in
      if len pe_header =? 6 then
        if negb (bytes_eqb (slice pe_header 0 2) (b "PE"))
        then Raise Exception_not_PE
        else Ok (get machine_types (of_native n (slice pe_header 4 6))
                   (b "UNKNOWN"))
      else Raise StructError.
Proof.
  intros Hn Hl offset. unfold pe_machine_type, read. cbn [content pos].
  unfold unpack_2s58sl. rewrite Hn. cbn [sizeof_long].
  change (60 + (- 60) mod 4) with 60. change (60 + 4) with 64.
  change (0 + 64) with 64.
  rewrite (len_slice data 0 64) by lia. change (64 - 0 =? 64) with true.
  cbv iota. cbn [bind].
  rewrite !(slice_slice data 0 64) by lia.
  change (0 + 0) with 0. change (0 + 2) with 2. change (0 + 60) with 60.
  change (0 + 64) with 64. fold offset.
  destruct (negb (bytes_eqb (slice data 0 2) (b "MZ"))); [reflexivity|].
  unfold seek. destruct (offset <? 0); [reflexivity|]. cbn [bind content pos].
  unfold unpack_2s2sH.
  destruct (len (slice data offset (offset + 6)) =? 6); reflexivity.
Qed.

(** The first header is never unpacked where a [long] has 8 bytes: the
    format then has 72 bytes and at most 64 are read. *)
Lemma pe_machine_type_long8 n data :
  long n = long8 ->
  pe_machine_type n {| content := data; pos := 0 |} = Raise StructError.
Proof.
  intros Hn. unfold pe_machine_type, read. cbn [content pos].
  unfold unpack_2s58sl. rewrite Hn. cbn [sizeof_long].
  change (60 + (- 60) mod 8 + 8) with 72. change (0 + 64) with 64.
  assert (Hs : len (slice data 0 64) <> 72).
  { unfold slice, clip. change (0 <? 0) with false. change (64 <? 0) with false.
    cbv iota. rewrite len_firstn, len_skipn. change (Z.to_nat 0) with 0%nat.
    pose proof (len_nonneg data). unfold len in *. lia. }
  destruct (Z.eqb_spec (len (slice data 0 64)) 72); [contradiction|].
  reflexivity.
Qed.

(** C6, as stated, fails: a file of two bytes that are not "MZ" is
    rejected by the unpacking of the 64-byte header with [struct.error],
    before the magic is looked at; and where a C [long] has 8 bytes a
    file with both magics is rejected in the same way. *)
Lemma C6_counterexample :
  let w := {| platform := b "win32";
              native_mode := {| long := long4; byteorder_big := false |};
              io_open := fun _ => Ok (b "AB");
              check_output_file := fun _ => Raise CalledProcessError |} in
  let w8 := {| platform := b "linux";
               native_mode := {| long := long8; byteorder_big := false |};
               io_open := fun _ =>
                 Ok (b "MZ" ++ repeat x00 58 ++ [x40; x00; x00; x00]
                     ++ b "PE" ++ [x00; x00; x64; x86]);
               check_output_file := fun _ => Raise CalledProcessError |} in
  slice (b "AB") 0 2 <> b "MZ" /\
  get_shared_library_arch w (b "visa32.dll") = Raise StructError /\
  get_arch w (b "visa32.dll") = Raise StructError /\
  get_shared_library_arch w8 (b "visa64.dll") = Raise StructError.
Proof.
  intros w w8. split; [discriminate|]. repeat split; vm_compute; reflexivity.
Qed.

(** C6 (amended).  Where a C [long] has 4 bytes (as on Windows), for a
    file of at least 64 bytes: if its first two bytes are not "MZ" the
    probe fails with 'Not an executable'; if they are, and the 6 bytes at
    the offset stored in bytes 60..63 (a native signed [long], not
    negative) are in the file, the probe fails with 'Not a PE executable'
    unless they begin with "PE", and otherwise looks the 16-bit code
    after them up in the table (default "UNKNOWN"); on a Windows platform
    [get_arch] then gives (32,) for I386, (64,) for IA64 and AMD64, and ()
    for every other code. *)
Theorem C6_probe w filename data :
  long (native_mode w) = long4 ->
  io_open w filename = Ok data -> 64 <= len data ->
  let offset := signed32 (of_native (native_mode w) (slice data 60 64)) in
  let machine :=
    of_native (native_mode w) (slice data (offset + 4) (offset + 6)) in
  (slice data 0 2 <> b "MZ" ->
   get_shared_library_arch w filename = Raise Exception_not_executable) /\
  (slice data 0 2 = b "MZ" -> 0 <= offset -> offset + 6 <= len data ->
   (slice data offset (offset + 2) <> b "PE" ->
    get_shared_library_arch w filename = Raise Exception_not_PE) /\
   (slice data offset (offset + 2) = b "PE" ->
    get_shared_library_arch w filename
    = Ok (get machine_types machine (b "UNKNOWN")) /\
    (startswith (platform w) (b "win") = true ->
     get_arch w filename = Ok (arch_of_machine machine)))).
Proof.
  intros Hn Ho Hl offset machine.
  unfold get_arch, get_shared_library_arch. rewrite Ho. cbn [bind].
  rewrite pe_machine_type_spec by assumption. fold offset. split.
  - intros Hm. apply bytes_eqb_neq in Hm. now rewrite Hm.
  - intros Hm Hoff Hend. apply bytes_eqb_eq in Hm. rewrite Hm. cbn [negb].
    destruct (Z.ltb_spec offset 0); [lia|]. cbv zeta.
    rewrite (len_slice data offset (offset + 6)) by lia.
    replace (offset + 6 - offset =? 6) with true by (symmetry; lia).
    rewrite !(slice_slice data offset (offset + 6)) by lia.
    replace (offset + 0) with offset by lia. fold machine. split.
    + intros Hpe. apply bytes_eqb_neq in Hpe. now rewrite Hpe.
    + intros Hpe. apply bytes_eqb_eq in Hpe. rewrite Hpe. cbn [negb].
      split; [reflexivity|]. intros ->. cbn [bind].
      pose proof (machine_types_arch machine) as Ha. cbv zeta in Ha.
      rewrite <- Ha.
      destruct (bytes_eqb (get machine_types machine (b "UNKNOWN")) (b "I386"));
        [reflexivity|].
      destruct (bytes_eqb (get machine_types machine (b "UNKNOWN")) (b "IA64")
                || bytes_eqb (get machine_types machine (b "UNKNOWN"))
                     (b "AMD64")); reflexivity.
Qed.

Lemma C6_probe_witness :
  let data := b "MZ" ++ repeat x00 58 ++ [x40; x00; x00; x00]
              ++ b "PE" ++ [x00; x00; x64; x86] in
  let w := {| platform := b "win32";
              native_mode := {| long := long4; byteorder_big := false |};
              io_open := fun _ => Ok data;
              check_output_file := fun _ => Raise CalledProcessError |} in
  get_shared_library_arch w (b "visa64.dll") = Ok (b "AMD64") /\
  get_arch w (b "visa64.dll") = Ok [64].
Proof.
  intros data w.
  pose proof (C6_probe w (b "visa64.dll") data eq_refl eq_refl) as H.
  assert (Hl : 64 <= len data) by (vm_compute; discriminate).
  specialize (H Hl). cbv zeta in H. destruct H as [_ H].
  assert (Hoff :
    0 <= signed32 (of_native (native_mode w) (slice data 60 64)))
    by (vm_compute; discriminate).
  assert (Hend :
    signed32 (of_native (native_mode w) (slice data 60 64)) + 6 <= len data)
    by (vm_compute; discriminate).
  specialize (H eq_refl Hoff Hend). destruct H as [_ H].
  destruct (H eq_refl) as [H1 H2]. split; [exact H1 | exact (H2 eq_refl)].
Defined.

(** ** The cached architecture *)

(** C10.  Reading [arch] never raises.  The value read is then stored on
    the object, and every later read returns that same value and the same
    object without calling [get_arch], whatever the machine has become.
    On the first read the value is what [get_arch] returns, or the empty
    tuple when [get_arch] raises. *)
Theorem C10_arch_cached w self :
  exists a self',
    fst (arch w self) = Ok (a, self') /\
    _arch self' = Some a /\
    path self' = path self /\
    (forall w', arch w' self' = (Ok (a, self'), 0%nat)) /\
    (_arch self = None ->
     (forall err, get_arch w (path self) = Raise err -> a = []) /\
     (forall a0, get_arch w (path self) = Ok a0 -> a = a0)).
Proof.
  unfold arch. destruct (_arch self) as [a|] eqn:E.
  - exists a, self. cbn [fst]. repeat split; try assumption.
    + intros w'. now rewrite E.
    + discriminate.
    + discriminate.
  - destruct (get_arch w (path self)) as [a|err] eqn:G;
      cbn [try_except bind fst].
    + eexists. eexists. repeat split.
      * intros err [=].
      * now intros a0 [= <-].
    + eexists. eexists. repeat split.
      now intros a0 [=].
Qed.

Lemma C10_arch_cached_witness :
  let w := {| platform := b "win32";
              native_mode := {| long := long4; byteorder_big := false |};
              io_open := fun _ => Raise OSError_open;
              check_output_file := fun _ => Raise CalledProcessError |} in
  exists self',
    fst (arch w (new_LibraryPath (b "visa32.dll") (b "auto")))
    = Ok ([], self') /\
    forall w', arch w' self' = (Ok ([], self'), 0%nat).
Proof.
  intros w.
  destruct (C10_arch_cached w (new_LibraryPath (b "visa32.dll") (b "auto")))
    as (a & self' & H1 & _ & _ & H4 & H5).
  destruct (H5 eq_refl) as [H6 _].
  assert (Ha : a = []) by (apply (H6 OSError_open); reflexivity).
  subst a. exists self'. split; [exact H1 | exact H4].
Defined.

(** ** The matcher and the language of a pattern *)

Lemma in_then_ ms k m s2 :
  In (m, s2) (then_ ms k) <->
  exists m1 s1 m2, In (m1, s1) ms /\ In (m2, s2) (k s1) /\ m = m1 ++ m2.
Proof.
  unfold then_. rewrite in_flat_map. split.
  - intros ([m1 s1] & H1 & H2). apply in_map_iff in H2.
    destruct H2 as ([m2 s2'] & [= <- <-] & H2). now exists m1, s1, m2.
  - intros (m1 & s1 & m2 & H1 & H2 & ->). exists (m1, s1). split; [assumption|].
    apply in_map_iff. now exists (m2, s2).
Qed.

Lemma in_match_char p s m rest :
  In (m, rest) (match_char p s) <-> exists c, s = c :: rest /\ m = [c] /\ p c = true.
Proof.
  unfold match_char. destruct s as [|c t].
  - split; [intros [] | intros (c & [=] & _)].
  - destruct (p c) eqn:E.
    + split.
      * intros [[= <- <-] | []]. now exists c.
      * intros (c' & [= <- <-] & -> & _). now left.
    + split; [intros [] | intros (c' & [= <- <-] & _ & H); congruence].
Qed.

Section Star.
Variable r : regex.
Variable one : text -> list (text * text).
Hypothesis one_sound :
  forall s m rest, In (m, rest) (one s) -> s = m ++ rest /\ Matches r m.
Hypothesis one_complete :
  forall m rest, Matches r m -> In (m, rest) (one (m ++ rest)).

Lemma star_sound fuel s m rest :
  In (m, rest) (star one fuel s) -> s = m ++ rest /\ Matches (Star r) m.
Proof.
  revert s m rest. induction fuel as [|f IH]; intros s m rest; cbn [star].
  - intros [[= <- <-] | []]. split; [reflexivity | constructor].
  - rewrite in_app_iff. intros [H | [[= <- <-] | []]].
    + apply in_then_ in H. destruct H as (m1 & s1 & m2 & H1 & H2 & ->).
      apply filter_In in H1. destruct H1 as [H1 Hlt].
      apply one_sound in H1. destruct H1 as [-> Hm1].
      apply IH in H2. destruct H2 as [-> Hm2].
      split; [now rewrite app_assoc|].
      apply M_StarCons; try assumption.
      intros ->. apply Nat.ltb_lt in Hlt. cbn in Hlt. lia.
    + split; [reflexivity | constructor].
Qed.

Lemma star_nil fuel s : In ([], s) (star one fuel s).
Proof.
  destruct fuel; cbn [star]; [now left|].
  apply in_app_iff. right. now left.
Qed.

Lemma star_complete m :
  Matches (Star r) m ->
  forall fuel rest, (length m <= fuel)%nat ->
  In (m, rest) (star one fuel (m ++ rest)).
Proof.
  intros H. remember (Star r) as sr eqn:E. induction H; try discriminate.
  - intros fuel rest _. apply star_nil.
  - injection E as ->. intros fuel rest Hf.
    destruct fuel as [|f].
    { rewrite length_app in Hf. destruct m1; [congruence | cbn in Hf; lia]. }
    cbn [star]. apply in_app_iff. left. apply in_then_.
    exists m1, (m2 ++ rest), m2. rewrite <- app_assoc. repeat split.
    + apply filter_In. split; [now apply one_complete|].
      apply Nat.ltb_lt. rewrite !length_app.
      destruct m1; [congruence | cbn; lia].
    + apply IHMatches2; [reflexivity|].
      rewrite length_app in Hf. destruct m1; [congruence | cbn in Hf; lia].
Qed.

End Star.

(** Every result of the matcher is a prefix in the language. *)
Lemma matches_at_sound r :
  forall s m rest,
    In (m, rest) (matches_at r s) -> s = m ++ rest /\ Matches r m.
Proof.
  induction r as [ | cs | | r1 IH1 r2 IH2 | r1 IH1 r2 IH2 | r1 IH1 | r1 IH1];
    intros s m rest; cbn [matches_at].
  - intros [[= <- <-] | []]. split; [reflexivity | constructor].
  - intros H. apply in_match_char in H. destruct H as (c & -> & -> & Hc).
    split; [reflexivity | now constructor].
  - intros H. apply in_match_char in H. destruct H as (c & -> & -> & Hc).
    split; [reflexivity | now constructor].
  - intros H. apply in_then_ in H. destruct H as (m1 & s1 & m2 & H1 & H2 & ->).
    apply IH1 in H1. destruct H1 as [-> Hm1].
    apply IH2 in H2. destruct H2 as [-> Hm2].
    split; [now rewrite app_assoc | now constructor].
  - rewrite in_app_iff. intros [H | H].
    + apply IH1 in H. destruct H. split; [assumption | now apply M_AltL].
    + apply IH2 in H. destruct H. split; [assumption | now apply M_AltR].
  - rewrite in_app_iff. intros [H | [[= <- <-] | []]].
    + apply IH1 in H. destruct H. split; [assumption | now apply M_OptSome].
    + split; [reflexivity | constructor].
  - apply star_sound. exact IH1.
Qed.

(** Every prefix in the language is among the results of the matcher. *)
Lemma matches_at_complete r :
  forall m, Matches r m -> forall rest, In (m, rest) (matches_at r (m ++ rest)).
Proof.
  induction r as [ | cs | | r1 IH1 r2 IH2 | r1 IH1 r2 IH2 | r1 IH1 | r1 IH1];
    intros m H rest; cbn [matches_at].
  - inversion H; subst. now left.
  - inversion H; subst. apply in_match_char. now exists c.
  - inversion H; subst. apply in_match_char. now exists c.
  - inversion H; subst. apply in_then_.
    exists m1, (m2 ++ rest), m2. rewrite <- app_assoc.
    repeat split; [now apply IH1 | now apply IH2].
  - apply in_app_iff. inversion H; subst; [left; now apply IH1 | right; now apply IH2].
  - apply in_app_iff. inversion H; subst; [right; now left | left; now apply IH1].
  - apply (star_complete r1); [intros; now apply IH1 | assumption |].
    rewrite length_app. lia.
Qed.

Lemma match_sound r s m :
  match_ r s = Some m -> exists rest, s = m ++ rest /\ Matches r m.
Proof.
  unfold match_. destruct (matches_at r s) as [|[m' rest] l] eqn:E; [discriminate|].
  intros [= <-]. exists rest. apply matches_at_sound. rewrite E. now left.
Qed.

Lemma match_none r s :
  match_ r s = None -> forall m rest, s = m ++ rest -> ~ Matches r m.
Proof.
  unfold match_. intros H m rest -> Hm.
  pose proof (matches_at_complete r m Hm rest) as Hin.
  destruct (matches_at r (m ++ rest)) as [|[m' rest'] l]; [destruct Hin | discriminate].
Qed.

(** The search restarts where the last match ended. *)
Lemma scan_skip r pre rest :
  scan r (length pre) (pre ++ rest) = scan r 0 rest.
Proof.
  induction pre as [|c pre IH]; [reflexivity|]. exact IH.
Qed.

(** [findall] gives the tokens of the text, for a pattern that does not
    match the empty text. *)
Lemma findall_tokens r :
  ~ Matches r [] -> forall s, Tokens r s (findall r s).
Proof.
  intros Hne s. unfold findall.
  remember (length s) as n eqn:En. revert s En.
  induction n as [n IH] using lt_wf_ind. intros s En.
  destruct s as [|c t].
  - cbn [scan]. destruct (match_ r []) as [m|] eqn:E; [|constructor].
    apply match_sound in E. destruct E as (rest & E & Hm).
    symmetry in E. apply app_eq_nil in E. destruct E as [-> _]. contradiction.
  - cbn [scan]. destruct (match_ r (c :: t)) as [m|] eqn:E.
    + pose proof (match_sound _ _ _ E) as (rest & Es & Hm).
      destruct m as [|c' m']; [contradiction|].
      injection Es as <- ->.
      replace (length (c :: m') - 1)%nat with (length m')
        by (cbn [length]; lia).
      rewrite scan_skip.
      change (c :: m' ++ rest) with ((c :: m') ++ rest).
      apply tk_tok; [discriminate | assumption | exact E |].
      apply (IH (length rest)); [|reflexivity].
      subst n. cbn [length]. rewrite length_app. lia.
    + apply tk_skip; [now apply match_none|].
      apply (IH (length t)); [|reflexivity]. subst n. cbn [length]. lia.
Qed.

(** ** The tokens of [_ascii_re] are decimal literals *)

Lemma Matches_Digit_inv m :
  Matches Digit m -> exists c, m = [c] /\ is_decimal c = true.
Proof. inversion 1; subst; eauto. Qed.

Lemma Matches_Set_inv cs m :
  Matches (Set_ cs) m -> exists c, m = [c] /\ mem c cs = true.
Proof. inversion 1; subst; eauto. Qed.

Lemma Matches_Seq_inv r1 r2 m :
  Matches (Seq r1 r2) m ->
  exists m1 m2, m = m1 ++ m2 /\ Matches r1 m1 /\ Matches r2 m2.
Proof. inversion 1; subst; eauto. Qed.

Lemma Matches_Alt_inv r1 r2 m :
  Matches (Alt r1 r2) m -> Matches r1 m \/ Matches r2 m.
Proof. inversion 1; subst; eauto. Qed.

Lemma Matches_Opt_inv r m : Matches (Opt r) m -> m = [] \/ Matches r m.
Proof. inversion 1; subst; eauto. Qed.

Lemma star_digit_inv m : Matches (Star Digit) m -> forallb is_decimal m = true.
Proof.
  intros H. remember (Star Digit) as r eqn:E.
  induction H as [ | | | | | | | | | r0 m1 m2 Hne H1 _ H2 IH2];
    try discriminate; [reflexivity|].
  injection E as ->. apply Matches_Digit_inv in H1.
  destruct H1 as (c & -> & Hc).
  cbn [app forallb]. rewrite Hc. now apply IH2.
Qed.

Lemma plus_digit_inv m :
  Matches (Plus Digit) m ->
  exists c ds, m = c :: ds /\ forallb is_decimal (c :: ds) = true.
Proof.
  intros H. apply Matches_Seq_inv in H. destruct H as (m1 & m2 & -> & H1 & H2).
  apply Matches_Digit_inv in H1. destruct H1 as (c & -> & Hc).
  exists c, m2. split; [reflexivity|].
  cbn [forallb]. rewrite Hc. now apply star_digit_inv.
Qed.

Lemma mem2_inv c x y : mem c [x; y] = true -> c = x \/ c = y.
Proof.
  unfold mem. cbn [existsb]. destruct (Z.eqb_spec c x); [now left|].
  destruct (Z.eqb_spec c y); [now right | discriminate].
Qed.

Lemma mem1_inv c x : mem c [x] = true -> c = x.
Proof.
  unfold mem. cbn [existsb]. destruct (Z.eqb_spec c x); [auto | discriminate].
Qed.

Lemma sign_inv m :
  Matches (Opt (Set_ (u "-+"))) m -> m = [] \/ m = u "-" \/ m = u "+".
Proof.
  intros H. apply Matches_Opt_inv in H. destruct H as [-> | H]; [now left|].
  apply Matches_Set_inv in H. destruct H as (c & -> & Hc).
  change (u "-+") with [45; 43] in Hc.
  apply mem2_inv in Hc. right. destruct Hc as [-> | ->]; [now left | now right].
Qed.

Lemma point_inv m : Matches (Set_ (u ".")) m -> m = u ".".
Proof.
  intros H. apply Matches_Set_inv in H. destruct H as (c & -> & Hc).
  change (u ".") with [46] in Hc. apply mem1_inv in Hc. now subst.
Qed.

(** The shape of a token: sign, integer digits, fraction, exponent. *)
Lemma ascii_re_shape m :
  Matches _ascii_re m ->
  exists sg ip fr fp ex,
    m = sg ++ ip ++ fr ++ ex /\
    (sg = [] \/ sg = u "-" \/ sg = u "+") /\
    forallb is_decimal ip = true /\
    forallb is_decimal fp = true /\
    (fr = [] /\ fp = [] \/ fr = u "." ++ fp) /\
    ip ++ fp <> [] /\
    (ex = [] \/
     exists x sg2 c ds,
       ex = x ++ sg2 ++ c :: ds /\
       (x = u "e" \/ x = u "E") /\
       (sg2 = [] \/ sg2 = u "-" \/ sg2 = u "+") /\
       forallb is_decimal (c :: ds) = true).
Proof.
  unfold _ascii_re. intros H.
  apply Matches_Seq_inv in H. destruct H as (sg & rest1 & -> & Hsg & H).
  apply Matches_Seq_inv in H. destruct H as (num & ex & -> & Hnum & Hex).
  apply sign_inv in Hsg.
  assert (Hexs :
    ex = [] \/
    exists x sg2 c ds,
      ex = x ++ sg2 ++ c :: ds /\
      (x = u "e" \/ x = u "E") /\
      (sg2 = [] \/ sg2 = u "-" \/ sg2 = u "+") /\
      forallb is_decimal (c :: ds) = true).
  { apply Matches_Opt_inv in Hex. destruct Hex as [-> | Hex]; [now left|].
    right.
    apply Matches_Seq_inv in Hex. destruct Hex as (xs & rest2 & -> & Hx & H).
    apply Matches_Seq_inv in H. destruct H as (sg2 & dd & -> & Hsg2 & Hdd).
    apply Matches_Set_inv in Hx. destruct Hx as (x & -> & Hx).
    change (u "eE") with [101; 69] in Hx.
    apply mem2_inv in Hx. apply sign_inv in Hsg2.
    apply plus_digit_inv in Hdd. destruct Hdd as (c & ds & -> & Hds).
    exists [x], sg2, c, ds. repeat split; try assumption.
    destruct Hx as [-> | ->]; [now left | now right]. }
  apply Matches_Alt_inv in Hnum. destruct Hnum as [Ha | Hb].
  - (* digits, then an optional point and digits *)
    apply Matches_Seq_inv in Ha. destruct Ha as (ip & fr & -> & Hip & Hfr).
    apply plus_digit_inv in Hip. destruct Hip as (c & ds & -> & Hds).
    apply Matches_Opt_inv in Hfr. destruct Hfr as [-> | Hfr].
    + exists sg, (c :: ds), [], [], ex. rewrite app_nil_r.
      repeat split; try assumption; try reflexivity; [now left | discriminate].
    + apply Matches_Seq_inv in Hfr. destruct Hfr as (pt & fp & -> & Hpt & Hfp).
      apply point_inv in Hpt. subst pt. apply star_digit_inv in Hfp.
      exists sg, (c :: ds), (u "." ++ fp), fp, ex.
      rewrite <- !app_assoc.
      repeat split; try assumption; try reflexivity; [now right | discriminate].
  - (* optional digits, a point, digits *)
    apply Matches_Seq_inv in Hb. destruct Hb as (ip & rest3 & -> & Hip & H).
    apply Matches_Seq_inv in H. destruct H as (pt & fp & -> & Hpt & Hfp).
    apply point_inv in Hpt. subst pt.
    apply star_digit_inv in Hip. apply plus_digit_inv in Hfp.
    destruct Hfp as (c & ds & -> & Hds).
    exists sg, ip, (u "." ++ c :: ds), (c :: ds), ex.
    rewrite <- !app_assoc.
    repeat split; try assumption; try reflexivity; [now right|].
    intros E. apply app_eq_nil in E. destruct E; discriminate.
Qed.

(** *** The literal in ASCII *)

Lemma decimal_in_spec zeros c v :
  decimal_in zeros c = Some v ->
  0 <= v <= 9 /\ exists z, In z zeros /\ c = z + v.
Proof.
  induction zeros as [|z zeros IH]; cbn [decimal_in]; [discriminate|].
  destruct (Z.leb_spec z c) as [Hlo | Hlo]; cbn [andb].
  - destruct (Z.leb_spec c (z + 9)) as [Hhi | Hhi].
    + intros [= <-]. split; [lia|]. exists z. split; [now left | lia].
    + intros H. destruct (IH H) as (Hv & z' & Hz & E).
      split; [assumption|]. exists z'. split; [now right | assumption].
  - intros H. destruct (IH H) as (Hv & z' & Hz & E).
    split; [assumption|]. exists z'. split; [now right | assumption].
Qed.

(** No decimal digit is white space. *)
Lemma decimal_not_space c : is_decimal c = true -> unicode_space c = false.
Proof.
  intros Hd. destruct (unicode_space c) eqn:Hs; [|reflexivity].
  unfold unicode_space in Hs. apply existsb_exists in Hs.
  destruct Hs as (x & Hx & E). apply Z.eqb_eq in E. subst x.
  assert (Hall : forallb (fun x => negb (is_decimal x))
                   [ 0x09; 0x0A; 0x0B; 0x0C; 0x0D; 0x1C; 0x1D; 0x1E; 0x1F;
                     0x20; 0x85; 0xA0; 0x1680; 0x2000; 0x2001; 0x2002;
                     0x2003; 0x2004; 0x2005; 0x2006; 0x2007; 0x2008;
                     0x2009; 0x200A; 0x2028; 0x2029; 0x202F; 0x205F;
                     0x3000 ] = true) by (vm_compute; reflexivity).
  rewrite forallb_forall in Hall. apply Hall in Hx.
  rewrite Hd in Hx. discriminate.
Qed.

(** The only decimal digits below 127 are the ASCII digits. *)
Lemma decimal_below_127 c :
  is_decimal c = true -> c < 127 -> 48 <= c <= 57.
Proof.
  unfold is_decimal, decimal. intros Hd Hc.
  destruct (decimal_in decimal_zeros c) as [v|] eqn:E; [|discriminate].
  apply decimal_in_spec in E. destruct E as (Hv & z & Hz & ->).
  unfold decimal_zeros in Hz. cbn [In] in Hz.
  repeat (destruct Hz as [<- | Hz]; [lia|]). destruct Hz.
Qed.

(** A decimal digit becomes an ASCII digit. *)
Lemma ascii_char_decimal c :
  is_decimal c = true ->
  exists d, ascii_char c = Some d /\ is_digit d = true.
Proof.
  intros Hd. unfold ascii_char.
  assert (H0 : 0 <= c).
  { unfold is_decimal, decimal in Hd.
    destruct (decimal_in decimal_zeros c) as [v|] eqn:E; [|discriminate].
    apply decimal_in_spec in E. destruct E as (Hv & z & Hz & ->).
    unfold decimal_zeros in Hz. cbn [In] in Hz.
    repeat (destruct Hz as [<- | Hz]; [lia|]). destruct Hz. }
  destruct (Z.leb_spec 0 c); [|lia]. cbn [andb].
  destruct (Z.ltb_spec c 127) as [Hlt | Hge].
  - pose proof (decimal_below_127 c Hd Hlt) as Hr.
    exists (chr c). split; [reflexivity|].
    unfold is_digit. rewrite ord_chr, Z.mod_small by lia.
    apply andb_true_iff; split; lia.
  - rewrite (decimal_not_space c Hd).
    unfold is_decimal in Hd. destruct (decimal c) as [v|] eqn:E; [|discriminate].
    unfold decimal in E. apply decimal_in_spec in E. destruct E as [Hv _].
    exists (digit_chr v). split; [reflexivity|]. apply is_digit_chr. lia.
Qed.

Lemma to_ascii_app s1 s2 l1 l2 :
  to_ascii s1 = Some l1 -> to_ascii s2 = Some l2 ->
  to_ascii (s1 ++ s2) = Some (l1 ++ l2).
Proof.
  revert l1. induction s1 as [|c s1 IH]; intros l1; cbn [to_ascii app].
  - intros E1 E2. apply (f_equal (fun o => match o with Some x => x | None => [] end)) in E1.
    subst l1. exact E2.
  - destruct (ascii_char c) as [x|]; [|discriminate].
    destruct (to_ascii s1) as [r|]; [|discriminate].
    intros E1 E2. rewrite (IH r eq_refl E2).
    injection E1 as <-. reflexivity.
Qed.

Lemma to_ascii_decimals ds :
  forallb is_decimal ds = true ->
  exists ds', to_ascii ds = Some ds' /\ forallb is_digit ds' = true /\
              length ds' = length ds.
Proof.
  induction ds as [|c ds IH]; cbn [forallb to_ascii]; intros H.
  - now exists [].
  - apply andb_true_iff in H. destruct H as [Hc Hds].
    destruct (ascii_char_decimal c Hc) as (d & -> & Hd).
    destruct (IH Hds) as (ds' & -> & Hds' & Hl).
    exists (d :: ds'). cbn [forallb length]. rewrite Hd, Hds', Hl. auto.
Qed.

Lemma to_ascii_sign sg :
  sg = [] \/ sg = u "-" \/ sg = u "+" ->
  exists sg', to_ascii sg = Some sg' /\
              (sg' = [] \/ sg' = ["-"%byte] \/ sg' = ["+"%byte]).
Proof.
  intros [-> | [-> | ->]]; eexists; (split; [reflexivity|]); auto.
Qed.

(** The characters of a literal: digits, signs, the point and the
    exponent letters. *)
Lemma literal_char_facts c :
  is_digit c || existsb (Byte.eqb c) (b "+-.eE") = true ->
  is_space c = false /\ Byte.eqb c "_" = false.
Proof.
  destruct (is_digit c) eqn:Hd; cbn [orb].
  - intros _. split; [now apply is_digit_not_space|].
    apply byte_eqb_neq. intros ->. discriminate.
  - change (b "+-.eE") with ["+"; "-"; "."; "e"; "E"]%byte. cbn [existsb].
    intros H.
    repeat match type of H with
    | (Byte.eqb c ?x || _) = true =>
        destruct (Byte.eqb c x) eqn:E;
          [apply byte_eqb_eq in E; subst c; split; reflexivity
          | cbn [orb] in H; clear E]
    end.
    discriminate.
Qed.

Lemma strip_no_space l :
  forallb (fun c => negb (is_space c)) l = true -> strip l = l.
Proof.
  intros H. unfold strip.
  assert (Hl : forall l', forallb (fun c => negb (is_space c)) l' = true ->
                          lstrip l' = l').
  { intros [|c t] Hc; [reflexivity|]. cbn [forallb] in Hc.
    apply andb_true_iff in Hc. destruct Hc as [Hc _].
    cbn [lstrip]. now destruct (is_space c). }
  rewrite (Hl l H), Hl; [apply rev_involutive|].
  apply forallb_forall. intros x Hx. apply in_rev in Hx.
  now apply (proj1 (forallb_forall _ _) H).
Qed.

(** A text without underscores has no digit groups to join. *)
Lemma ungroup_none l :
  forallb (fun c => negb (Byte.eqb c "_")) l = true ->
  forall prev,
    match prev with Some p => Byte.eqb p "_" | None => false end = false ->
    ungroup prev l = Some l.
Proof.
  induction l as [|c l IH]; intros H prev Hp; cbn [ungroup]; rewrite Hp.
  - reflexivity.
  - cbn [forallb] in H. apply andb_true_iff in H. destruct H as [Hc Hl].
    apply negb_true_iff in Hc. rewrite Hc. cbn [andb].
    now rewrite (IH Hl (Some c) Hc).
Qed.

Lemma span_digits_app ds rest :
  forallb is_digit ds = true ->
  match rest with c :: _ => is_digit c = false | [] => True end ->
  span_digits (ds ++ rest) = (ds, rest).
Proof.
  intros Hd Hr. induction ds as [|c ds IH].
  - destruct rest as [|c t]; [reflexivity|]. cbn [app span_digits]. now rewrite Hr.
  - cbn [forallb] in Hd. apply andb_true_iff in Hd. destruct Hd as [Hc Hd].
    cbn [app span_digits]. rewrite Hc, (IH Hd). reflexivity.
Qed.

Lemma take_sign_none l :
  match l with
  | c :: _ => Byte.eqb c "-" = false /\ Byte.eqb c "+" = false
  | [] => True
  end ->
  take_sign l = (false, l).
Proof.
  destruct l as [|c t]; [reflexivity|]. intros [H1 H2].
  cbn [take_sign]. now rewrite H1, H2.
Qed.

Lemma take_sign_sign sg l :
  sg = [] \/ sg = ["-"%byte] \/ sg = ["+"%byte] ->
  match l with
  | c :: _ => Byte.eqb c "-" = false /\ Byte.eqb c "+" = false
  | [] => True
  end ->
  exists s, take_sign (sg ++ l) = (s, l).
Proof.
  intros [-> | [-> | ->]] Hl.
  - exists false. now apply take_sign_none.
  - now exists true.
  - now exists false.
Qed.

Lemma forallb_literal_digits ds :
  forallb is_digit ds = true ->
  forallb (fun c => is_digit c || existsb (Byte.eqb c) (b "+-.eE")) ds = true.
Proof.
  intros H. apply forallb_forall. intros x Hx.
  now rewrite (proj1 (forallb_forall _ _) H x Hx).
Qed.

Lemma forallb_literal_sign sg :
  sg = [] \/ sg = ["-"%byte] \/ sg = ["+"%byte] ->
  forallb (fun c => is_digit c || existsb (Byte.eqb c) (b "+-.eE")) sg = true.
Proof. intros [-> | [-> | ->]]; reflexivity. Qed.

(** An ASCII text of the shape of a token has nothing to strip, no digit
    groups, is no infinity and no NaN, and is a decimal literal. *)
Lemma literal_shape sg ip fr fp ex :
  (sg = [] \/ sg = ["-"%byte] \/ sg = ["+"%byte]) ->
  forallb is_digit ip = true ->
  forallb is_digit fp = true ->
  (fr = [] /\ fp = [] \/ fr = "."%byte :: fp) ->
  ip ++ fp <> [] ->
  (ex = [] \/
   exists x sg2 c ds,
     ex = x :: sg2 ++ c :: ds /\
     (x = "e"%byte \/ x = "E"%byte) /\
     (sg2 = [] \/ sg2 = ["-"%byte] \/ sg2 = ["+"%byte]) /\
     forallb is_digit (c :: ds) = true) ->
  let l := sg ++ ip ++ fr ++ ex in
  strip l = l /\ ungroup None l = Some l /\ inf_or_nan l = None /\
  exists s m e, decimal_literal l = Some (Decimal s m e).
Proof.
  intros Hsg Hip Hfp Hfr Hne Hex l.
  (* every character is a character of a literal *)
  assert (Hlit : forallb (fun c => is_digit c
                                   || existsb (Byte.eqb c) (b "+-.eE")) l
                 = true).
  { subst l. rewrite !forallb_app.
    rewrite (forallb_literal_sign _ Hsg), (forallb_literal_digits _ Hip).
    cbn [andb]. apply andb_true_iff. split.
    - destruct Hfr as [[-> _] | ->]; [reflexivity|].
      cbn [forallb]. now rewrite (forallb_literal_digits _ Hfp).
    - destruct Hex as [-> | (x & sg2 & c & ds & -> & Hx & Hs & Hds)];
        [reflexivity|].
      cbn [forallb]. rewrite forallb_app.
      rewrite (forallb_literal_sign _ Hs), (forallb_literal_digits _ Hds).
      destruct Hx as [-> | ->]; reflexivity. }
  assert (Hns : forallb (fun c => negb (is_space c)) l = true).
  { apply forallb_forall. intros x Hx.
    destruct (literal_char_facts x (proj1 (forallb_forall _ _) Hlit x Hx))
      as [-> _].
    reflexivity. }
  assert (Hnu : forallb (fun c => negb (Byte.eqb c "_")) l = true).
  { apply forallb_forall. intros x Hx.
    destruct (literal_char_facts x (proj1 (forallb_forall _ _) Hlit x Hx))
      as [_ ->].
    reflexivity. }
  split; [now apply strip_no_space|].
  split; [now apply ungroup_none|].
  (* facts about the exponent part *)
  assert (Hexd : match ex with c :: _ => is_digit c = false | [] => True end).
  { destruct Hex as [-> | (x & sg2 & c & ds & -> & [-> | ->] & _)];
      [exact I | reflexivity | reflexivity]. }
  assert (Hexp : match ex with
                 | c :: _ => Byte.eqb c "." = false
                 | [] => True
                 end).
  { destruct Hex as [-> | (x & sg2 & c & ds & -> & [-> | ->] & _)];
      [exact I | reflexivity | reflexivity]. }
  (* the sign *)
  assert (Hfirst : match ip ++ fr ++ ex with
                   | c :: _ => Byte.eqb c "-" = false /\ Byte.eqb c "+" = false
                   | [] => True
                   end).
  { destruct ip as [|c ip'].
    - destruct Hfr as [[-> ->] | ->]; [now contradiction Hne|].
      cbn [app]. split; reflexivity.
    - cbn [app]. cbn [forallb] in Hip. apply andb_true_iff in Hip.
      now apply digit_not_sign. }
  destruct (take_sign_sign sg _ Hsg Hfirst) as (s & Hts).
  (* the first character behind the sign is a digit or the point *)
  assert (Hhead : exists c t, ip ++ fr ++ ex = c :: t /\
                              (is_digit c = true \/ c = "."%byte)).
  { destruct ip as [|c ip'].
    - destruct Hfr as [[-> ->] | ->]; [now contradiction Hne|].
      cbn [app]. eexists _, _. split; [reflexivity | now right].
    - cbn [app]. cbn [forallb] in Hip. apply andb_true_iff in Hip.
      eexists _, _. split; [reflexivity | now left]. }
  split.
  { (* no infinity and no NaN *)
    unfold inf_or_nan. subst l. rewrite Hts.
    destruct Hhead as (c & t & -> & Hc). cbn [map].
    assert (Hlow : lower c = c).
    { unfold lower. destruct Hc as [Hc | ->]; [|reflexivity].
      unfold is_digit in Hc. apply andb_true_iff in Hc.
      destruct (Z.leb_spec 65 (ord c)); [lia | reflexivity]. }
    rewrite Hlow.
    assert (Hi : c <> "i"%byte /\ c <> "n"%byte).
    { destruct Hc as [Hc | ->]; split; try discriminate;
        intros ->; discriminate. }
    destruct Hi as [Hi Hn].
    destruct (list_eq_dec Byte.byte_eq_dec (c :: map lower t) (b "inf"))
      as [E|_]; [injection E as E _; contradiction|].
    destruct (list_eq_dec Byte.byte_eq_dec (c :: map lower t) (b "infinity"))
      as [E|_]; [injection E as E _; contradiction|].
    destruct (list_eq_dec Byte.byte_eq_dec (c :: map lower t) (b "nan"))
      as [E|_]; [injection E as E _; contradiction|].
    reflexivity. }
  unfold decimal_literal. subst l. rewrite Hts. cbv beta iota.
  (* the integer part *)
  rewrite span_digits_app; [|assumption|].
  2:{ destruct Hfr as [[-> _] | ->]; [exact Hexd | reflexivity]. }
  cbv beta iota.
  (* the fraction *)
  assert (Hfrac :
    match fr ++ ex with
    | c :: t => if Byte.eqb c "." then span_digits t else ([], fr ++ ex)
    | [] => ([], [])
    end = (fp, ex)).
  { destruct Hfr as [[-> ->] | ->].
    - cbn [app]. destruct ex as [|c t]; [reflexivity|]. now rewrite Hexp.
    - cbn [app]. change (Byte.eqb "." ".") with true. cbv iota.
      now apply span_digits_app. }
  match goal with
  | |- context [match ?X with (_, _) => _ end] =>
      assert (HX : X = (fp, ex)) by exact Hfrac; rewrite HX
  end.
  cbv beta iota.
  destruct (ip ++ fp) as [|d ds] eqn:Ed; [contradiction|].
  (* the exponent *)
  destruct Hex as [-> | (x & sg2 & c & dd & -> & Hx & Hs & Hdd)].
  - eexists _, _, _. reflexivity.
  - replace (Byte.eqb x "e" || Byte.eqb x "E") with true
      by (destruct Hx as [-> | ->]; reflexivity).
    assert (Hc : Byte.eqb c "-" = false /\ Byte.eqb c "+" = false).
    { cbn [forallb] in Hdd. apply andb_true_iff in Hdd.
      now apply digit_not_sign. }
    cbv beta iota.
    destruct (take_sign_sign sg2 (c :: dd) Hs Hc) as (s2 & ->).
    cbv beta iota.
    rewrite <- (app_nil_r (c :: dd)), span_digits_app by (assumption || exact I).
    eexists _, _, _. reflexivity.
Qed.

(** [float] reads every token of [_ascii_re] as a decimal literal. *)
Lemma float_literal_token m :
  Matches _ascii_re m -> exists s d e, float_literal m = Some (Decimal s d e).
Proof.
  intros H. apply ascii_re_shape in H.
  destruct H as (sg & ip & fr & fp & ex & -> & Hsg & Hip & Hfp & Hfr & Hne & Hex).
  destruct (to_ascii_sign sg Hsg) as (sg' & Esg & Hsg').
  destruct (to_ascii_decimals ip Hip) as (ip' & Eip & Hip' & Lip).
  destruct (to_ascii_decimals fp Hfp) as (fp' & Efp & Hfp' & Lfp).
  assert (Hfr' : exists fr', to_ascii fr = Some fr' /\
                             (fr' = [] /\ fp' = [] \/ fr' = "."%byte :: fp')).
  { destruct Hfr as [[-> ->] | ->].
    - exists []. split; [reflexivity|]. left.
      destruct fp'; [auto | discriminate].
    - exists ("."%byte :: fp'). split; [|now right].
      apply (to_ascii_app (u ".") fp ["."%byte] fp' eq_refl Efp). }
  destruct Hfr' as (fr' & Efr & Hfr').
  assert (Hex' : exists ex', to_ascii ex = Some ex' /\
    (ex' = [] \/
     exists x sg2 c ds,
       ex' = x :: sg2 ++ c :: ds /\
       (x = "e"%byte \/ x = "E"%byte) /\
       (sg2 = [] \/ sg2 = ["-"%byte] \/ sg2 = ["+"%byte]) /\
       forallb is_digit (c :: ds) = true)).
  { destruct Hex as [-> | (x & sg2 & c & ds & -> & Hx & Hs & Hds)].
    - exists []. split; [reflexivity | now left].
    - destruct (to_ascii_sign sg2 Hs) as (sg2' & Es2 & Hs2').
      destruct (to_ascii_decimals (c :: ds) Hds) as (cd' & Ecd & Hcd' & Lcd).
      destruct cd' as [|c' ds']; [discriminate|].
      assert (Hx' : exists x', to_ascii x = Some [x'] /\
                               (x' = "e"%byte \/ x' = "E"%byte)).
      { destruct Hx as [-> | ->]; eexists; (split; [reflexivity|]); auto. }
      destruct Hx' as (x' & Ex & Hx').
      exists (x' :: sg2' ++ c' :: ds'). split.
      + apply (to_ascii_app x _ [x'] _ Ex).
        now apply to_ascii_app.
      + right. exists x', sg2', c', ds'. auto. }
  destruct Hex' as (ex' & Eex & Hex').
  assert (Hne' : ip' ++ fp' <> []).
  { intros E. apply Hne. apply app_eq_nil in E. destruct E as [-> ->].
    destruct ip; [|discriminate]. destruct fp; [reflexivity | discriminate]. }
  pose proof (literal_shape sg' ip' fr' fp' ex' Hsg' Hip' Hfp' Hfr' Hne' Hex')
    as Hl.
  cbv zeta in Hl. destruct Hl as (Hst & Hun & Hin & s & d & e & Hdl).
  unfold float_literal.
  rewrite (to_ascii_app _ _ _ _ Esg
             (to_ascii_app _ _ _ _ Eip (to_ascii_app _ _ _ _ Efr Eex))).
  rewrite Hst, Hun, Hin, Hdl. now exists s, d, e.
Qed.

Lemma float_token m : Matches _ascii_re m -> exists x, float_ m = Ok x.
Proof.
  intros H. apply float_literal_token in H. destruct H as (s & d & e & H).
  unfold float_. rewrite H. eexists. reflexivity.
Qed.

(** The pattern does not match the empty text. *)
Lemma ascii_re_not_empty : ~ Matches _ascii_re [].
Proof.
  intros H. apply ascii_re_shape in H.
  destruct H as (sg & ip & fr & fp & ex & E & _ & _ & _ & Hfr & Hne & _).
  symmetry in E. apply app_eq_nil in E. destruct E as [_ E].
  apply app_eq_nil in E. destruct E as [-> E].
  apply app_eq_nil in E. destruct E as [-> _].
  destruct Hfr as [[_ ->] | Hfr]; [now apply Hne | discriminate].
Qed.

Lemma tokens_match r s toks : Tokens r s toks -> Forall (Matches r) toks.
Proof. induction 1; [constructor | assumption | now constructor]. Qed.

Lemma floats_tokens toks :
  Forall (Matches _ascii_re) toks ->
  exists values,
    floats toks = Ok values /\
    Forall2 (fun tok v => float_ tok = Ok v) toks values.
Proof.
  induction 1 as [|tok toks Htok _ (vs & Hvs & Hf)].
  - exists []. split; [reflexivity | constructor].
  - destruct (float_token tok Htok) as (x & Hx).
    exists (x :: vs). cbn [floats]. rewrite Hx, Hvs. cbn [bind].
    split; [reflexivity | now constructor].
Qed.

(** C7.  For every text (a sequence of code points), [parse_ascii] returns
    the values of the tokens of the text, in the order in which they
    occur: the tokens are the substrings that the pattern (a signed
    decimal number with an optional fraction and an optional exponent,
    its digits being the decimal digits of Unicode, as [\d] has them in a
    [str] pattern) matches when the text is scanned from left to right,
    everything else is skipped, no conversion fails; the text
    "1.5, -2, +3.2e1 abc" gives 1.5, -2.0 and 32.0, and the text of "1",
    the Arabic-Indic digit three and "2" gives 132.0. *)
Theorem C7_parse_ascii :
  (forall text,
     exists values,
       parse_ascii text = Ok values /\
       Tokens _ascii_re text (findall _ascii_re text) /\
       Forall2 (fun tok v => float_ tok = Ok v)
         (findall _ascii_re text) values) /\
  findall _ascii_re (u "1.5, -2, +3.2e1 abc") = [u "1.5"; u "-2"; u "+3.2e1"] /\
  parse_ascii (u "1.5, -2, +3.2e1 abc")
  = Ok [0x3FF8000000000000; 0xC000000000000000; 0x4040000000000000] /\
  parse_ascii [0x31; 0x663; 0x32] = Ok [0x4060800000000000].
Proof.
  split; [|repeat split; vm_compute; reflexivity].
  intros text.
  pose proof (findall_tokens _ascii_re ascii_re_not_empty text) as Ht.
  destruct (floats_tokens _ (tokens_match _ _ _ Ht)) as (vs & Hvs & Hf).
  exists vs. unfold parse_ascii. auto.
Qed.

(** * Further properties of the codec *)

Lemma len_unpack_all e count dt l :
  0 <= count -> len (unpack_all e count dt l) = count.
Proof.
  intros H. unfold unpack_all, len. rewrite length_map, length_chunks. lia.
Qed.

(** Both decoders start at the first "#": what comes before it is
    ignored. *)
Theorem decoders_skip_leading_bytes pre rest dt e (is_single : bool) :
  ~ In "#"%byte pre ->
  from_ieee_block (pre ++ "#"%byte :: rest) dt e
  = from_ieee_block ("#"%byte :: rest) dt e /\
  parse_binary (pre ++ "#"%byte :: rest) e is_single
  = parse_binary ("#"%byte :: rest) e is_single.
Proof.
  intros H. split;
    [now apply from_ieee_block_shift | now apply parse_binary_shift].
Qed.

Lemma decoders_skip_leading_bytes_witness :
  from_ieee_block (b "OK " ++ b "#14" ++ [x3f; xc0; x00; x00]) fmt_f true
  = from_ieee_block (b "#14" ++ [x3f; xc0; x00; x00]) fmt_f true /\
  parse_binary (b "OK " ++ b "#14" ++ [x3f; xc0; x00; x00]) true true
  = parse_binary (b "#14" ++ [x3f; xc0; x00; x00]) true true.
Proof.
  apply (decoders_skip_leading_bytes (b "OK ") (b "14" ++ [x3f; xc0; x00; x00])).
  cbn. intros [H | [H | [H | []]]]; discriminate.
Defined.

(** A definite-length block that decodes gives exactly the declared
    number [N] of values, and gives the same values when any bytes follow
    it: the primary decode looks at nothing behind the [N] elements. *)
Theorem from_ieee_block_ignores_trailing pre L body extra dt e v :
  ~ In "#"%byte pre -> 1 <= L <= 9 ->
  from_ieee_block (pre ++ "#"%byte :: digit_chr L :: body) dt e = Ok v ->
  int (firstn (Z.to_nat L) body) = Ok (len v) /\
  from_ieee_block (pre ++ "#"%byte :: digit_chr L :: body ++ extra) dt e
  = Ok v.
Proof.
  intros Hpre HL. rewrite !from_ieee_block_shift by assumption.
  rewrite !from_ieee_block_definite by assumption.
  destruct (int (firstn (Z.to_nat L) body)) as [N|] eqn:EN; [|discriminate].
  destruct (Z.leb_spec 0 N) as [HN|]; [|discriminate].
  destruct (Z.leb_spec (N * calcsize dt) (len body - L)) as [Hfit|];
    [|discriminate].
  cbn [andb]. intros Hv. apply Ok_inj in Hv. subst v.
  assert (Hs : 0 < calcsize dt) by (destruct dt; reflexivity).
  pose proof (len_nonneg body) as Hb. pose proof (len_nonneg extra) as Hx.
  assert (HLb : (Z.to_nat L <= length body)%nat) by (unfold len in *; nia).
  split; [now rewrite len_unpack_all|].
  rewrite firstn_app. replace (Z.to_nat L - length body)%nat with 0%nat by lia.
  cbn [firstn]. rewrite app_nil_r, EN.
  destruct (Z.leb_spec 0 N); [|lia].
  rewrite len_app.
  destruct (Z.leb_spec (N * calcsize dt) (len body + len extra - L)); [|lia].
  cbn [andb]. f_equal. unfold unpack_all. f_equal.
  rewrite skipn_app. replace (Z.to_nat L - length body)%nat with 0%nat by lia.
  cbn [skipn]. apply chunks_app.
  rewrite length_skipn. rewrite <- len_size_nat in Hfit.
  unfold len in *. nia.
Qed.

Lemma from_ieee_block_ignores_trailing_witness :
  int (firstn (Z.to_nat 1) (b "1" ++ [x3f; xc0; x00; x00]))
  = Ok (len [0x3FF8000000000000]) /\
  from_ieee_block
    ([] ++ "#"%byte :: digit_chr 1 :: (b "1" ++ [x3f; xc0; x00; x00])
        ++ b "; more")
    fmt_f true
  = Ok [0x3FF8000000000000].
Proof.
  apply (from_ieee_block_ignores_trailing [] 1 (b "1" ++ [x3f; xc0; x00; x00])
           (b "; more") fmt_f true [0x3FF8000000000000]).
  - intros [].
  - lia.
  - vm_compute. reflexivity.
Defined.

(** The primary decode never returns more values than the bytes behind
    the two header bytes can hold. *)
Theorem from_ieee_block_within_block block dt e v :
  from_ieee_block block dt e = Ok v ->
  len v * calcsize dt + 2 <= len block.
Proof.
  intros H. destruct (find_split "#" block) as [Hno | (pre & rest & -> & Hpre)].
  { rewrite from_ieee_block_no_hash in H by assumption. discriminate. }
  rewrite from_ieee_block_shift in H by assumption.
  rewrite len_app, len_cons. pose proof (len_nonneg pre) as Hp.
  assert (Hs : 0 < calcsize dt) by (destruct dt; reflexivity).
  destruct rest as [|c body].
  { rewrite from_ieee_block_bare in H. discriminate. }
  rewrite len_cons. pose proof (len_nonneg body) as Hb.
  assert (Hind :
    from_ieee_block ("#"%byte :: c :: body) dt e
    = Ok (unpack_all e (Z.quot (len body - 1) (calcsize dt)) dt body) ->
    len v * calcsize dt + 2 <= len pre + (1 + (1 + len body))).
  { intros E. rewrite E in H. apply Ok_inj in H. subst v.
    destruct (Z.eq_dec (len body) 0) as [E0 | E0].
    - rewrite E0. change (0 - 1) with (-1).
      replace (Z.quot (-1) (calcsize dt)) with 0 by (now destruct dt).
      rewrite len_unpack_all; lia.
    - pose proof (Z.quot_pos (len body - 1) (calcsize dt) ltac:(lia) Hs).
      pose proof (Z.mul_quot_le (len body - 1) (calcsize dt) ltac:(lia)
                    ltac:(lia)).
      rewrite len_unpack_all; lia. }
  destruct (is_digit c) eqn:Hd.
  - destruct (is_digit_inv c Hd) as (d & Hdr & ->).
    destruct (Z.eq_dec d 0) as [-> | Hd0].
    + apply Hind. apply from_ieee_block_indefinite. now right.
    + rewrite from_ieee_block_definite in H by lia.
      destruct (int (firstn (Z.to_nat d) body)) as [N|]; [|discriminate].
      destruct (Z.leb_spec 0 N); [|discriminate].
      destruct (Z.leb_spec (N * calcsize dt) (len body - d)); [|discriminate].
      cbn [andb] in H. apply Ok_inj in H. subst v.
      rewrite len_unpack_all; lia.
  - apply Hind. apply from_ieee_block_indefinite. now left.
Qed.

Lemma from_ieee_block_within_block_witness :
  len [0x3FF8000000000000] * calcsize fmt_f + 2
  <= len (b "#11" ++ [x3f; xc0; x00; x00]).
Proof.
  apply (from_ieee_block_within_block _ fmt_f true). vm_compute. reflexivity.
Defined.

(** Two sequences of fewer than [10^9] doubles that encode to the same
    block are the same sequence. *)
Theorem to_ieee_block_injective v v' e blk :
  Forall is_float v -> Forall is_float v' ->
  len v < 10 ^ 9 -> len v' < 10 ^ 9 ->
  to_ieee_block v fmt_d e = Ok blk -> to_ieee_block v' fmt_d e = Ok blk ->
  v = v'.
Proof.
  intros Hf Hf' Hl Hl' H H'.
  apply to_ieee_block_inv in H. destruct H as (p & Hp & ->).
  apply to_ieee_block_inv in H'. destruct H' as (p' & Hp' & E).
  destruct (decode_encode v fmt_d e p Hf Hl Hp) as (v1 & H1 & F1).
  destruct (decode_encode v' fmt_d e p' Hf' Hl' Hp') as (v2 & H2 & F2).
  rewrite <- E in H2. rewrite H1 in H2. apply Ok_inj in H2. subst v2.
  apply Forall2_stored_d in F1, F2. congruence.
Qed.

Lemma to_ieee_block_injective_witness :
  [0x3FF8000000000000] = [0x3FF8000000000000].
Proof.
  apply (to_ieee_block_injective _ _ true
           (b "#11" ++ [x3f; xf8; x00; x00; x00; x00; x00; x00]));
    try (repeat constructor; discriminate);
    try reflexivity; vm_compute; reflexivity.
Defined.

(** ** Further properties of the legacy decode *)

Lemma Forall2_stored_len dt v v' : Forall2 (stored dt) v v' -> len v' = len v.
Proof. intros H. unfold len. now rewrite (Forall2_length H). Qed.

(** The legacy decode reads a newline-terminated indefinite-length block
    of packed values back; without the terminator it fails with
    UnicodeDecodeError when the last payload byte is 128 or more, and with
    'malformed' when the last payload byte is itself a newline. *)
Theorem parse_binary_indefinite_block v e (is_single : bool) payload :
  Forall is_float v ->
  pack_all e (legacy_datatype is_single) v = Ok payload ->
  (exists v',
     parse_binary (b "#0" ++ payload ++ [x0a]) e is_single = Ok v' /\
     Forall2 (stored (legacy_datatype is_single)) v v') /\
  (forall p x, payload = p ++ [x] -> 128 <= ord x ->
     parse_binary (b "#0" ++ payload) e is_single = Raise UnicodeDecodeError) /\
  (forall p, payload = p ++ [x0a] ->
     parse_binary (b "#0" ++ payload) e is_single
     = Raise ValueError_malformed).
Proof.
  intros Hf Hp. set (dt := legacy_datatype is_single) in *.
  pose proof (pack_all_length _ _ _ _ Hp) as Hl.
  assert (Hs : 0 < calcsize dt) by (subst dt; destruct is_single; reflexivity).
  pose proof (len_nonneg v) as Hv.
  repeat split.
  - change (b "#0" ++ payload ++ [x0a])
      with ("#"%byte :: "0"%byte :: payload ++ [x0a]).
    rewrite parse_binary_indefinite by reflexivity.
    change (ord x0a <? 128) with true. change (Byte.eqb x0a x0a) with true.
    cbv iota zeta. fold dt. rewrite Hl, Z.mod_mul, Z.div_mul by lia.
    change (0 =? 0) with true. cbv iota.
    eexists. split; [reflexivity|].
    unfold unpack_all, len. rewrite Nat2Z.id.
    rewrite <- (app_nil_r payload). now apply pack_all_unpack.
  - intros p x -> Hx.
    change (b "#0" ++ p ++ [x]) with ("#"%byte :: "0"%byte :: p ++ [x]).
    rewrite parse_binary_indefinite by reflexivity.
    destruct (Z.ltb_spec (ord x) 128); [lia | reflexivity].
  - intros p ->.
    change (b "#0" ++ p ++ [x0a]) with ("#"%byte :: "0"%byte :: p ++ [x0a]).
    rewrite parse_binary_indefinite by reflexivity.
    change (ord x0a <? 128) with true. change (Byte.eqb x0a x0a) with true.
    cbv iota zeta. fold dt.
    rewrite len_app in Hl. change (len [x0a]) with 1 in Hl.
    pose proof (len_nonneg p).
    destruct (Z.eqb_spec (len p mod calcsize dt) 0) as [E|]; [|reflexivity].
    exfalso. apply Z.mod_divide in E; [|lia]. destruct E as (k & Ek).
    assert (Hd : (calcsize dt | 1)).
    { exists (len v - k). lia. }
    apply Z.divide_1_r_nonneg in Hd; [|lia].
    subst dt. destruct is_single; discriminate.
Qed.

Lemma parse_binary_indefinite_block_witness :
  (exists v',
     parse_binary
       (b "#0" ++ [x00; x00; x00; x00; x00; x00; x00; xc0] ++ [x0a])
       false false = Ok v' /\
     Forall2 (stored fmt_d) [0xC000000000000000] v') /\
  parse_binary (b "#0" ++ [x00; x00; x00; x00; x00; x00; x00; xc0])
    false false = Raise UnicodeDecodeError.
Proof.
  destruct (parse_binary_indefinite_block [0xC000000000000000] false false
              [x00; x00; x00; x00; x00; x00; x00; xc0]) as (H1 & H2 & _).
  - repeat constructor; discriminate.
  - vm_compute. reflexivity.
  - split; [exact H1|].
    apply (H2 [x00; x00; x00; x00; x00; x00; x00] xc0);
      [reflexivity | vm_compute; discriminate].
Defined.

(** On an indefinite-length block that ends with a newline and whose
    payload is a whole number of elements, the legacy and the primary
    decode return the same values. *)
Theorem decoders_agree_on_terminated_block body e (is_single : bool) :
  len body mod calcsize (legacy_datatype is_single) = 0 ->
  parse_binary (b "#0" ++ body ++ [x0a]) e is_single
  = from_ieee_block (b "#0" ++ body ++ [x0a])
      (legacy_datatype is_single) e.
Proof.
  intros Hm. set (dt := legacy_datatype is_single) in *.
  assert (Hs : 0 < calcsize dt) by (subst dt; destruct is_single; reflexivity).
  pose proof (len_nonneg body) as Hb.
  change (b "#0" ++ body ++ [x0a]) with ("#"%byte :: "0"%byte :: body ++ [x0a]).
  rewrite parse_binary_indefinite by reflexivity.
  rewrite from_ieee_block_indefinite by now right.
  change (ord x0a <? 128) with true. change (Byte.eqb x0a x0a) with true.
  cbv iota zeta. fold dt. rewrite Hm. change (0 =? 0) with true. cbv iota.
  rewrite len_app. change (len [x0a]) with 1.
  replace (len body + 1 - 1) with (len body) by lia.
  rewrite Z.quot_div_nonneg by lia.
  f_equal. unfold unpack_all. f_equal. symmetry. apply chunks_app.
  pose proof (Z.div_pos (len body) (calcsize dt) Hb Hs) as Hq.
  pose proof (Z.mul_div_le (len body) (calcsize dt) Hs) as Hle.
  apply Nat2Z.inj_le. rewrite Nat2Z.inj_mul, Z2Nat.id, len_size_nat by lia.
  fold (len body). lia.
Qed.

Lemma decoders_agree_on_terminated_block_witness :
  parse_binary (b "#0" ++ [x3f; xc0; x00; x00] ++ [x0a]) true true
  = from_ieee_block (b "#0" ++ [x3f; xc0; x00; x00] ++ [x0a]) fmt_f true.
Proof.
  apply (decoders_agree_on_terminated_block [x3f; xc0; x00; x00] true true).
  reflexivity.
Defined.

Lemma Forall2_firstn {A B} (R : A -> B -> Prop) k l l' :
  Forall2 R l l' -> Forall2 R (firstn k l) (firstn k l').
Proof.
  intros H. revert k. induction H as [|x y l l' Hxy H IH]; intros k.
  - rewrite !firstn_nil. constructor.
  - destruct k; cbn [firstn]; constructor; auto.
Qed.

Lemma chunks_prefix k sz n (p : bytes) :
  (k * sz <= n)%nat -> (n <= length p)%nat ->
  chunks k sz (firstn n p) = chunks k sz p.
Proof.
  intros Hk Hn. rewrite <- (firstn_skipn n p) at 2.
  symmetry. apply chunks_app. rewrite length_firstn. lia.
Qed.

(** The legacy decode does not read back what the encoder wrote: the
    encoder's header counts elements and the legacy decode takes that
    count as a number of bytes.  So it fails with 'malformed' unless the
    element count is a multiple of the element size, and otherwise returns
    only the first [count / element_size] elements. *)
Theorem parse_binary_of_to_ieee_block v e (is_single : bool) blk :
  Forall is_float v -> len v < 10 ^ 9 ->
  to_ieee_block v (legacy_datatype is_single) e = Ok blk ->
  let dt := legacy_datatype is_single in
  if len v mod calcsize dt =? 0
  then exists v',
         parse_binary blk e is_single = Ok v' /\
         Forall2 (stored dt) (firstn (Z.to_nat (len v / calcsize dt)) v) v'
  else parse_binary blk e is_single = Raise ValueError_malformed.
Proof.
  intros Hf Hlt Hblk dt. fold dt in Hblk.
  assert (Hs : 0 < calcsize dt) by (subst dt; destruct is_single; reflexivity).
  apply to_ieee_block_inv in Hblk. destruct Hblk as (p & Hp & ->).
  pose proof (len_nonneg v) as Hv.
  pose proof (pack_all_length _ _ _ _ Hp) as Hlp.
  set (n := len v) in *. set (L := len (str n)).
  assert (HL : 1 <= L <= 9).
  { subst L. split.
    - rewrite str_nonneg by lia. now destruct (str_nat_spec n Hv) as (_ & _ & ? & _).
    - apply len_str_upper; lia. }
  rewrite (str_digit L) by lia. cbn [app].
  rewrite parse_binary_definite by assumption.
  change (if is_single then fmt_f else fmt_d) with dt.
  subst L. rewrite firstn_len_app, skipn_len_app.
  rewrite str_nonneg, int_str_nat by lia. cbv zeta.
  rewrite len_firstn, Z2Nat.id, Hlp by lia.
  replace (Z.min n (n * calcsize dt)) with n by nia.
  destruct (Z.leb_spec 0 n); [|lia]. cbn [andb].
  pose proof (Z.div_mod n (calcsize dt) ltac:(lia)) as Hdm.
  pose proof (Z.mod_pos_bound n (calcsize dt) Hs) as Hmb.
  pose proof (Z.div_pos n (calcsize dt) Hv Hs) as Hq.
  destruct (Z.eqb_spec (n mod calcsize dt) 0) as [E|E].
  - destruct (Z.eqb_spec n (n / calcsize dt * calcsize dt)); [|lia].
    eexists. split; [reflexivity|].
    unfold unpack_all.
    assert (Hk : (Z.to_nat (n / calcsize dt) * size_nat dt <= Z.to_nat n)%nat).
    { apply Nat2Z.inj_le.
      rewrite Nat2Z.inj_mul, !Z2Nat.id, len_size_nat by lia. lia. }
    assert (Hn : (Z.to_nat n <= length p)%nat).
    { apply Nat2Z.inj_le. rewrite Z2Nat.id by lia. fold (len p). nia. }
    rewrite chunks_prefix by assumption.
    assert (Hkv : (Z.to_nat (n / calcsize dt) <= length v)%nat).
    { apply Nat2Z.inj_le. rewrite Z2Nat.id by lia. fold (len v). fold n. nia. }
    rewrite (chunks_firstn _ (length v - Z.to_nat (n / calcsize dt))).
    replace (Z.to_nat (n / calcsize dt)
             + (length v - Z.to_nat (n / calcsize dt)))%nat
      with (length v) by lia.
    rewrite <- firstn_map. apply Forall2_firstn.
    rewrite <- (app_nil_r p). now apply pack_all_unpack.
  - destruct (Z.eqb_spec n (n / calcsize dt * calcsize dt)); [lia|].
    reflexivity.
Qed.

Lemma parse_binary_of_to_ieee_block_witness :
  parse_binary (b "#11" ++ [x00; x00; x00; x00; x00; x00; xf8; x3f])
    false false = Raise ValueError_malformed.
Proof.
  apply (parse_binary_of_to_ieee_block [0x3FF8000000000000] false false).
  - repeat constructor; discriminate.
  - reflexivity.
  - vm_compute. reflexivity.
Defined.

(** With the payload's number of bytes in the header, as the legacy decode
    expects it, the legacy decode reads packed values back, whatever
    follows the payload. *)
Theorem parse_binary_byte_count_round_trip v e (is_single : bool) p tail :
  Forall is_float v -> len p < 10 ^ 9 ->
  pack_all e (legacy_datatype is_single) v = Ok p ->
  exists v',
    parse_binary
      ("#"%byte :: str (len (str (len p))) ++ str (len p) ++ p ++ tail)
      e is_single = Ok v' /\
    Forall2 (stored (legacy_datatype is_single)) v v'.
Proof.
  intros Hf Hlt Hp. set (dt := legacy_datatype is_single) in *.
  assert (Hs : 0 < calcsize dt) by (subst dt; destruct is_single; reflexivity).
  pose proof (len_nonneg v) as Hv. pose proof (len_nonneg p) as Hpn.
  pose proof (pack_all_length _ _ _ _ Hp) as Hlp.
  set (n := len p) in *. set (L := len (str n)).
  assert (HL : 1 <= L <= 9).
  { subst L. split.
    - rewrite str_nonneg by lia.
      now destruct (str_nat_spec n Hpn) as (_ & _ & ? & _).
    - apply len_str_upper; lia. }
  rewrite (str_digit L) by lia. cbn [app].
  rewrite parse_binary_definite by assumption.
  change (if is_single then fmt_f else fmt_d) with dt.
  subst L. rewrite firstn_len_app, skipn_len_app.
  rewrite str_nonneg, int_str_nat by lia. cbv zeta.
  subst n. rewrite firstn_len_app.
  rewrite Hlp, Z.div_mul, Z.eqb_refl by lia.
  destruct (Z.leb_spec 0 (len v * calcsize dt)); [|nia]. cbn [andb].
  eexists. split; [reflexivity|].
  unfold unpack_all, len. rewrite Nat2Z.id.
  rewrite <- (app_nil_r p). now apply pack_all_unpack.
Qed.

Lemma parse_binary_byte_count_round_trip_witness :
  exists v',
    parse_binary
      (b "#14" ++ [x3f; xc0; x00; x00] ++ b "tail") true true = Ok v' /\
    Forall2 (stored fmt_f) [0x3FF8000000000000] v'.
Proof.
  apply (parse_binary_byte_count_round_trip [0x3FF8000000000000] true true
           [x3f; xc0; x00; x00] (b "tail")).
  - repeat constructor; discriminate.
  - reflexivity.
  - vm_compute. reflexivity.
Defined.

(** ** What the decoders raise *)

Ltac split_result :=
  repeat (cbn [bind try_except is_ValueError is_StructError];
          match goal with
          | |- context [match int_literal ?x with _ => _ end] =>
              destruct (int_literal x)
          | |- context [if ?c then _ else _] => destruct c
          end).

(** Every failure of the two decoders is a ValueError: [struct.error] never
    leaves them, and the primary decode raises no UnicodeDecodeError
    either. *)
Theorem decoders_raise_value_errors block dt e (is_single : bool) err :
  (from_ieee_block block dt e = Raise err ->
   In err [ValueError_no_hash; ValueError_int; ValueError_malformed]) /\
  (parse_binary block e is_single = Raise err ->
   In err [ValueError_no_hash; ValueError_int; ValueError_malformed;
           UnicodeDecodeError]).
Proof.
  split.
  - unfold from_ieee_block, int, unpack_from. split_result;
      cbn [bind try_except is_ValueError is_StructError];
      try discriminate; intros [= <-]; cbn; auto.
  - unfold parse_binary, parse_binary_payload, decode_ascii, int, unpack.
    split_result;
      cbn [bind try_except is_ValueError is_StructError];
      try discriminate; intros [= <-]; cbn; auto.
Qed.

Lemma decoders_raise_value_errors_witness :
  In ValueError_malformed
    [ValueError_no_hash; ValueError_int; ValueError_malformed] /\
  In UnicodeDecodeError
    [ValueError_no_hash; ValueError_int; ValueError_malformed;
     UnicodeDecodeError].
Proof.
  split.
  - apply (decoders_raise_value_errors (b "#12" ++ [x00; x00; x00; x00])
             fmt_f true true).
    vm_compute. reflexivity.
  - apply (decoders_raise_value_errors (b "#0" ++ [x00; x00; x00; xff])
             fmt_f true true).
    vm_compute. reflexivity.
Defined.

(** ** Texts without a number *)

Lemma forallb_digit_In l :
  forallb is_decimal l = true -> l <> [] ->
  exists c, In c l /\ is_decimal c = true.
Proof.
  destruct l as [|c t]; [congruence|]. cbn [forallb].
  intros H _. apply andb_prop in H. exists c. split; [now left | tauto].
Qed.

(** Every text the pattern matches holds a digit. *)
Lemma ascii_re_has_digit m :
  Matches _ascii_re m -> exists c, In c m /\ is_decimal c = true.
Proof.
  intros H. apply ascii_re_shape in H.
  destruct H as (sg & ip & fr & fp & ex & -> & _ & Hip & Hfp & Hfr & Hne & _).
  destruct ip as [|c ip].
  - destruct Hfr as [[_ ->] | ->]; [exfalso; now apply Hne|].
    destruct (forallb_digit_In fp Hfp Hne) as (c & Hc & Hd).
    exists c. split; [|assumption].
    rewrite !in_app_iff. right. right. left. now right.
  - cbn [forallb] in Hip. apply andb_prop in Hip.
    exists c. split; [|tauto].
    rewrite !in_app_iff. right. left. now left.
Qed.

(** A single digit is a number. *)
Lemma ascii_re_digit c : is_decimal c = true -> Matches _ascii_re [c].
Proof.
  intros Hc. unfold _ascii_re.
  change [c] with ([] ++ (([c] ++ []) ++ []) ++ @nil Z).
  apply M_Seq; [apply M_OptNone|].
  apply M_Seq; [|apply M_OptNone].
  apply M_AltL. apply M_Seq; [|apply M_OptNone].
  unfold Plus. apply M_Seq; [now apply M_Digit | apply M_StarNil].
Qed.

Lemma tokens_none_if r s toks :
  Tokens r s toks ->
  (forall m, Matches r m -> exists c, In c m /\ is_decimal c = true) ->
  (forall c, In c s -> is_decimal c = false) -> toks = [].
Proof.
  intros Ht Hr. induction Ht as [|c s toks Hno Ht IH|m rest toks Hne Hm _ _ _];
    intros Hs.
  - reflexivity.
  - apply IH. intros c' Hc'. apply Hs. now right.
  - destruct (Hr m Hm) as (c & Hc & Hd).
    rewrite Hs in Hd; [discriminate|]. apply in_app_iff. now left.
Qed.

Lemma tokens_none_only_if r s :
  Tokens r s [] -> forall c, In c s -> ~ Matches r [c].
Proof.
  intros Ht. remember [] as toks eqn:E.
  induction Ht as [|c s toks Hno Ht IH|]; [intros c [] | | discriminate].
  intros c' [<- | Hc'].
  - apply (Hno [c] s). reflexivity.
  - now apply IH.
Qed.

Lemma floats_nil toks : floats toks = Ok [] -> toks = [].
Proof.
  destruct toks as [|t toks]; [reflexivity|]. cbn [floats].
  destruct (float_ t); cbn [bind]; [|discriminate].
  destruct (floats toks); cbn [bind]; discriminate.
Qed.

(** [parse_ascii] returns no value exactly for the texts without a decimal
    digit (of any script): signs, points and exponent letters alone never
    make a number, and any decimal digit does. *)
Theorem parse_ascii_nothing text :
  parse_ascii text = Ok [] <->
  forallb (fun c => negb (is_decimal c)) text = true.
Proof.
  pose proof (findall_tokens _ascii_re ascii_re_not_empty text) as Ht.
  unfold parse_ascii. rewrite forallb_forall. split.
  - intros H. apply floats_nil in H. rewrite H in Ht.
    intros c Hc. destruct (is_decimal c) eqn:Hd; [|reflexivity].
    exfalso. apply (tokens_none_only_if _ _ Ht c Hc).
    now apply ascii_re_digit.
  - intros H. rewrite (tokens_none_if _ _ _ Ht ascii_re_has_digit);
      [reflexivity|].
    intros c Hc. apply H in Hc. now destruct (is_decimal c).
Qed.

Lemma parse_ascii_nothing_witness :
  parse_ascii (u "+-.e, E-. volts") = Ok [] /\
  parse_ascii [0x663] <> Ok [].
Proof.
  split.
  - apply (proj2 (parse_ascii_nothing _)). reflexivity.
  - intros H. apply (proj1 (parse_ascii_nothing _)) in H. discriminate.
Defined.

(** ** Further properties of the architecture probe *)

(** A file shorter than the 64 bytes of the first header is rejected with
    [struct.error], whatever it holds; a file that cannot be opened gives
    the error of the opening. *)
Theorem get_shared_library_arch_short_file w filename :
  (forall data, io_open w filename = Ok data -> len data < 64 ->
     get_shared_library_arch w filename = Raise StructError) /\
  (forall err, io_open w filename = Raise err ->
     get_shared_library_arch w filename = Raise err).
Proof.
  unfold get_shared_library_arch. split.
  - intros data -> Hl. cbn [bind]. unfold pe_machine_type, read.
    cbn [content pos]. unfold unpack_2s58sl.
    pose proof (len_nonneg data) as Hd.
    assert (Hs : len (slice data 0 (0 + 64)) < 64).
    { unfold slice, clip. change (0 + 64) with 64.
      change (0 <? 0) with false. change (64 <? 0) with false. cbv iota.
      rewrite len_firstn, len_skipn. change (Z.to_nat 0) with 0%nat.
      unfold len in *. lia. }
    destruct (long (native_mode w)); cbn [sizeof_long].
    + change (60 + (- 60) mod 4 + 4) with 64.
      destruct (Z.eqb_spec (len (slice data 0 (0 + 64))) 64); [lia|].
      reflexivity.
    + change (60 + (- 60) mod 8 + 8) with 72.
      destruct (Z.eqb_spec (len (slice data 0 (0 + 64))) 72); [lia|].
      reflexivity.
  - intros err ->. reflexivity.
Qed.

Lemma get_shared_library_arch_short_file_witness :
  get_shared_library_arch
    {| platform := b "win32";
       native_mode := {| long := long4; byteorder_big := false |};
       io_open := fun _ => Ok (b "MZ" ++ repeat x00 61);
       check_output_file := fun _ => Raise CalledProcessError |}
    (b "visa32.dll")
  = Raise StructError.
Proof.
  refine (proj1 (get_shared_library_arch_short_file _ _)
            (b "MZ" ++ repeat x00 61) _ _);
    [reflexivity | vm_compute; reflexivity].
Defined.

(** Where a C [long] has 8 bytes (64-bit Linux and macOS) the prober
    cannot read any file: the native format of the first header has 72
    bytes there and only 64 are read, so every file that opens is rejected
    with [struct.error], a well-formed Windows library too. *)
Theorem get_shared_library_arch_long8 w filename data :
  long (native_mode w) = long8 -> io_open w filename = Ok data ->
  get_shared_library_arch w filename = Raise StructError.
Proof.
  intros Hn Ho. unfold get_shared_library_arch. rewrite Ho. cbn [bind].
  now apply pe_machine_type_long8.
Qed.

Lemma get_shared_library_arch_long8_witness :
  get_shared_library_arch
    {| platform := b "linux";
       native_mode := {| long := long8; byteorder_big := false |};
       io_open := fun _ =>
         Ok (b "MZ" ++ repeat x00 58 ++ [x40; x00; x00; x00]
             ++ b "PE" ++ [x00; x00; x64; x86]);
       check_output_file := fun _ => Raise CalledProcessError |}
    (b "visa64.dll")
  = Raise StructError.
Proof.
  apply (get_shared_library_arch_long8 _ _
           (b "MZ" ++ repeat x00 58 ++ [x40; x00; x00; x00]
            ++ b "PE" ++ [x00; x00; x64; x86])); reflexivity.
Defined.

(** The tuples [get_arch] can return. *)
Lemma get_arch_cases w filename a :
  get_arch w filename = Ok a ->
  In a [[]; [32]; [64]; [32; 64]] /\
  (startswith (platform w) (b "win") = true -> a <> [32; 64]).
Proof.
  unfold get_arch. cbv zeta.
  destruct (startswith (platform w) (b "win")).
  - destruct (get_shared_library_arch w filename) as [mt|]; cbn [bind];
      [|discriminate].
    destruct (bytes_eqb mt (b "I386")).
    { intros [= <-]. split; [cbn; auto | discriminate]. }
    destruct (bytes_eqb mt (b "IA64") || bytes_eqb mt (b "AMD64"));
      intros [= <-]; (split; [cbn; auto | discriminate]).
  - destruct (negb (existsb (bytes_eqb (platform w))
                      [b "linux2"; b "linux3"; b "linux"; b "darwin"]));
      [discriminate|].
    destruct (check_output_file w filename) as [out|]; cbn [bind];
      [|discriminate].
    destruct (decode_ascii out) as [out'|]; cbn [bind]; [|discriminate].
    destruct (startswith (platform w) (b "linux")).
    + destruct (contains (b "32-bit") out');
        destruct (contains (b "64-bit") out');
        intros [= <-]; (split; [cbn; auto | discriminate]).
    + destruct (bytes_eqb (platform w) (b "darwin")).
      * destruct (contains (b "(for architecture i386)") out');
          destruct (contains (b "(for architecture x86_64)") out');
          intros [= <-]; (split; [cbn; auto | discriminate]).
      * intros [= <-]. split; [cbn; auto | discriminate].
Qed.

(** [get_arch] returns one of (), (32,), (64,) and (32, 64), never another
    tuple and never (64, 32); on a Windows platform it never returns both
    word sizes. *)
Theorem get_arch_result w filename a :
  get_arch w filename = Ok a ->
  In a [[]; [32]; [64]; [32; 64]] /\
  (startswith (platform w) (b "win") = true -> a <> [32; 64]).
Proof. apply get_arch_cases. Qed.

Lemma get_arch_result_witness :
  In [32; 64] [[]; [32]; [64]; [32; 64]].
Proof.
  refine (proj1 (get_arch_result
    {| platform := b "darwin";
       native_mode := {| long := long8; byteorder_big := false |};
       io_open := fun _ => Raise OSError_open;
       check_output_file := fun _ =>
         Ok (b "visa (for architecture i386) (for architecture x86_64)") |}
    (b "visa") [32; 64] _)).
  vm_compute. reflexivity.
Defined.

(** What [get_arch] looks at: on a Windows platform only the file, never
    the output of [file]; on the other supported platforms only that
    output, never the file; on a platform that is neither it fails with
    OSError whatever the file and the output are. *)
Theorem get_arch_reads w filename o c :
  let w_file := {| platform := platform w; native_mode := native_mode w;
                   io_open := io_open w; check_output_file := c |} in
  let w_out := {| platform := platform w; native_mode := native_mode w;
                  io_open := o;
                  check_output_file := check_output_file w |} in
  let w_none := {| platform := platform w; native_mode := native_mode w;
                   io_open := o; check_output_file := c |} in
  if startswith (platform w) (b "win")
  then get_arch w filename = get_arch w_file filename
  else if existsb (bytes_eqb (platform w))
            [b "linux2"; b "linux3"; b "linux"; b "darwin"]
  then get_arch w filename = get_arch w_out filename
  else get_arch w filename = Raise OSError_platform /\
       get_arch w_none filename = Raise OSError_platform.
Proof.
  intros w_file w_out w_none. subst w_file w_out w_none.
  unfold get_arch, get_shared_library_arch.
  cbn [platform native_mode io_open check_output_file].
  destruct (startswith (platform w) (b "win")); [reflexivity|].
  destruct (existsb (bytes_eqb (platform w))
              [b "linux2"; b "linux3"; b "linux"; b "darwin"]);
    [reflexivity | split; reflexivity].
Qed.

(** ** The properties of [LibraryPath] *)

(** What the three properties return, from the value [arch] gives. *)
Lemma library_path_reads w self :
  exists a self',
    fst (arch w self) = Ok (a, self') /\
    _arch self' = Some a /\
    (_arch self = None ->
     a = match get_arch w (path self) with Ok a0 => a0 | Raise _ => [] end) /\
    is_32bit w self
    = Ok (match a with
          | [] => inl (b "n/a")
          | _ => inr (existsb (Z.eqb 32) a)
          end, self') /\
    is_64bit w self
    = Ok (match a with
          | [] => inl (b "n/a")
          | _ => inr (existsb (Z.eqb 64) a)
          end, self') /\
    bitness w self
    = Ok (match a with
          | [] => b "n/a"
          | _ => join (b ", ") (map str a)
          end, self').
Proof.
  unfold is_32bit, is_64bit, bitness, arch.
  destruct (_arch self) as [a|] eqn:E.
  - exists a, self. cbn [fst bind]. rewrite E.
    destruct a; repeat split; try discriminate; reflexivity.
  - destruct (get_arch w (path self)) as [a|err];
      cbn [try_except bind fst].
    + eexists a, _. split; [reflexivity|].
      cbn [_arch fst bind]. destruct a; repeat split; reflexivity.
    + eexists [], _. split; [reflexivity|].
      cbn [_arch fst bind]. repeat split; reflexivity.
Qed.

(** No property of a [LibraryPath] raises.  Each answers from the value
    [arch] gives (read twice, the second time from the cache) and leaves
    that value stored on the object: 'n/a' for the empty tuple in all
    three, otherwise whether 32, or 64, is in the tuple, and the word sizes
    joined by a comma and a space. *)
Theorem library_path_properties w self :
  exists a self',
    fst (arch w self) = Ok (a, self') /\
    _arch self' = Some a /\
    is_32bit w self
    = Ok (match a with
          | [] => inl (b "n/a")
          | _ => inr (existsb (Z.eqb 32) a)
          end, self') /\
    is_64bit w self
    = Ok (match a with
          | [] => inl (b "n/a")
          | _ => inr (existsb (Z.eqb 64) a)
          end, self') /\
    bitness w self
    = Ok (match a with
          | [] => b "n/a"
          | _ => join (b ", ") (map str a)
          end, self').
Proof.
  destruct (library_path_reads w self) as (a & self' & H1 & H2 & _ & H3).
  now exists a, self'.
Qed.

(** On a new [LibraryPath] the three properties give one of four
    answers: ('n/a', 'n/a', 'n/a'), ('32', True, False), ('64', False,
    True) or ('32, 64', True, True); so a library is never reported as
    neither 32-bit nor 64-bit unless all three say 'n/a'. *)
Theorem library_path_bitness w p found :
  exists s i32 i64 self',
    bitness w (new_LibraryPath p found) = Ok (s, self') /\
    is_32bit w (new_LibraryPath p found) = Ok (i32, self') /\
    is_64bit w (new_LibraryPath p found) = Ok (i64, self') /\
    In (s, i32, i64)
      [ (b "n/a", inl (b "n/a"), inl (b "n/a"));
        (b "32", inr true, inr false);
        (b "64", inr false, inr true);
        (b "32, 64", inr true, inr true) ].
Proof.
  destruct (library_path_reads w (new_LibraryPath p found))
    as (a & self' & _ & _ & Ha & H32 & H64 & Hb).
  specialize (Ha eq_refl). cbn [path new_LibraryPath] in Ha.
  assert (Hc : In a [[]; [32]; [64]; [32; 64]]).
  { destruct (get_arch w p) as [a0|err] eqn:G.
    - subst a0. exact (proj1 (get_arch_cases _ _ _ G)).
    - subst a. now left. }
  do 4 eexists. split; [exact Hb|]. split; [exact H32|]. split; [exact H64|].
  destruct Hc as [<- | [<- | [<- | [<- | []]]]]; cbn; auto.
Qed.

(** ** Keyword arguments *)

Lemma contains_key_In keys key : contains_key keys key = true <-> In key keys.
Proof.
  unfold contains_key. rewrite existsb_exists. split.
  - intros (k & Hk & E). apply bytes_eqb_eq in E. now subst.
  - intros H. exists key. split; [assumption | now apply bytes_eqb_eq].
Qed.

Lemma contains_key_app keys1 keys2 key :
  contains_key (keys1 ++ keys2) key
  = contains_key keys1 key || contains_key keys2 key.
Proof. apply existsb_app. Qed.

(** Setting a key the dictionary does not have adds the item at the end. *)
Lemma setitem_fresh {V} (d : dict V) key value :
  ~ In key (map fst d) -> setitem d key value = d ++ [(key, value)].
Proof.
  induction d as [|[k v] d IH]; intros H; cbn [setitem app]; [reflexivity|].
  cbn [map fst In] in H.
  destruct (bytes_eqb k key) eqn:E.
  - apply bytes_eqb_eq in E. tauto.
  - rewrite IH by tauto. reflexivity.
Qed.

(** The loop of [filter_kwargs], for items whose keys are distinct and
    not yet in the result. *)
Lemma filter_kwargs_loop_spec {V} (items : dict V) selected_keys result :
  NoDup (map fst result ++ map fst items) ->
  filter_kwargs_loop items selected_keys result
  = result
    ++ filter (fun kv => contains_key selected_keys (fst kv)) items.
Proof.
  revert result. induction items as [|[k v] items IH]; intros result H;
    cbn [filter_kwargs_loop filter fst].
  - now rewrite app_nil_r.
  - cbn [map fst] in H.
    assert (Hk : ~ In k (map fst result)).
    { apply NoDup_remove_2 in H. rewrite in_app_iff in H. tauto. }
    destruct (contains_key selected_keys k).
    + rewrite setitem_fresh by assumption.
      rewrite IH.
      * now rewrite <- app_assoc.
      * rewrite map_app, <- app_assoc. exact H.
    + apply IH. now apply NoDup_remove_1 in H.
Qed.

Lemma filter_kwargs_filter {V} (keyw : dict V) selected_keys :
  NoDup (map fst keyw) ->
  filter_kwargs keyw selected_keys
  = filter (fun kv => contains_key selected_keys (fst kv)) keyw.
Proof.
  intros H. unfold filter_kwargs. now rewrite filter_kwargs_loop_spec.
Qed.

Lemma getitem_filter {V} (d : dict V) keys key :
  getitem (filter (fun kv => contains_key keys (fst kv)) d) key
  = if contains_key keys key then getitem d key else None.
Proof.
  induction d as [|[k v] d IH]; cbn [filter getitem fst].
  - now destruct (contains_key keys key).
  - destruct (bytes_eqb k key) eqn:E.
    + apply bytes_eqb_eq in E. subst k.
      destruct (contains_key keys key); [|exact IH].
      cbn [getitem]. replace (bytes_eqb key key) with true; [reflexivity|].
      symmetry. now apply bytes_eqb_eq.
    + destruct (contains_key keys k); [|exact IH].
      cbn [getitem]. now rewrite E.
Qed.

Lemma NoDup_keys_filter {V} (d : dict V) (f : bytes * V -> bool) :
  NoDup (map fst d) -> NoDup (map fst (filter f d)).
Proof.
  induction d as [|kv d IH]; cbn [map filter]; [auto|].
  intros H. inversion H as [|? ? Hk Hd]; subst.
  destruct (f kv); [|now apply IH].
  cbn [map]. constructor; [|now apply IH].
  intros Hin. apply Hk. apply in_map_iff in Hin.
  destruct Hin as (x & <- & Hx). apply filter_In in Hx.
  apply in_map. tauto.
Qed.

(** [filter_kwargs] keeps exactly the items whose key is selected: a
    selected key has the value it has in [keyw], any other key is absent,
    and the keys of the result are distinct. *)
Theorem filter_kwargs_lookup {V} (keyw : dict V) selected_keys :
  NoDup (map fst keyw) ->
  NoDup (map fst (filter_kwargs keyw selected_keys)) /\
  forall key,
    getitem (filter_kwargs keyw selected_keys) key
    = if contains_key selected_keys key then getitem keyw key else None.
Proof.
  intros H. rewrite filter_kwargs_filter by assumption. split.
  - now apply NoDup_keys_filter.
  - intros key. apply getitem_filter.
Qed.

Lemma filter_kwargs_lookup_witness :
  getitem
    (filter_kwargs [(b "timeout", 5); (b "baud_rate", 9600)] [b "timeout"])
    (b "baud_rate")
  = None.
Proof.
  refine (proj2 (filter_kwargs_lookup
                   [(b "timeout", 5); (b "baud_rate", 9600)] [b "timeout"] _)
            (b "baud_rate")).
  repeat constructor; cbn; intros H; decompose [or] H;
    try discriminate; assumption.
Defined.

(** Filtering keeps the order of the items; filtering again by the same
    keys changes nothing, and filtering by two sets of keys in turn is
    filtering by the keys in both. *)
Theorem filter_kwargs_twice {V} (keyw : dict V) keys1 keys2 :
  NoDup (map fst keyw) ->
  filter_kwargs (filter_kwargs keyw keys1) keys1 = filter_kwargs keyw keys1 /\
  filter_kwargs (filter_kwargs keyw keys1) keys2
  = filter_kwargs (filter_kwargs keyw keys2) keys1.
Proof.
  intros H.
  assert (Hf : forall ks1 ks2,
    filter_kwargs (filter_kwargs keyw ks1) ks2
    = filter (fun kv => contains_key ks1 (fst kv) && contains_key ks2 (fst kv))
        keyw).
  { intros ks1 ks2. rewrite (filter_kwargs_filter keyw) by assumption.
    rewrite filter_kwargs_filter by now apply NoDup_keys_filter.
    induction keyw as [|kv d IH]; [reflexivity|]. cbn [filter].
    inversion H; subst.
    destruct (contains_key ks1 (fst kv)); cbn [andb filter];
      [destruct (contains_key ks2 (fst kv))|]; rewrite IH by assumption;
      reflexivity. }
  split.
  - rewrite Hf, filter_kwargs_filter by assumption.
    apply filter_ext. intros kv. now destruct (contains_key keys1 (fst kv)).
  - rewrite !Hf. apply filter_ext. intros kv. apply andb_comm.
Qed.

Lemma filter_kwargs_twice_witness :
  filter_kwargs
    (filter_kwargs [(b "timeout", 5); (b "baud_rate", 9600)] [b "timeout"])
    [b "timeout"]
  = filter_kwargs [(b "timeout", 5); (b "baud_rate", 9600)] [b "timeout"].
Proof.
  refine (proj1 (filter_kwargs_twice
                   [(b "timeout", 5); (b "baud_rate", 9600)]
                   [b "timeout"] [b "timeout"] _)).
  repeat constructor; cbn; intros H; decompose [or] H;
    try discriminate; assumption.
Defined.

Section WarningFacts.
Context {S V : Type}.
Variable warnings_warn : bytes -> Z -> S -> result S.

Lemma warn_for_invalid_kwargs_each (keyw : dict V) allowed_keys st :
  warn_for_invalid_kwargs warnings_warn keyw allowed_keys st
  = warn_each warnings_warn
      (map unknown_keyword
         (filter (fun key => negb (contains_key allowed_keys key))
            (map fst keyw))) st.
Proof.
  revert st. induction keyw as [|[k v] d IH]; intros st;
    cbn [warn_for_invalid_kwargs map filter fst]; [reflexivity|].
  destruct (negb (contains_key allowed_keys k)); cbn [map warn_each].
  - destruct (warnings_warn (unknown_keyword k) 3 st) as [st'|err];
      cbn [bind]; [apply IH | reflexivity].
  - cbn [bind]. apply IH.
Qed.

Lemma split_kwargs_loop_spec (items : dict V) self_keys parent_keys
    (warn : bool) self_kwargs parent_kwargs st :
  split_kwargs_loop warnings_warn items self_keys parent_keys warn
    self_kwargs parent_kwargs st
  = (st' <- (if warn
             then warn_for_invalid_kwargs warnings_warn items
                    (self_keys ++ parent_keys) st
             else Ok st) ;;
     Ok (filter_kwargs_loop items self_keys self_kwargs,
         filter_kwargs_loop items parent_keys parent_kwargs, st')).
Proof.
  revert self_kwargs parent_kwargs st.
  induction items as [|[k v] items IH]; intros s p st;
    cbn [split_kwargs_loop filter_kwargs_loop warn_for_invalid_kwargs].
  - now destruct warn.
  - rewrite contains_key_app. destruct warn; cbn [andb].
    + destruct (negb (contains_key self_keys k || contains_key parent_keys k)).
      * destruct (warnings_warn (unknown_keyword k) 3 st) as [st'|err];
          cbn [bind]; [apply IH | reflexivity].
      * cbn [bind]. apply IH.
    + cbn [bind]. apply IH.
Qed.

End WarningFacts.

(** [split_kwargs] warns, if asked to, exactly as [warn_for_invalid_kwargs]
    does for the two sets of keys together.  When no call of
    [warnings.warn] raises, it returns the two dictionaries that
    [filter_kwargs] gives for the two sets (a key in both sets goes to
    both); when a call raises, that exception leaves [split_kwargs] and
    nothing is returned.  Without [warn] it never raises. *)
Theorem split_kwargs_spec {S V} (warnings_warn : bytes -> Z -> S -> result S)
    (keyw : dict V) self_keys parent_keys (warn : bool) st :
  split_kwargs warnings_warn keyw self_keys parent_keys warn st
  = (st' <- (if warn
             then warn_for_invalid_kwargs warnings_warn keyw
                    (self_keys ++ parent_keys) st
             else Ok st) ;;
     Ok (filter_kwargs keyw self_keys, filter_kwargs keyw parent_keys, st')).
Proof. unfold split_kwargs. apply split_kwargs_loop_spec. Qed.

Lemma warn_each_always messages shown :
  warn_each warn_always messages shown = Ok (shown ++ messages).
Proof.
  revert shown. induction messages as [|m t IH]; intros shown; cbn [warn_each].
  - now rewrite app_nil_r.
  - unfold warn_always at 1. cbn [bind]. rewrite IH.
    now rewrite <- app_assoc.
Qed.

Lemma warn_each_error messages shown :
  warn_each warn_error messages shown
  = match messages with [] => Ok shown | _ :: _ => Raise UserWarning end.
Proof. destruct messages; reflexivity. Qed.

(** [warn_for_invalid_kwargs] calls [warnings.warn] with 'Keyword argument
    "<key>" unknown' for each key that is not allowed, in the order of
    the keys, until a call raises; it makes no call when every key is
    allowed.  So under the filter 'always' one warning is shown for each
    such key, and under the filter 'error' the function raises exactly
    when some key is not allowed. *)
Theorem warn_for_invalid_kwargs_spec {S V}
    (warnings_warn : bytes -> Z -> S -> result S)
    (keyw : dict V) allowed_keys st shown :
  let unknown :=
    map unknown_keyword
      (filter (fun key => negb (contains_key allowed_keys key))
         (map fst keyw)) in
  warn_for_invalid_kwargs warnings_warn keyw allowed_keys st
  = warn_each warnings_warn unknown st /\
  (unknown = [] <->
   forall key, In key (map fst keyw) -> In key allowed_keys) /\
  warn_for_invalid_kwargs warn_always keyw allowed_keys shown
  = Ok (shown ++ unknown) /\
  warn_for_invalid_kwargs warn_error keyw allowed_keys shown
  = match unknown with [] => Ok shown | _ :: _ => Raise UserWarning end.
Proof.
  intros unknown. split; [apply warn_for_invalid_kwargs_each|]. split.
  - subst unknown. split.
    + intros H key Hk. apply map_eq_nil in H.
      destruct (contains_key allowed_keys key) eqn:C;
        [now apply contains_key_In|].
      assert (Hin : In key (filter (fun key =>
                                      negb (contains_key allowed_keys key))
                              (map fst keyw))).
      { apply filter_In. split; [assumption | now rewrite C]. }
      rewrite H in Hin. destruct Hin.
    + intros H.
      assert (Hn : forall l : list bytes,
        (forall key, In key l -> In key allowed_keys) ->
        filter (fun key => negb (contains_key allowed_keys key)) l = []).
      { induction l as [|k l IH]; intros Hl; cbn [filter]; [reflexivity|].
        replace (contains_key allowed_keys k) with true
          by (symmetry; apply contains_key_In; apply Hl; now left).
        cbn [negb]. apply IH. intros key Hk. apply Hl. now right. }
      now rewrite Hn.
  - rewrite !warn_for_invalid_kwargs_each. fold unknown.
    split; [apply warn_each_always | apply warn_each_error].
Qed.

(** ** The byte order *)

Lemma pack1_byte_order dt x bx :
  pack1 false dt x = Ok bx -> pack1 true dt x = Ok (rev bx).
Proof.
  destruct dt; unfold pack1, endian.
  - destruct (to_single x); cbn [bind]; [|discriminate].
    intros H. apply Ok_inj in H. now rewrite H.
  - intros H. apply Ok_inj in H. now rewrite H.
Qed.

Lemma pack_all_byte_order dt v p :
  pack_all false dt v = Ok p ->
  pack_all true dt v
  = Ok (concat (map (@rev byte) (chunks (length v) (size_nat dt) p))).
Proof.
  revert p. induction v as [|x v IH]; intros p; cbn [pack_all].
  - intros _. reflexivity.
  - destruct (pack1 false dt x) as [bx|] eqn:E1; cbn [bind]; [|discriminate].
    destruct (pack_all false dt v) as [bt|] eqn:E2; cbn [bind]; [|discriminate].
    intros H. apply Ok_inj in H. subst p.
    rewrite (pack1_byte_order _ _ _ E1), (IH bt eq_refl). cbn [bind].
    cbn [length chunks map concat].
    pose proof (pack1_length _ _ _ _ E1) as Hl.
    rewrite firstn_app, skipn_app, <- Hl, firstn_all, skipn_all, Nat.sub_diag.
    cbn [firstn skipn app]. now rewrite app_nil_r.
Qed.

(** The byte order changes nothing but the order of the bytes inside each
    element: the block written most significant byte first has the header
    of the block written least significant byte first, and its payload is
    that block's payload with every element reversed. *)
Theorem to_ieee_block_byte_order v dt blk :
  to_ieee_block v dt false = Ok blk ->
  exists header payload,
    blk = header ++ payload /\
    len payload = len v * calcsize dt /\
    to_ieee_block v dt true
    = Ok (header
          ++ concat (map (@rev byte)
                       (chunks (length v) (size_nat dt) payload))).
Proof.
  intros H. apply to_ieee_block_inv in H. destruct H as (p & Hp & ->).
  exists ("#"%byte :: str (len (str (len v))) ++ str (len v)), p.
  split; [cbn [app]; now rewrite <- app_assoc|].
  split; [now apply pack_all_length in Hp|].
  apply to_ieee_block_inv.
  exists (concat (map (@rev byte) (chunks (length v) (size_nat dt) p))).
  split.
  - apply pack_all_byte_order. exact Hp.
  - cbn [app]. now rewrite <- app_assoc.
Qed.

Lemma to_ieee_block_byte_order_witness :
  exists header payload,
    b "#11" ++ [x00; x00; xc0; x3f] = header ++ payload /\
    len payload = len [0x3FF8000000000000] * calcsize fmt_f /\
    to_ieee_block [0x3FF8000000000000] fmt_f true
    = Ok (header
          ++ concat (map (@rev byte)
                       (chunks (length [0x3FF8000000000000])
                          (size_nat fmt_f) payload))).
Proof.
  apply (to_ieee_block_byte_order [0x3FF8000000000000] fmt_f).
  vm_compute. reflexivity.
Defined.

(** ** Separators *)

Lemma then_ext ms k k' :
  (forall m1 s1, In (m1, s1) ms -> k s1 = k' s1) -> then_ ms k = then_ ms k'.
Proof.
  unfold then_. induction ms as [|[m1 s1] ms IH]; intros H; cbn [flat_map];
    [reflexivity|].
  rewrite (H m1 s1) by now left. f_equal. apply IH.
  intros m s Hin. apply (H m s). now right.
Qed.

Lemma then_shift ms k tail :
  (forall m1 s1, In (m1, s1) ms -> k (s1 ++ tail) = map (shift tail) (k s1)) ->
  then_ (map (shift tail) ms) k = map (shift tail) (then_ ms k).
Proof.
  unfold then_. induction ms as [|[m1 s1] ms IH]; intros H;
    cbn [map flat_map]; [reflexivity|].
  rewrite map_app. f_equal.
  - unfold shift at 1. cbn [fst snd]. rewrite (H m1 s1) by now left.
    rewrite !map_map. apply map_ext. now intros [m2 s2].
  - apply IH. intros m s Hin. apply (H m s). now right.
Qed.

(** The star does not need more fuel than the text has characters. *)
Lemma star_fuel one :
  forall f s, (length s <= f)%nat -> star one f s = star one (length s) s.
Proof.
  induction f as [f IH] using lt_wf_ind. intros s Hs.
  destruct f as [|f].
  - destruct s; [reflexivity | cbn in Hs; lia].
  - destruct (length s) as [|n] eqn:En.
    + cbn [star]. rewrite En.
      assert (Hnil : forall l : list (text * text),
                filter (fun '(_, s1) => (length s1 <? 0)%nat) l = []).
      { induction l as [|[m1 s1] l IHl]; [reflexivity | exact IHl]. }
      rewrite Hnil. reflexivity.
    + cbn [star]. f_equal. apply then_ext. intros m1 s1 Hin.
      apply filter_In in Hin. destruct Hin as [_ Hlt].
      apply Nat.ltb_lt in Hlt.
      rewrite (IH f) by lia. rewrite (IH n) by lia. reflexivity.
Qed.

Lemma star_shift one tail :
  (forall s, one (s ++ tail) = map (shift tail) (one s)) ->
  forall f s, star one f (s ++ tail) = map (shift tail) (star one f s).
Proof.
  intros Hone. induction f as [|f IH]; intros s; cbn [star]; [reflexivity|].
  rewrite map_app. f_equal. rewrite Hone, filter_map_swap.
  rewrite <- then_shift by (intros; apply IH).
  f_equal. f_equal. apply filter_ext.
  intros [m1 s1]. unfold shift. cbn [fst snd]. rewrite !length_app.
  destruct (Nat.ltb_spec (length s1 + length tail) (length s + length tail));
    destruct (Nat.ltb_spec (length s1) (length s)); try reflexivity; lia.
Qed.

(** A character that no class of the pattern holds ends every match: the
    ways to match before it are those of the text before it. *)
Lemma matches_at_shift r c t :
  accepts r c = false ->
  forall s, matches_at r (s ++ c :: t) = map (shift (c :: t)) (matches_at r s).
Proof.
  induction r as [ | cs | | r1 IH1 r2 IH2 | r1 IH1 r2 IH2 | r1 IH1 | r1 IH1];
    cbn [accepts matches_at]; intros Hc s.
  - reflexivity.
  - destruct s as [|x s]; cbn [app match_char map].
    + now rewrite Hc.
    + now destruct (mem x cs).
  - destruct s as [|x s]; cbn [app match_char map].
    + now rewrite Hc.
    + now destruct (is_decimal x).
  - apply orb_false_elim in Hc. destruct Hc as [H1 H2].
    rewrite IH1 by assumption. apply then_shift.
    intros m1 s1 _. now apply IH2.
  - apply orb_false_elim in Hc. destruct Hc as [H1 H2].
    now rewrite IH1, IH2, map_app.
  - now rewrite IH1, map_app.
  - rewrite (star_shift _ _ (IH1 Hc)). f_equal.
    apply star_fuel. rewrite length_app. lia.
Qed.

Lemma match_shift r c t s :
  accepts r c = false -> match_ r (s ++ c :: t) = match_ r s.
Proof.
  intros Hc. unfold match_. rewrite matches_at_shift by assumption.
  now destruct (matches_at r s) as [|[m rest] l].
Qed.

Lemma match_empty r : ~ Matches r [] -> match_ r [] = None.
Proof.
  intros Hne. destruct (match_ r []) as [m|] eqn:E; [|reflexivity].
  apply match_sound in E. destruct E as (rest & E & Hm).
  symmetry in E. apply app_eq_nil in E. destruct E as [-> _]. contradiction.
Qed.

(** [findall] on two texts with a character between them that no class of
    the pattern holds. *)
Lemma scan_separator r c t2 :
  ~ Matches r [] -> accepts r c = false ->
  forall t1 skip, (skip <= length t1)%nat ->
    scan r skip (t1 ++ c :: t2) = scan r skip t1 ++ scan r 0 t2.
Proof.
  intros Hne Hc. induction t1 as [|x t1 IH]; intros skip Hs.
  - destruct skip; [|cbn in Hs; lia]. cbn [app scan].
    pose proof (match_shift r c t2 [] Hc) as E. cbn [app] in E.
    rewrite E, match_empty by assumption. reflexivity.
  - cbn [app scan]. destruct skip as [|k].
    + change (x :: t1 ++ c :: t2) with ((x :: t1) ++ c :: t2).
      rewrite match_shift by assumption.
      destruct (match_ r (x :: t1)) as [m|] eqn:E.
      * cbn [app]. f_equal. apply IH.
        apply match_sound in E. destruct E as (rest & E & _).
        apply (f_equal (@length Z)) in E. rewrite length_app in E.
        cbn [length] in E. lia.
      * apply IH. lia.
    + apply IH. cbn [length] in Hs. lia.
Qed.

Lemma floats_app toks1 toks2 v1 v2 :
  floats toks1 = Ok v1 -> floats toks2 = Ok v2 ->
  floats (toks1 ++ toks2) = Ok (v1 ++ v2).
Proof.
  revert v1. induction toks1 as [|t toks1 IH]; intros v1; cbn [floats app].
  - intros H1 H2. apply Ok_inj in H1. now subst.
  - destruct (float_ t) as [x|]; cbn [bind]; [|discriminate].
    destruct (floats toks1) as [xs|]; cbn [bind]; [|discriminate].
    intros H1 H2. apply Ok_inj in H1. subst v1.
    now rewrite (IH xs eq_refl H2).
Qed.

(** A character that is no decimal digit, sign, point or exponent letter
    separates: the values of a text with such a character in it are the
    values of the text before it followed by the values of the text after
    it. *)
Theorem parse_ascii_separator t1 c t2 :
  is_decimal c = false -> mem c (u "-+.eE") = false ->
  exists v1 v2,
    parse_ascii t1 = Ok v1 /\ parse_ascii t2 = Ok v2 /\
    parse_ascii (t1 ++ c :: t2) = Ok (v1 ++ v2).
Proof.
  intros Hd Hm.
  assert (Hc : accepts _ascii_re c = false).
  { change (mem c (u "-+.eE"))
      with ((c =? 45) || ((c =? 43) || ((c =? 46)
            || ((c =? 101) || ((c =? 69) || false))))) in Hm.
    change (accepts _ascii_re c)
      with (((c =? 45) || ((c =? 43) || false)) ||
            ((((is_decimal c || is_decimal c)
               || (((c =? 46) || false) || is_decimal c))
              || (is_decimal c
                  || (((c =? 46) || false)
                      || (is_decimal c || is_decimal c))))
             || (((c =? 101) || ((c =? 69) || false))
                 || (((c =? 45) || ((c =? 43) || false))
                     || (is_decimal c || is_decimal c))))).
    rewrite Hd.
    destruct (c =? 45); [discriminate|].
    destruct (c =? 43); [discriminate|].
    destruct (c =? 46); [discriminate|].
    destruct (c =? 101); [discriminate|].
    destruct (c =? 69); [discriminate|]. reflexivity. }
  pose proof (findall_tokens _ascii_re ascii_re_not_empty) as Ht.
  destruct (floats_tokens _ (tokens_match _ _ _ (Ht t1))) as (v1 & H1 & _).
  destruct (floats_tokens _ (tokens_match _ _ _ (Ht t2))) as (v2 & H2 & _).
  exists v1, v2. unfold parse_ascii, findall.
  split; [exact H1|]. split; [exact H2|].
  rewrite (scan_separator _ _ _ ascii_re_not_empty Hc) by lia.
  now apply floats_app.
Qed.

Lemma parse_ascii_separator_witness :
  exists v1 v2,
    parse_ascii (u "1.5") = Ok v1 /\ parse_ascii (u "-2") = Ok v2 /\
    parse_ascii (u "1.5" ++ 44 :: u "-2") = Ok (v1 ++ v2).
Proof.
  apply (parse_ascii_separator (u "1.5") 44 (u "-2")); reflexivity.
Defined.
